(** * FaceTracker-AI: the centroid tracker and the frame orchestrator

    A shallow embedding of [tracker.py] (class [FaceTracker]) and of
    [FaceTrackingSystem.process_frame] from [main.py], with the properties
    the specification states about them; then further properties of this
    code and of [FaceRecognizer.find_match] from [face_recognizer.py].

    Conventions of the embedding.
    - Python dictionaries keep insertion order, and the tracker depends on it
      ([list(self.objects.keys())] fixes the row numbering of the distance
      matrix): [self.objects] and [self.disappeared] are association lists
      in insertion order.  [self.face_id_map] is only read and written by
      key: it is a [gmap].
    - Track ids and disappearance counters start at 0 and are only
      incremented: they are [nat].  [max_disappeared] and [skip_frames] are
      frame counts: [nat].  Pixel coordinates are [Z].
    - [scipy.spatial.distance.cdist] yields Euclidean distances.  The code
      only compares them with each other and with the gate 50, so the matrix
      [D] holds the squared distances, which are exact integers and are
      ordered as their square roots are; [D[row, col] > 50] reads
      [D[row, col] > 2500].
    - [argmin] returns the first index of the minimum.  The order in which
      [argsort] puts equal keys and the order in which Python iterates the
      sets [unused_rows] and [unused_cols] are not fixed by the code: the
      class [Runtime] below states what is known of them, and [update] is
      defined for every instance of it.
    - A Python [KeyError] is the constructor [KeyError] of [result], which
      carries the state reached when the exception was raised.
    - The detector, the embeddings of the recognizer, the image writer and
      the database are outside the code under study: a [Frame] carries what
      they answer while the frame is processed, and the calls made to the database are
      recorded, with their outcome, in the state of the orchestrator.  Time
      stamps are not modelled. *)

From stdpp Require Import base option list gmap sets strings sorting.
From Stdlib Require Import ZArith Lia DecimalString.
From Stdlib Require DecimalNat.

Open Scope Z_scope.
Open Scope nat_scope.

(** ** Insertion-ordered dictionaries *)

Module Dict.
Section dict.
Context {K : Type} `{EqDecision K} {V : Type}.

Definition keys (d : list (K * V)) : list K := d.*1.
Definition values (d : list (K * V)) : list V := d.*2.

(** [d[k]], [None] when the key is absent. *)
Fixpoint lookup (k : K) (d : list (K * V)) : option V :=
  match d with
  | [] => None
  | (k', v) :: d' => if decide (k = k') then Some v else lookup k d'
  end.

(** [d[k] = v]: an existing key keeps its position, a new one goes last. *)
Fixpoint store (k : K) (v : V) (d : list (K * V)) : list (K * V) :=
  match d with
  | [] => [(k, v)]
  | (k', v') :: d' =>
      if decide (k = k') then (k, v) :: d' else (k', v') :: store k v d'
  end.

(** [del d[k]] on a present key. *)
Definition remove (k : K) (d : list (K * V)) : list (K * V) :=
  filter (λ kv, kv.1 ≠ k) d.

(** [k in d] *)
Definition mem (k : K) (d : list (K * V)) : bool :=
  bool_decide (k ∈ keys d).

(** In-place change of the value stored under [k]. *)
Fixpoint alter (f : V → V) (k : K) (d : list (K * V)) : list (K * V) :=
  match d with
  | [] => []
  | (k', v) :: d' =>
      if decide (k = k') then (k', f v) :: d' else (k', v) :: alter f k d'
  end.
End dict.
End Dict.

(** ** tracker.py *)

Definition Point : Type := Z * Z.
Definition BBox : Type := Z * Z * Z * Z.

(** A detection is the dictionary [{'bbox': ..., 'confidence': ...}]; the
    confidence is a float that neither the tracker nor the orchestrator
    reads. *)
Record Detection := { det_bbox : BBox }.

(** The value stored in [self.objects]. *)
Record Track := {
  centroid : Point;
  bbox : BBox;
  face_id : option string
}.

Record FaceTracker := {
  next_object_id : nat;
  objects : list (nat * Track);
  disappeared : list (nat * nat);
  max_disappeared : nat;
  face_id_map : gmap nat string
}.

Inductive result (S : Type) : Type :=
| Ok (s : S)
| KeyError (s : S).
Arguments Ok {S} s.
Arguments KeyError {S} s.

Definition bind {S : Type} (r : result S) (k : S → result S) : result S :=
  match r with
  | Ok s => k s
  | KeyError s => KeyError s
  end.

Notation "'do' x <- r ;; k" := (bind r (λ x, k))
  (at level 10, x name, r at level 99, k at level 200, only parsing).

Definition state_of {S : Type} (r : result S) : S :=
  match r with Ok s | KeyError s => s end.

Definition is_ok {S : Type} (r : result S) : bool :=
  match r with Ok _ => true | KeyError _ => false end.

Definition set_objects (t : FaceTracker) (o : list (nat * Track)) : FaceTracker :=
  {| next_object_id := next_object_id t; objects := o;
     disappeared := disappeared t; max_disappeared := max_disappeared t;
     face_id_map := face_id_map t |}.

Definition set_disappeared (t : FaceTracker) (d : list (nat * nat)) : FaceTracker :=
  {| next_object_id := next_object_id t; objects := objects t;
     disappeared := d; max_disappeared := max_disappeared t;
     face_id_map := face_id_map t |}.

Definition set_face_id_map (t : FaceTracker) (m : gmap nat string) : FaceTracker :=
  {| next_object_id := next_object_id t; objects := objects t;
     disappeared := disappeared t; max_disappeared := max_disappeared t;
     face_id_map := m |}.

(** [FaceTracker.__init__] *)
Definition init (max_disappeared : nat) : FaceTracker :=
  {| next_object_id := 0; objects := []; disappeared := [];
     max_disappeared := max_disappeared; face_id_map := ∅ |}.

(** [FaceTracker.register]: the new state and the id it returns. *)
Definition register (t : FaceTracker) (c : Point) (b : BBox) : FaceTracker * nat :=
  ({| next_object_id := S (next_object_id t);
      objects := Dict.store (next_object_id t)
                   {| centroid := c; bbox := b; face_id := None |} (objects t);
      disappeared := Dict.store (next_object_id t) 0 (disappeared t);
      max_disappeared := max_disappeared t;
      face_id_map := face_id_map t |},
   next_object_id t).

(** [FaceTracker.deregister]: each [del] raises [KeyError] on an absent
    key, the second one after the first has taken effect. *)
Definition deregister (t : FaceTracker) (object_id : nat) : result FaceTracker :=
  if Dict.mem object_id (objects t) then
    let t1 := set_objects t (Dict.remove object_id (objects t)) in
    if Dict.mem object_id (disappeared t1) then
      let t2 := set_disappeared t1 (Dict.remove object_id (disappeared t1)) in
      Ok (set_face_id_map t2 (delete object_id (face_id_map t2)))
    else KeyError t1
  else KeyError t.

(** The body shared by the two ageing loops of [update]:
    [self.disappeared[object_id] += 1] on a [defaultdict(int)], then
    [deregister] when the counter exceeds [max_disappeared]. *)
Definition age (t : FaceTracker) (object_id : nat) : result FaceTracker :=
  let c := default 0 (Dict.lookup object_id (disappeared t)) + 1 in
  let t1 := set_disappeared t (Dict.store object_id c (disappeared t)) in
  if decide (max_disappeared t1 < c) then deregister t1 object_id else Ok t1.

(** A [for] loop whose body may raise. *)
Fixpoint for_each {S A : Type} (body : S → A → result S) (items : list A) (s : S)
    : result S :=
  match items with
  | [] => Ok s
  | x :: items' => do s1 <- body s x ;; for_each body items' s1
  end.

Definition age_all (ids : list nat) (t : FaceTracker) : result FaceTracker :=
  for_each age ids t.

(** [for ...: self.register(centroid, bbox)] *)
Fixpoint register_all (t : FaceTracker) (new : list (Point * BBox)) : FaceTracker :=
  match new with
  | [] => t
  | (c, b) :: new' => register_all (register t c b).1 new'
  end.

(** [cx = int((x1 + x2) / 2)]: true division, then truncation towards 0. *)
Definition center (b : BBox) : Point :=
  let '(x1, y1, x2, y2) := b in
  (Z.quot (x1 + x2) 2, Z.quot (y1 + y2) 2).

Definition sqdist (p q : Point) : Z :=
  ((p.1 - q.1) * (p.1 - q.1) + (p.2 - q.2) * (p.2 - q.2))%Z.

Definition cdist (XA XB : list Point) : list (list Z) :=
  map (λ a, map (sqdist a) XB) XA.

Definition gate : Z := 2500.

(** [D.min(axis=1)] on one row. *)
Fixpoint row_min (l : list Z) : Z :=
  match l with
  | [] => 0%Z
  | x :: l' => match l' with [] => x | _ => Z.min x (row_min l') end
  end.

(** [D.argmin(axis=1)] on one row: the first index of the minimum. *)
Fixpoint argmin (l : list Z) : nat :=
  match l with
  | [] => 0
  | x :: l' =>
      match l' with
      | [] => 0
      | _ => if (x <=? row_min l')%Z then 0 else S (argmin l')
      end
  end.

(** Stable sorting by insertion: an element goes before the first one
    whose key is not smaller. *)
Fixpoint insert_by {A : Type} (key : A → Z) (x : A) (l : list A) : list A :=
  match l with
  | [] => [x]
  | y :: l' => if (key x <=? key y)%Z then x :: y :: l' else y :: insert_by key x l'
  end.

Definition sort_by {A : Type} (key : A → Z) (l : list A) : list A :=
  foldr (insert_by key) [] l.

(** The order a stable sort produces: ascending keys, equal keys in the
    order [pos] of the input. *)
Definition before {A : Type} (key : A → Z) (pos : A → A → Prop) (a b : A) : Prop :=
  (key a < key b)%Z ∨ (key a = key b ∧ pos a b).

(** ** What the run-time system leaves open

    Two orders in [update] are not fixed by the code.
    - [D.min(axis=1).argsort()] sorts with numpy's default kind, which is
      not stable: the result is a permutation of the row numbers that puts
      the keys in ascending order, and rows with equal keys come in an
      order that depends on the numpy build.
    - [for row in unused_rows] and [for col in unused_cols] iterate over
      the Python sets [set(range(n)) - used]: every element once, in the
      order of the hash table ([set(range(9)) - {0, 1, 2, 3, 4}] is
      iterated as 8, 5, 6, 7).
    [argsort ks] is the result of [ks.argsort()], and [range_minus n used]
    the order in which [set(range(n)) - used] is iterated.  [update] is
    defined for every run-time system that keeps these contracts, and
    what is proved of [update] holds for each of them. *)
Class Runtime := {
  argsort : list Z → list nat;
  range_minus : nat → gset nat → list nat;
  argsort_perm ks : argsort ks ≡ₚ seq 0 (length ks);
  argsort_ascending ks :
    StronglySorted (λ i j, (ks !!! i ≤ ks !!! j)%Z) (argsort ks);
  range_minus_perm n used :
    range_minus n used ≡ₚ filter (λ i, i ∉ used) (seq 0 n)
}.

(** Run-time systems that sort by insertion and iterate a set in a fixed
    arrangement of its ascending elements.  They are used in examples; no
    theorem depends on them. *)
Definition arranged_order (arrange : list nat → list nat)
    (arrange_perm : ∀ l, arrange l ≡ₚ l) : Runtime.
Proof.
  assert (Hins : ∀ (key : nat → Z) x l, insert_by key x l ≡ₚ x :: l).
  { intros key x l. induction l as [|y l IH]; simpl; [done|].
    destruct (key x <=? key y)%Z; [done|].
    rewrite IH. apply Permutation_swap. }
  assert (Hperm : ∀ (key : nat → Z) l, sort_by key l ≡ₚ l).
  { intros key l. induction l as [|x l IH]; [done|].
    unfold sort_by in *. simpl. by rewrite Hins, IH. }
  refine {| argsort := λ ks, sort_by (λ i, ks !!! i) (arrange (seq 0 (length ks)));
            range_minus := λ n used, arrange (filter (λ i, i ∉ used) (seq 0 n)) |}.
  - intros ks. by rewrite Hperm.
  - intros ks. generalize (arrange (seq 0 (length ks))). intros l.
    set (key := λ i : nat, ks !!! i).
    change (StronglySorted (λ i j, (key i ≤ key j)%Z) (sort_by key l)).
    induction l as [|x l IH]; [constructor|].
    unfold sort_by in *. simpl.
    generalize dependent (foldr (insert_by key) [] l). clear l. intros l Hl.
    induction Hl as [|y l Hl IH Hy]; simpl.
    + repeat constructor.
    + destruct (Z.leb_spec (key x) (key y)) as [Hle|Hgt].
      * constructor; [by constructor|]. constructor; [done|].
        eapply Forall_impl; [exact Hy|]. intros z Hz. simpl in *. lia.
      * constructor; [exact IH|]. rewrite Hins. constructor; [lia|done].
  - intros n used. apply arrange_perm.
Defined.

(** Equal keys in index order, sets in ascending order. *)
Definition stable_order : Runtime := arranged_order id (λ l, reflexivity l).

(** Equal keys in descending index order, sets in descending order. *)
Definition descending_order : Runtime := arranged_order reverse reverse_Permutation.

Definition entry (D : list (list Z)) (row col : nat) : Z :=
  (D !!! row) !!! col.

Record Matching := {
  m_tracker : FaceTracker;
  used_rows : gset nat;
  used_cols : gset nat
}.

(** A track after [o['centroid'] = c] and [o['bbox'] = b]. *)
Definition moved_to (c : Point) (b : BBox) (o : Track) : Track :=
  {| centroid := c; bbox := b; face_id := face_id o |}.

(** The writes of a match: lines 78 to 81 of [update]. *)
Definition write_match (object_ids : list nat)
    (input_centroids : list Point) (input_bboxes : list BBox)
    (t : FaceTracker) (rc : nat * nat) : FaceTracker :=
  let '(row, col) := rc in
  let object_id := object_ids !!! row in
  let t1 := set_objects t
    (Dict.alter (moved_to (input_centroids !!! col) (input_bboxes !!! col))
       object_id (objects t)) in
  set_disappeared t1 (Dict.store object_id 0 (disappeared t1)).

(** One iteration of [for (row, col) in zip(rows, cols)]. *)
Definition match_step (D : list (list Z)) (object_ids : list nat)
    (input_centroids : list Point) (input_bboxes : list BBox)
    (st : Matching) (rc : nat * nat) : Matching :=
  let '(row, col) := rc in
  if bool_decide (row ∈ used_rows st ∨ col ∈ used_cols st) then st
  else if (gate <? entry D row col)%Z then st
  else
    {| m_tracker :=
         write_match object_ids input_centroids input_bboxes (m_tracker st) rc;
       used_rows := {[row]} ∪ used_rows st;
       used_cols := {[col]} ∪ used_cols st |}.

(** [FaceTracker.update].  The mapping it returns is [objects] of the
    resulting state.  [rows] is what [argsort] returns, and [unused_rows]
    and [unused_cols] are the set differences of the source in the order
    in which the run-time system iterates them. *)
Definition update {rt : Runtime} (t : FaceTracker) (detections : list Detection)
    : result FaceTracker :=
  if decide (length detections = 0) then
    age_all (Dict.keys (disappeared t)) t
  else
    let input_centroids := map (λ det, center (det_bbox det)) detections in
    let input_bboxes := map det_bbox detections in
    if decide (length (objects t) = 0) then
      Ok (register_all t (zip input_centroids input_bboxes))
    else
      let object_ids := Dict.keys (objects t) in
      let object_centroids := map centroid (Dict.values (objects t)) in
      let D := cdist object_centroids input_centroids in
      let rows := argsort (map row_min D) in
      let cols := map (λ row, argmin (D !!! row)) rows in
      let st := fold_left (match_step D object_ids input_centroids input_bboxes)
                  (zip rows cols)
                  {| m_tracker := t; used_rows := ∅; used_cols := ∅ |} in
      let unused_rows := range_minus (length D) (used_rows st) in
      let unused_cols := range_minus (length input_centroids) (used_cols st) in
      do t1 <- age_all (map (λ row, object_ids !!! row) unused_rows) (m_tracker st) ;;
      Ok (register_all t1
            (map (λ col, (input_centroids !!! col, input_bboxes !!! col)) unused_cols)).

(** [FaceTracker.assign_face_id]: the map is written before the lookup in
    [self.objects] can raise. *)
Definition assign_face_id (t : FaceTracker) (object_id : nat) (fid : string)
    : result FaceTracker :=
  let t1 := set_face_id_map t (<[object_id := fid]> (face_id_map t)) in
  if Dict.mem object_id (objects t1) then
    Ok (set_objects t1
          (Dict.alter (λ o, {| centroid := centroid o; bbox := bbox o;
                               face_id := Some fid |}) object_id (objects t1)))
  else KeyError t1.

(** [FaceTracker.get_face_id] *)
Definition get_face_id (t : FaceTracker) (object_id : nat) : option string :=
  face_id_map t !! object_id.

(** A sequence of [update] calls, one detection list per frame. *)
Definition updates {rt : Runtime} (t : FaceTracker)
    (frames : list (list Detection)) : result FaceTracker :=
  for_each update frames t.

(** The ids present after an [update] that were not present before it:
    the ids that its [register] calls handed out. *)
Definition new_ids (t t' : FaceTracker) : list nat :=
  filter (λ k, k ∉ Dict.keys (objects t)) (Dict.keys (objects t')).

(** The ids handed out over a sequence of [update] calls, in order. *)
Fixpoint assigned_ids {rt : Runtime} (t : FaceTracker)
    (frames : list (list Detection)) : list nat :=
  match frames with
  | [] => []
  | dets :: frames' =>
      match update t dets with
      | Ok t' => new_ids t t' ++ assigned_ids t' frames'
      | KeyError _ => []
      end
  end.

(** The counter of a track, as [self.disappeared[k]] reads it. *)
Definition counter (t : FaceTracker) (k : nat) : nat :=
  default 0 (Dict.lookup k (disappeared t)).

(** The track that [register] stores. *)
Definition new_track (cb : Point * BBox) : Track :=
  {| centroid := cb.1; bbox := cb.2; face_id := None |}.

(** The invariant of the tracker: both dictionaries hold the same keys in
    the same order, no key twice (they are dictionaries), and every key is
    below the id counter. *)
Record tracker_inv (t : FaceTracker) : Prop := {
  inv_keys : Dict.keys (objects t) = Dict.keys (disappeared t);
  inv_nodup : NoDup (Dict.keys (objects t));
  inv_fresh : Forall (λ k, k < next_object_id t) (Dict.keys (objects t))
}.

(** Two tracker states used as examples. *)
Definition one_track : FaceTracker :=
  {| next_object_id := 1;
     objects := [(0, {| centroid := (10, 10)%Z; bbox := (0, 0, 20, 20)%Z;
                        face_id := None |})];
     disappeared := [(0, 2)]; max_disappeared := 2; face_id_map := ∅ |}.

Definition two_tracks : FaceTracker :=
  {| next_object_id := 2;
     objects := [(0, {| centroid := (0, 0)%Z; bbox := (-1, -1, 1, 1)%Z;
                        face_id := None |});
                 (1, {| centroid := (100, 100)%Z; bbox := (99, 99, 101, 101)%Z;
                        face_id := None |})];
     disappeared := [(0, 0); (1, 0)]; max_disappeared := 30; face_id_map := ∅ |}.

(** Two tracks at the same distance from the detection at (5, 0). *)
Definition tied_tracks : FaceTracker :=
  {| next_object_id := 2;
     objects := [(0, {| centroid := (0, 0)%Z; bbox := (-1, -1, 1, 1)%Z;
                        face_id := None |});
                 (1, {| centroid := (10, 0)%Z; bbox := (9, -1, 11, 1)%Z;
                        face_id := None |})];
     disappeared := [(0, 0); (1, 0)]; max_disappeared := 30; face_id_map := ∅ |}.

(** The (row, col) pairs that the matching loop of [update] accepts, in the
    order it accepts them: the decisions of [match_step] without its writes
    to the tracker. *)
Fixpoint matched_pairs (D : list (list Z)) (pairs : list (nat * nat))
    (rows_used cols_used : gset nat) : list (nat * nat) :=
  match pairs with
  | [] => []
  | (row, col) :: pairs' =>
      if bool_decide (row ∈ rows_used ∨ col ∈ cols_used) then
        matched_pairs D pairs' rows_used cols_used
      else if (gate <? entry D row col)%Z then
        matched_pairs D pairs' rows_used cols_used
      else
        (row, col) :: matched_pairs D pairs' ({[row]} ∪ rows_used) ({[col]} ∪ cols_used)
  end.

(** [zip(rows, cols)] of [update] for a distance matrix. *)
Definition row_order {rt : Runtime} (D : list (list Z)) : list (nat * nat) :=
  let rows := argsort (map row_min D) in
  zip rows (map (λ row, argmin (D !!! row)) rows).

Definition assignment {rt : Runtime} (D : list (list Z)) : list (nat * nat) :=
  matched_pairs D (row_order D) ∅ ∅.

(** What [update] computes from a tracker with tracks and a non-empty
    detection list before its loops run. *)
Definition input_centroids_of (detections : list Detection) : list Point :=
  map (λ det, center (det_bbox det)) detections.

Definition distances (t : FaceTracker) (detections : list Detection)
    : list (list Z) :=
  cdist (map centroid (Dict.values (objects t))) (input_centroids_of detections).

(** The pairs (row, column) that [update] matches: row [i] is the [i]-th
    track of [self.objects], column [j] the [j]-th detection. *)
Definition matches {rt : Runtime} (t : FaceTracker)
    (detections : list Detection) : list (nat * nat) :=
  assignment (distances t detections).

(** ** The global greedy matching of the design notes

    Follows the specification's words, to be compared with [assignment]:
    all (row, col, distance) candidates, sorted by distance ascending, each
    accepted when its row and its column are both still free.  The words do
    not say how candidates at the same distance are ordered:
    [global_greedy] takes the sorted list of candidates, and
    [sort_candidates] is one way to sort them, which keeps candidates at
    the same distance in row-major order. *)









Definition best (D : list (list Z)) (row : nat) : nat * nat * Z :=
  (row, argmin (D !!! row), row_min (D !!! row)).

Definition is_best (D : list (list Z)) (x : nat * nat * Z) : Prop :=
  x.1.2 = argmin (D !!! x.1.1).

#[global] Instance is_best_dec D x : Decision (is_best D x).
Proof. unfold is_best. apply _. Defined.


(** ** main.py: [FaceTrackingSystem.process_frame] *)

Inductive event_type := entry_event | exit_event.

(** The calls made to the [Database], with what each returned. *)
Inductive db_call :=
| RegisterFace (fid : string) (ok : bool)
| LogEvent (fid : string) (ty : event_type) (image_path : option string) (ok : bool).

(** [f"FACE_{n:04d}"] *)
Fixpoint zeros (n : nat) : string :=
  match n with
  | 0 => EmptyString
  | S n' => "0" +:+ zeros n'
  end.

Definition face_label (n : nat) : string :=
  let digits := NilZero.string_of_uint (Nat.to_uint n) in
  "FACE_" +:+ zeros (4 - String.length digits) +:+ digits.

Section orchestrator.
Context {Embedding : Type} {rt : Runtime}.

(** [FaceRecognizer.find_match]: a function of the embedding and of the
    known embeddings (cosine similarities on floats, not modelled). *)
Variable find_match : Embedding → list (string * Embedding) → option string.

(** A frame, with what the collaborators answer while it is processed:
    the detector, the recognizer, the image writer and the database. *)
Record Frame := {
  detect_faces : list Detection;
  get_embedding : BBox → option Embedding;
  save_face_image : BBox → string → event_type → option string;
  register_face : string → bool;
  log_event : string → event_type → option string → bool
}.

Record System := {
  tracker : FaceTracker;
  known_embeddings : list (string * Embedding);
  frame_count : nat;
  skip_frames : nat;
  tracked_entries : gset string;
  tracked_exits : gset string;
  next_face_id : nat;
  database : list db_call
}.

Definition set_tracker (s : System) (t : FaceTracker) : System :=
  {| tracker := t; known_embeddings := known_embeddings s;
     frame_count := frame_count s; skip_frames := skip_frames s;
     tracked_entries := tracked_entries s; tracked_exits := tracked_exits s;
     next_face_id := next_face_id s; database := database s |}.

Definition set_frame_count (s : System) (n : nat) : System :=
  {| tracker := tracker s; known_embeddings := known_embeddings s;
     frame_count := n; skip_frames := skip_frames s;
     tracked_entries := tracked_entries s; tracked_exits := tracked_exits s;
     next_face_id := next_face_id s; database := database s |}.

(** [FaceTrackingSystem.__init__], after the configuration and the known
    embeddings have been read. *)
Definition init_system (max_disappeared skip_frames : nat)
    (known : list (string * Embedding)) : System :=
  {| tracker := init max_disappeared; known_embeddings := known;
     frame_count := 0; skip_frames := skip_frames;
     tracked_entries := ∅; tracked_exits := ∅;
     next_face_id := length known + 1; database := [] |}.

(** The new-face branch: mint a label, register it, remember it. *)
Definition new_face (f : Frame) (s : System) (embedding : Embedding)
    : string * System :=
  let fid := face_label (next_face_id s) in
  (fid,
   {| tracker := tracker s;
      known_embeddings := Dict.store fid embedding (known_embeddings s);
      frame_count := frame_count s; skip_frames := skip_frames s;
      tracked_entries := tracked_entries s; tracked_exits := tracked_exits s;
      next_face_id := next_face_id s + 1;
      database := database s ++ [RegisterFace fid (register_face f fid)] |}).

(** [self.database.log_event(...)]; then [self.tracked_entries.add(face_id)]
    or [self.tracked_exits.add(face_id)]. *)
Definition log_and_mark (f : Frame) (s : System) (fid : string)
    (ty : event_type) (b : BBox) : System :=
  let image_path := save_face_image f b fid ty in
  {| tracker := tracker s; known_embeddings := known_embeddings s;
     frame_count := frame_count s; skip_frames := skip_frames s;
     tracked_entries :=
       match ty with
       | entry_event => {[fid]} ∪ tracked_entries s
       | exit_event => tracked_entries s
       end;
     tracked_exits :=
       match ty with
       | entry_event => tracked_exits s
       | exit_event => {[fid]} ∪ tracked_exits s
       end;
     next_face_id := next_face_id s;
     database :=
       database s ++ [LogEvent fid ty image_path (log_event f fid ty image_path)] |}.

(** The body of [for obj_id, obj_data in tracked_objects.items()]. *)
Definition resolve (f : Frame) (detections : list Detection)
    (s : System) (item : nat * Track) : result System :=
  let '(obj_id, obj_data) := item in
  if bool_decide (face_id obj_data = None ∧ 0 < length detections) then
    match get_embedding f (bbox obj_data) with
    | None => Ok s
    | Some embedding =>
        let '(fid, s1) :=
          match find_match embedding (known_embeddings s) with
          | Some matched_id => (matched_id, s)
          | None => new_face f s embedding
          end in
        match assign_face_id (tracker s1) obj_id fid with
        | KeyError t' => KeyError (set_tracker s1 t')
        | Ok t' =>
            let s2 := set_tracker s1 t' in
            if bool_decide (fid ∈ tracked_entries s2) then Ok s2
            else Ok (log_and_mark f s2 fid entry_event (bbox obj_data))
        end
    end
  else Ok s.

(** [if obj_data['face_id']]: [None] and the empty string are false. *)
Definition truthy (fid : option string) : option string :=
  match fid with
  | Some s => if decide (s = EmptyString) then None else Some s
  | None => None
  end.

Definition current_face_ids (tracked_objects : list (nat * Track)) : gset string :=
  list_to_set (omap (λ o, truthy (face_id o)) (Dict.values tracked_objects)).

(** The body of [for face_id in exited_faces]: the first track that
    carries [face_id], if any, gives the bounding box; without one nothing
    is logged and nothing is marked. *)
Definition exit_one (f : Frame) (s : System) (fid : string) : System :=
  match List.find (λ o, bool_decide (face_id o = Some fid))
          (Dict.values (objects (tracker s))) with
  | Some obj_data => log_and_mark f s fid exit_event (bbox obj_data)
  | None => s
  end.

(** [process_frame]; the tracked objects it returns are [objects] of the
    tracker of the resulting state.  [exited_faces] is a Python set of
    strings, which is iterated in the order of the hash table; the model
    iterates it in the order of [elements].  The outcome of the loop is the
    same for every order (lemma [exit_loop_empty_identity]). *)
Definition process_frame (s : System) (f : Frame) : result System :=
  let s0 := set_frame_count s (frame_count s + 1) in
  let detections :=
    if decide (frame_count s0 mod (skip_frames s0 + 1) = 0)
    then detect_faces f else [] in
  match update (tracker s0) detections with
  | KeyError t' => KeyError (set_tracker s0 t')
  | Ok t' =>
      let s1 := set_tracker s0 t' in
      do s2 <- for_each (resolve f detections) (objects t') s1 ;;
      let exited_faces :=
        tracked_entries s2 ∖ current_face_ids (objects (tracker s2))
                        ∖ tracked_exits s2 in
      Ok (fold_left (exit_one f) (elements exited_faces) s2)
  end.

(** [run]: frames are processed one at a time; an exception ends the run. *)
Fixpoint run (s : System) (frames : list Frame) : result System :=
  match frames with
  | [] => Ok s
  | f :: frames' => do s1 <- process_frame s f ;; run s1 frames'
  end.
End orchestrator.

(** The identities of the entry events and of the exit events among
    database calls. *)
Definition entry_ids (calls : list db_call) : list string :=
  omap (λ c, match c with
             | LogEvent fid entry_event _ _ => Some fid
             | _ => None
             end) calls.

Definition exit_ids (calls : list db_call) : list string :=
  omap (λ c, match c with
             | LogEvent fid exit_event _ _ => Some fid
             | _ => None
             end) calls.

(** How the part of the orchestrator state that the events depend on moves
    from [s] to [s'] while the database calls [calls] are made: the calls
    are appended to the database, the entered set grows by the identities
    of the entry events, each of which is new and logged once, and the
    exited set grows by the identities of the exit events. *)
Definition grows {Embedding : Type} (s s' : @System Embedding)
    (calls : list db_call) : Prop :=
  database s' = database s ++ calls ∧
  tracked_entries s' = list_to_set (entry_ids calls) ∪ tracked_entries s ∧
  tracked_exits s' = list_to_set (exit_ids calls) ∪ tracked_exits s ∧
  NoDup (entry_ids calls) ∧
  (∀ fid, fid ∈ entry_ids calls → fid ∉ tracked_entries s).

(** ** A run used as an example

    One face is detected in the first frame and recognised as new; the
    detector finds nothing in the next two frames.  The embeddings are
    opaque here, no known face matches, and every write to the database
    fails or succeeds as [db_ok] says. *)
Definition no_match (e : unit) (known : list (string * unit)) : option string :=
  None.

Definition example_frame (detections : list Detection) (db_ok : bool)
    : @Frame unit :=
  {| detect_faces := detections;
     get_embedding := λ _, Some tt;
     save_face_image := λ _ _ _, Some "face.jpg";
     register_face := λ _, db_ok;
     log_event := λ _ _ _, db_ok |}.

Definition face_detection : Detection := {| det_bbox := (0, 0, 20, 20)%Z |}.

Definition example_system : @System unit := init_system 1 0 [].

(** The face enters in the first frame and then stays away for
    [max_disappeared + 1 = 2] frames. *)
Definition absence_frames : list (@Frame unit) :=
  [example_frame [face_detection] true; example_frame [] true;
   example_frame [] true].

Definition absence_run {rt : Runtime} : result (@System unit) :=
  run no_match example_system absence_frames.

(** ** Further notions about the tracker and the orchestrator *)

(** [face_id_map] and the [face_id] fields of the tracks tell the same:
    [get_face_id] returns the identity that the track carries, and nothing
    for an id without a track. *)
Definition ids_consistent (t : FaceTracker) : Prop :=
  ∀ k, face_id_map t !! k = Dict.lookup k (objects t) ≫= face_id.

(** Every track of [t'] either was a track of [t] with the same identity
    or is new since [t] and has no identity. *)
Definition identities_kept (t t' : FaceTracker) : Prop :=
  ∀ k o', Dict.lookup k (objects t') = Some o' →
    (∃ o, Dict.lookup k (objects t) = Some o ∧ face_id o' = face_id o) ∨
    (next_object_id t ≤ k ∧ face_id o' = None).

(** Every identity carried by a track is in the entered set. *)
Definition identities_entered {Embedding : Type} (s : @System Embedding) : Prop :=
  ∀ k o fid, Dict.lookup k (objects (tracker s)) = Some o →
    face_id o = Some fid → fid ∈ tracked_entries s.

(** The invariant of the orchestrator. *)
Definition system_inv {Embedding : Type} (s : @System Embedding) : Prop :=
  tracker_inv (tracker s) ∧ ids_consistent (tracker s) ∧ identities_entered s.

(** The detection list that [process_frame] hands to the tracker. *)
Definition frame_detections {Embedding : Type} (s : @System Embedding)
    (f : @Frame Embedding) : list Detection :=
  if decide ((frame_count s + 1) mod (skip_frames s + 1) = 0)
  then detect_faces f else [].

(** A recorded database call carries what the database answered in
    frame [f]. *)
Definition answered {Embedding : Type} (f : @Frame Embedding) (c : db_call) : Prop :=
  match c with
  | RegisterFace fid ok => ok = register_face f fid
  | LogEvent fid ty image_path ok => ok = log_event f fid ty image_path
  end.

(** The identities of the [register_face] calls among database calls. *)
Definition registered_ids (calls : list db_call) : list string :=
  omap (λ c, match c with
             | RegisterFace fid _ => Some fid
             | _ => None
             end) calls.

(** Every known identity is a label minted from a number below
    [next_face_id]. *)
Definition labels_below {Embedding : Type} (s : @System Embedding) : Prop :=
  ∀ fid, fid ∈ Dict.keys (known_embeddings s) →
    ∃ i, i < next_face_id s ∧ fid = face_label i.

(** The number a label was formatted from: the decimal digits after the
    prefix, leading zeros included. *)
Fixpoint strip_prefix (prefix s : string) : option string :=
  match prefix, s with
  | EmptyString, _ => Some s
  | String a prefix', String b s' =>
      if decide (a = b) then strip_prefix prefix' s' else None
  | String _ _, EmptyString => None
  end.

Definition label_number (label : string) : option nat :=
  digits ← strip_prefix "FACE_" label;
  Nat.of_uint <$> NilEmpty.uint_of_string digits.

(** ** The recognizer: [FaceRecognizer.compare_embeddings] and
    [FaceRecognizer.find_match]

    Similarities are floats.  The code compares them with [>] only, so the
    model is parametric in the type [F] of the similarities, in the
    comparison [gt], in the values [zero] (the literal [0.0]) and
    [threshold] ([self.similarity_threshold]), and in [cosine], the
    quotient that [compare_embeddings] computes for two embeddings. *)
Section recognizer.
Context {Embedding F : Type}.
Variable gt : F → F → bool.
Variables zero threshold : F.
Variable cosine : Embedding → Embedding → F.

Definition compare_embeddings (emb1 emb2 : option Embedding) : F :=
  match emb1, emb2 with
  | Some e1, Some e2 => cosine e1 e2
  | _, _ => zero
  end.

(** The body of [for face_id, known_emb in known_embeddings.items()];
    the state is [(best_match_id, best_similarity)]. *)
Definition find_match_step (embedding : Embedding) (best : option string * F)
    (item : string * Embedding) : option string * F :=
  let similarity := compare_embeddings (Some embedding) (Some item.2) in
  if gt similarity best.2 && gt similarity threshold
  then (Some item.1, similarity) else best.

(** [find_match], with the pair it returns. *)
Definition find_match_similarity (embedding : option Embedding)
    (known_embeddings : list (string * Embedding)) : option string * F :=
  match embedding with
  | None => (None, zero)
  | Some e => fold_left (find_match_step e) known_embeddings (None, zero)
  end.

(** [matched_id, similarity = self.recognizer.find_match(embedding, ...)]
    as [process_frame] uses it: the embedding is not [None] there and only
    [matched_id] is branched on. *)
Definition recognizer_find_match (embedding : Embedding)
    (known_embeddings : list (string * Embedding)) : option string :=
  (find_match_similarity (Some embedding) known_embeddings).1.
End recognizer.

(** An integer instance of the recognizer, for examples: embeddings are
    integers, the similarity of two of them is their product, and the
    threshold is 5. *)
Definition example_find_match : Z → list (string * Z) → option string :=
  recognizer_find_match Z.gtb 0%Z 5%Z Z.mul.

(** An orchestrator state with one track, used as an example: the detector
    runs on every fourth frame. *)
Definition tracking_system : @System unit :=
  set_tracker (init_system 2 3 []) one_track.

(** How the label counter and the known embeddings move from [s] to [s']
    while the database calls [calls] are made: the registered identities
    are the labels of the numbers from the old counter up to the new one,
    and, when every known identity has a label of a smaller number, they
    are appended to the known identities. *)
Definition registers {Embedding : Type} (s s' : @System Embedding)
    (calls : list db_call) : Prop :=
  database s' = database s ++ calls ∧
  next_face_id s ≤ next_face_id s' ∧
  registered_ids calls =
    face_label <$> seq (next_face_id s) (next_face_id s' - next_face_id s) ∧
  (labels_below s →
     labels_below s' ∧
     Dict.keys (known_embeddings s') =
       Dict.keys (known_embeddings s) ++ registered_ids calls).

(** A frame whose faces all have the embedding [e], and whose database
    calls succeed. *)
Definition integer_frame (detections : list Detection) (e : Z) : @Frame Z :=
  {| detect_faces := detections;
     get_embedding := λ _, Some e;
     save_face_image := λ _ _ _, Some "face.jpg";
     register_face := λ _, true;
     log_event := λ _ _ _, true |}.

(** An orchestrator state without tracks in which two identities are
    entered, used as an example. *)
Definition two_entered : @System unit :=
  {| tracker := init 1; known_embeddings := []; frame_count := 1;
     skip_frames := 0; tracked_entries := {["FACE_0001"; "FACE_0002"]};
     tracked_exits := ∅; next_face_id := 3; database := [] |}.
Module DictFacts.
Section facts.
Context {V : Type}.
Implicit Types (d : list (nat * V)) (k : nat) (v : V).

Lemma lookup_None k d : Dict.lookup k d = None ↔ k ∉ Dict.keys d.
Proof.
  unfold Dict.keys. induction d as [|[k' v'] d IH]; simpl.
  - split; [intros _; apply not_elem_of_nil | done].
  - case_decide as Hk; subst.
    + split; [done | intros H; exfalso; apply H; left].
    + rewrite IH, not_elem_of_cons. naive_solver.
Qed.

Lemma lookup_is_Some k d : is_Some (Dict.lookup k d) ↔ k ∈ Dict.keys d.
Proof.
  rewrite <- not_eq_None_Some, lookup_None.
  split; [apply dec_stable | auto].
Qed.

Lemma lookup_elem_of k v d : Dict.lookup k d = Some v → (k, v) ∈ d.
Proof.
  induction d as [|[k' v'] d IH]; simpl; [done|].
  case_decide; subst.
  - intros [= ->]. left.
  - intros. right. auto.
Qed.

Lemma elem_of_lookup k v d :
  NoDup (Dict.keys d) → (k, v) ∈ d → Dict.lookup k d = Some v.
Proof.
  unfold Dict.keys. induction d as [|[k' v'] d IH]; simpl.
  - intros _ H. by apply elem_of_nil in H.
  - intros [Hnotin Hnd]%NoDup_cons [Heq | Hin]%elem_of_cons.
    + injection Heq as -> ->. by rewrite decide_True.
    + case_decide; subst; [|auto].
      exfalso. apply Hnotin. apply (list_elem_of_fmap_2 fst) in Hin. done.
Qed.

Lemma mem_true k d : Dict.mem k d = true ↔ k ∈ Dict.keys d.
Proof. unfold Dict.mem. rewrite bool_decide_eq_true. done. Qed.

Lemma lookup_store_eq k v d : Dict.lookup k (Dict.store k v d) = Some v.
Proof.
  induction d as [|[k' v'] d IH]; simpl.
  - by rewrite decide_True.
  - case_decide; simpl; [by rewrite decide_True | by rewrite decide_False].
Qed.

Lemma lookup_store_ne k k' v d :
  k ≠ k' → Dict.lookup k' (Dict.store k v d) = Dict.lookup k' d.
Proof.
  intros Hne. induction d as [|[k'' v'] d IH]; simpl.
  - by rewrite decide_False.
  - case_decide; simpl; subst.
    + by rewrite !decide_False.
    + case_decide; done.
Qed.

Lemma keys_store_in k v d :
  k ∈ Dict.keys d → Dict.keys (Dict.store k v d) = Dict.keys d.
Proof.
  unfold Dict.keys. induction d as [|[k' v'] d IH]; simpl.
  - intros H. by apply elem_of_nil in H.
  - intros Hin. case_decide; simpl; subst; [done|].
    f_equal. apply IH. apply elem_of_cons in Hin. naive_solver.
Qed.

Lemma store_notin k v d :
  k ∉ Dict.keys d → Dict.store k v d = d ++ [(k, v)].
Proof.
  unfold Dict.keys. induction d as [|[k' v'] d IH]; simpl; [done|].
  intros [Hne Hnotin]%not_elem_of_cons.
  rewrite decide_False by done. f_equal. auto.
Qed.

Lemma keys_store_notin k v d :
  k ∉ Dict.keys d → Dict.keys (Dict.store k v d) = Dict.keys d ++ [k].
Proof.
  intros H. rewrite (store_notin _ _ _ H). unfold Dict.keys.
  by rewrite fmap_app.
Qed.

Lemma keys_remove k d :
  Dict.keys (Dict.remove k d) = filter (λ k', k' ≠ k) (Dict.keys d).
Proof.
  unfold Dict.keys, Dict.remove. induction d as [|[k' v'] d IH]; [done|].
  destruct (decide (k' = k)) as [->|Hne].
  - rewrite filter_cons_False by (simpl; tauto).
    rewrite fmap_cons, filter_cons_False by (simpl; tauto). done.
  - rewrite filter_cons_True by done.
    rewrite !fmap_cons, filter_cons_True by done. by rewrite IH.
Qed.

Lemma lookup_remove_eq k d : Dict.lookup k (Dict.remove k d) = None.
Proof.
  apply lookup_None. rewrite keys_remove, list_elem_of_filter. naive_solver.
Qed.

Lemma lookup_remove_ne k k' d :
  k ≠ k' → Dict.lookup k' (Dict.remove k d) = Dict.lookup k' d.
Proof.
  intros Hne. unfold Dict.remove. induction d as [|[k'' v'] d IH]; [done|].
  destruct (decide (k'' = k)) as [->|Hne'].
  - rewrite filter_cons_False by (simpl; tauto). simpl.
    by rewrite decide_False.
  - rewrite filter_cons_True by done. simpl. by rewrite IH.
Qed.

Lemma keys_alter (f : V → V) k d :
  Dict.keys (Dict.alter f k d) = Dict.keys d.
Proof.
  unfold Dict.keys. induction d as [|[k' v'] d IH]; simpl; [done|].
  case_decide; simpl; [done | by f_equal].
Qed.

Lemma lookup_alter_eq (f : V → V) k d :
  Dict.lookup k (Dict.alter f k d) = f <$> Dict.lookup k d.
Proof.
  induction d as [|[k' v'] d IH]; simpl; [done|].
  case_decide; simpl; subst.
  - by rewrite decide_True.
  - by rewrite decide_False.
Qed.

Lemma lookup_alter_ne (f : V → V) k k' d :
  k ≠ k' → Dict.lookup k' (Dict.alter f k d) = Dict.lookup k' d.
Proof.
  intros Hne. induction d as [|[k'' v'] d IH]; simpl; [done|].
  case_decide; simpl; subst.
  - by rewrite !decide_False.
  - case_decide; done.
Qed.
End facts.
End DictFacts.
Import DictFacts.

Lemma remove_store {V : Type} (k : nat) (v : V) (d : list (nat * V)) :
  Dict.remove k (Dict.store k v d) = Dict.remove k d.
Proof.
  unfold Dict.remove. induction d as [|[k' v'] d IH]; simpl.
  - rewrite filter_cons_False by (simpl; tauto). done.
  - case_decide; subst.
    + rewrite !filter_cons_False by (simpl; tauto). done.
    + rewrite !filter_cons_True by (simpl; congruence). by rewrite IH.
Qed.

Lemma init_inv m : tracker_inv (init m).
Proof. split; simpl; [done | constructor | constructor]. Qed.

Lemma register_inv t c b : tracker_inv t → tracker_inv (register t c b).1.
Proof.
  intros [Hk Hnd Hfr].
  assert (Hnew : next_object_id t ∉ Dict.keys (objects t)).
  { intros Hin. rewrite Forall_forall in Hfr. apply Hfr in Hin. lia. }
  split; simpl.
  - rewrite !keys_store_notin; [by rewrite Hk | by rewrite <- Hk | done].
  - rewrite keys_store_notin by done. apply NoDup_app. split_and!; [done | | apply NoDup_singleton].
    intros k Hin [->|[]%elem_of_nil]%elem_of_cons. done.
  - rewrite keys_store_notin by done. apply Forall_app. split.
    + eapply Forall_impl; [exact Hfr | simpl; lia].
    + repeat constructor.
Qed.

Lemma deregister_absent t k :
  k ∉ Dict.keys (objects t) → deregister t k = KeyError t.
Proof.
  intros H. unfold deregister.
  destruct (Dict.mem k (objects t)) eqn:E; [|done].
  apply mem_true in E. done.
Qed.

Lemma Forall_filter {A : Type} (P Q : A → Prop) `{∀ x, Decision (Q x)} (l : list A) :
  Forall P l → Forall P (filter Q l).
Proof.
  rewrite !Forall_forall. intros HP x [_ Hx]%list_elem_of_filter. auto.
Qed.

Lemma deregister_present t k :
  tracker_inv t → k ∈ Dict.keys (objects t) →
  ∃ t', deregister t k = Ok t' ∧ tracker_inv t' ∧
        objects t' = Dict.remove k (objects t) ∧
        disappeared t' = Dict.remove k (disappeared t) ∧
        next_object_id t' = next_object_id t ∧
        max_disappeared t' = max_disappeared t.
Proof.
  intros [Hk Hnd Hfr] Hin. unfold deregister.
  rewrite (proj2 (mem_true k (objects t)) Hin). simpl.
  rewrite (proj2 (mem_true k (disappeared t))) by (by rewrite <- Hk).
  eexists. split; [done|]. split_and!; simpl; try done.
  split; simpl.
  - by rewrite !keys_remove, Hk.
  - rewrite keys_remove. by apply NoDup_filter.
  - rewrite keys_remove. by apply Forall_filter.
Qed.

Lemma age_present t k :
  tracker_inv t → k ∈ Dict.keys (objects t) →
  ∃ t', age t k = Ok t' ∧ tracker_inv t' ∧
        next_object_id t' = next_object_id t ∧
        max_disappeared t' = max_disappeared t ∧
        if decide (max_disappeared t < counter t k + 1) then
          objects t' = Dict.remove k (objects t) ∧
          disappeared t' = Dict.remove k (disappeared t)
        else
          objects t' = objects t ∧
          disappeared t' = Dict.store k (counter t k + 1) (disappeared t).
Proof.
  intros Hinv Hin. unfold age. fold (counter t k).
  set (t1 := set_disappeared t _).
  assert (Hinv1 : tracker_inv t1).
  { destruct Hinv as [Hk Hnd Hfr]. split; simpl; try done.
    rewrite keys_store_in; [done | by rewrite <- Hk]. }
  simpl. case_decide as Hc.
  - destruct (deregister_present t1 k Hinv1 Hin) as (t' & -> & ? & Ho & Hd & ? & ?).
    exists t'. split_and!; try done.
    rewrite Hd. simpl. apply remove_store.
  - exists t1. split_and!; done.
Qed.
Lemma age_other t t' k k' :
  k ≠ k' →
  (if decide (max_disappeared t < counter t k + 1) then
     objects t' = Dict.remove k (objects t) ∧
     disappeared t' = Dict.remove k (disappeared t)
   else
     objects t' = objects t ∧
     disappeared t' = Dict.store k (counter t k + 1) (disappeared t)) →
  Dict.lookup k' (objects t') = Dict.lookup k' (objects t) ∧
  Dict.lookup k' (disappeared t') = Dict.lookup k' (disappeared t).
Proof.
  intros Hne H. case_decide; destruct H as [-> ->].
  - by rewrite !lookup_remove_ne.
  - by rewrite lookup_store_ne.
Qed.

Lemma age_all_cons k ids t :
  age_all (k :: ids) t = bind (age t k) (age_all ids).
Proof. reflexivity. Qed.

Lemma age_all_spec ids : ∀ t,
  tracker_inv t → NoDup ids → ids ⊆ Dict.keys (objects t) →
  ∃ t', age_all ids t = Ok t' ∧ tracker_inv t' ∧
    next_object_id t' = next_object_id t ∧
    max_disappeared t' = max_disappeared t ∧
    (∀ k, Dict.lookup k (objects t') =
          if decide (k ∈ ids ∧ max_disappeared t < counter t k + 1) then None
          else Dict.lookup k (objects t)) ∧
    (∀ k, Dict.lookup k (disappeared t') =
          if decide (k ∈ ids) then
            if decide (max_disappeared t < counter t k + 1) then None
            else Some (counter t k + 1)
          else Dict.lookup k (disappeared t)).
Proof.
  induction ids as [|k0 ids IH]; intros t Hinv Hnd Hsub.
  - exists t. split_and!; done.
  - apply NoDup_cons in Hnd as [Hk0 Hnd].
    assert (Hin0 : k0 ∈ Dict.keys (objects t)) by (apply Hsub; left).
    destruct (age_present t k0 Hinv Hin0) as (t1 & Hage & Hinv1 & Hn1 & Hm1 & Hcase).
    assert (Hsub1 : ids ⊆ Dict.keys (objects t1)).
    { intros x Hx. apply lookup_is_Some.
      assert (k0 ≠ x) by (intros ->; done).
      rewrite (proj1 (age_other t t1 k0 x ltac:(done) Hcase)).
      apply lookup_is_Some, Hsub. by right. }
    destruct (IH t1 Hinv1 Hnd Hsub1) as (t' & Hall & Hinv' & Hn' & Hm' & Ho & Hd).
    exists t'. rewrite age_all_cons, Hage. simpl.
    split_and!; try done; try congruence.
    + intros k. rewrite Ho, Hm1. destruct (decide (k = k0)) as [->|Hne].
      * rewrite (decide_False (P := k0 ∈ ids ∧ _)) by tauto.
        destruct (decide (max_disappeared t < counter t k0 + 1)) as [Hexp|Hexp].
        -- rewrite decide_True by (split; [left | done]).
           destruct Hcase as [-> _]. apply lookup_remove_eq.
        -- rewrite decide_False by tauto. by destruct Hcase as [-> _].
      * destruct (age_other t t1 k0 k ltac:(done) Hcase) as [Eo Ed].
        unfold counter. rewrite Ed, Eo. fold (counter t k).
        apply decide_ext. rewrite elem_of_cons. tauto.
    + intros k. rewrite Hd, Hm1. destruct (decide (k = k0)) as [->|Hne].
      * rewrite (decide_False (P := k0 ∈ ids)) by done.
        rewrite (decide_True (P := k0 ∈ k0 :: ids)) by left.
        destruct (decide (max_disappeared t < counter t k0 + 1)) as [Hexp|Hexp].
        -- destruct Hcase as [_ ->]. apply lookup_remove_eq.
        -- destruct Hcase as [_ ->]. apply lookup_store_eq.
      * destruct (age_other t t1 k0 k ltac:(done) Hcase) as [Eo Ed].
        unfold counter. rewrite Ed. fold (counter t k).
        destruct (decide (k ∈ ids)).
        -- rewrite (decide_True (P := k ∈ k0 :: ids)) by (by right). done.
        -- rewrite (decide_False (P := k ∈ k0 :: ids)); [done|].
           rewrite elem_of_cons. tauto.
Qed.
Lemma register_all_next new : ∀ t,
  next_object_id (register_all t new) = next_object_id t + length new ∧
  max_disappeared (register_all t new) = max_disappeared t ∧
  face_id_map (register_all t new) = face_id_map t.
Proof.
  induction new as [|[c b] new IH]; intros t; cbn [register_all length].
  - split_and!; [lia | done | done].
  - destruct (IH (register t c b).1) as (-> & -> & ->). simpl.
    split_and!; [lia | done | done].
Qed.

Lemma register_all_objects new : ∀ t,
  Forall (λ k, k < next_object_id t) (Dict.keys (objects t)) →
  objects (register_all t new) =
    objects t ++ zip_with (λ k cb, (k, new_track cb))
                   (seq (next_object_id t) (length new)) new.
Proof.
  induction new as [|[c b] new IH]; intros t Hfr; cbn [register_all length].
  - simpl. by rewrite app_nil_r.
  - assert (Hnew : next_object_id t ∉ Dict.keys (objects t)).
    { intros Hin. rewrite Forall_forall in Hfr. apply Hfr in Hin. lia. }
    rewrite IH; simpl.
    + rewrite store_notin by done. by rewrite <- app_assoc.
    + rewrite keys_store_notin by done. apply Forall_app. split.
      * eapply Forall_impl; [exact Hfr | simpl; lia].
      * repeat constructor.
Qed.

Lemma register_all_disappeared new : ∀ t,
  Forall (λ k, k < next_object_id t) (Dict.keys (disappeared t)) →
  disappeared (register_all t new) =
    disappeared t ++ ((λ k, (k, 0)) <$> seq (next_object_id t) (length new)).
Proof.
  induction new as [|[c b] new IH]; intros t Hfr; cbn [register_all length].
  - simpl. by rewrite app_nil_r.
  - assert (Hnew : next_object_id t ∉ Dict.keys (disappeared t)).
    { intros Hin. rewrite Forall_forall in Hfr. apply Hfr in Hin. lia. }
    rewrite IH; simpl.
    + rewrite store_notin by done. by rewrite <- app_assoc.
    + rewrite keys_store_notin by done. apply Forall_app. split.
      * eapply Forall_impl; [exact Hfr | simpl; lia].
      * repeat constructor.
Qed.

Lemma register_all_inv new : ∀ t,
  tracker_inv t → tracker_inv (register_all t new).
Proof.
  induction new as [|[c b] new IH]; intros t Hinv; cbn [register_all]; [done|].
  apply IH. by apply register_inv.
Qed.

Lemma keys_zip_with_seq {A V : Type} (g : A → V) (n : nat) (l : list A) :
  Dict.keys (zip_with (λ k x, (k, g x)) (seq n (length l)) l) = seq n (length l).
Proof.
  unfold Dict.keys. revert n. induction l as [|x l IH]; intros n; simpl; [done|].
  by rewrite IH.
Qed.

Lemma lookup_app_dict {V : Type} (k : nat) (d1 d2 : list (nat * V)) :
  Dict.lookup k (d1 ++ d2) =
    match Dict.lookup k d1 with Some v => Some v | None => Dict.lookup k d2 end.
Proof.
  induction d1 as [|[k' v'] d1 IH]; simpl; [done|]. by case_decide.
Qed.

Lemma lookup_zip_with_seq {A V : Type} (g : A → V) (l : list A) : ∀ n i x,
  l !! i = Some x →
  Dict.lookup (n + i) (zip_with (λ k x, (k, g x)) (seq n (length l)) l) = Some (g x).
Proof.
  induction l as [|y l IH]; intros n i x Hi; [done|].
  destruct i as [|i]; simpl in *.
  - injection Hi as ->. rewrite decide_True by lia. done.
  - rewrite decide_False by lia. replace (n + S i) with (S n + i) by lia. auto.
Qed.
Section update_empty.
Context {rt : Runtime}.

Lemma update_empty t : update t [] = age_all (Dict.keys (disappeared t)) t.
Proof. reflexivity. Qed.

Lemma update_empty_spec t :
  tracker_inv t →
  ∃ t', update t [] = Ok t' ∧ tracker_inv t' ∧
    next_object_id t' = next_object_id t ∧
    max_disappeared t' = max_disappeared t ∧
    (∀ k, Dict.lookup k (objects t') =
          if decide (k ∈ Dict.keys (objects t) ∧
                     max_disappeared t < counter t k + 1) then None
          else Dict.lookup k (objects t)) ∧
    (∀ k, Dict.lookup k (disappeared t') =
          if decide (k ∈ Dict.keys (objects t)) then
            if decide (max_disappeared t < counter t k + 1) then None
            else Some (counter t k + 1)
          else None).
Proof.
  intros Hinv. rewrite update_empty.
  destruct Hinv as [Hk Hnd Hfr]. rewrite <- Hk.
  destruct (age_all_spec (Dict.keys (objects t)) t) as (t' & -> & ? & ? & ? & Ho & Hd);
    [by split | done | done |].
  exists t'. split_and!; try done.
  intros k. rewrite Hd. case_decide as Hin; [done|].
  apply lookup_None. by rewrite <- Hk.
Qed.

Lemma updates_cons t f frames :
  updates t (f :: frames) = bind (update t f) (λ t1, updates t1 frames).
Proof. reflexivity. Qed.

Lemma counter_present t k c :
  Dict.lookup k (disappeared t) = Some c → counter t k = c.
Proof. unfold counter. by intros ->. Qed.

Lemma empty_updates_spec N : ∀ t,
  tracker_inv t →
  ∃ t', updates t (replicate N []) = Ok t' ∧ tracker_inv t' ∧
    max_disappeared t' = max_disappeared t ∧
    ∀ k, Dict.lookup k (objects t') =
         if decide (0 < N ∧ max_disappeared t < counter t k + N) then None
         else Dict.lookup k (objects t).
Proof.
  induction N as [|N IH]; intros t Hinv.
  - exists t. split_and!; done.
  - destruct (update_empty_spec t Hinv) as (t1 & Hup & Hinv1 & _ & Hm1 & Ho1 & Hd1).
    destruct (IH t1 Hinv1) as (t' & Hups & Hinv' & Hm' & Ho').
    exists t'. simpl. rewrite updates_cons, Hup. simpl.
    split_and!; [done | done | congruence |].
    intros k. rewrite Ho', Ho1, Hm1.
    destruct (decide (k ∈ Dict.keys (objects t))) as [Hin|Hin].
    + destruct (decide (max_disappeared t < counter t k + 1)) as [Hexp|Hexp].
      * rewrite (decide_True (P := k ∈ _ ∧ _)) by done.
        rewrite (decide_True (P := 0 < S N ∧ _)) by lia.
        by destruct (decide _).
      * rewrite (decide_False (P := k ∈ _ ∧ _)) by tauto.
        assert (counter t1 k = counter t k + 1) as ->.
        { apply counter_present. rewrite Hd1.
          rewrite decide_True by done. by rewrite decide_False. }
        apply decide_ext. lia.
    + rewrite (decide_False (P := k ∈ _ ∧ _)) by tauto.
      apply lookup_None in Hin. rewrite Hin. by repeat destruct (decide _).
Qed.

End update_empty.
Section update_basic.
Context {rt : Runtime}.

Lemma register_all_disappeared_old new : ∀ t k,
  k < next_object_id t →
  Dict.lookup k (disappeared (register_all t new)) = Dict.lookup k (disappeared t).
Proof.
  induction new as [|[c b] new IH]; intros t k Hk; cbn [register_all]; [done|].
  rewrite IH by (simpl; lia). simpl. apply lookup_store_ne. lia.
Qed.

Lemma register_all_disappeared_new new : ∀ t i,
  i < length new →
  Dict.lookup (next_object_id t + i) (disappeared (register_all t new)) = Some 0.
Proof.
  induction new as [|[c b] new IH]; intros t i Hi; cbn [register_all length] in *;
    [lia|].
  destruct i as [|i].
  - rewrite register_all_disappeared_old by (simpl; lia). simpl.
    rewrite Nat.add_0_r. apply lookup_store_eq.
  - replace (next_object_id t + S i) with (next_object_id (register t c b).1 + i)
      by (simpl; lia).
    apply IH. lia.
Qed.

Lemma center_truncates x1 y1 x2 y2 :
  (Z.abs (2 * (center (x1, y1, x2, y2)).1 - (x1 + x2)) ≤ 1 ∧
   Z.abs (2 * (center (x1, y1, x2, y2)).2 - (y1 + y2)) ≤ 1)%Z.
Proof.
  simpl.
  pose proof (Z.quot_rem' (x1 + x2) 2). pose proof (Z.quot_rem' (y1 + y2) 2).
  pose proof (Z.rem_bound_abs (x1 + x2) 2 ltac:(lia)).
  pose proof (Z.rem_bound_abs (y1 + y2) 2 ltac:(lia)).
  lia.
Qed.

(** C7.  [update] with an empty detection list succeeds on every tracker
    state that satisfies the invariant of the tracker.  It adds 1 to the
    disappearance counter of every track, removes exactly the tracks whose
    new counter is greater than [max_disappeared], keeps the others as they
    were, and creates none.  With [max_disappeared = 2] a track created by a
    first update is absent from the mapping returned by the third empty
    update that follows, and more than [max_disappeared] empty updates in a
    row remove every track that was present. *)
Theorem update_empty_ages_and_removes (t : FaceTracker) :
  tracker_inv t →
  (∃ t', update t [] = Ok t' ∧ tracker_inv t' ∧
     (∀ k o, Dict.lookup k (objects t) = Some o →
        if decide (max_disappeared t < counter t k + 1) then
          Dict.lookup k (objects t') = None ∧
          Dict.lookup k (disappeared t') = None
        else
          Dict.lookup k (objects t') = Some o ∧
          Dict.lookup k (disappeared t') = Some (counter t k + 1)) ∧
     (∀ k, Dict.lookup k (objects t) = None →
        Dict.lookup k (objects t') = None)) ∧
  (∀ det, ∃ t1 t4,
     update (init 2) [det] = Ok t1 ∧ Dict.keys (objects t1) = [0] ∧
     updates t1 [[]; []; []] = Ok t4 ∧ Dict.lookup 0 (objects t4) = None) ∧
  (∀ N, max_disappeared t < N →
     ∃ t', updates t (replicate N []) = Ok t' ∧
       ∀ k, k ∈ Dict.keys (objects t) → k ∉ Dict.keys (objects t')).
Proof.
  intros Hinv. split_and!.
  - destruct (update_empty_spec t Hinv) as (t' & Hup & Hinv' & _ & _ & Ho & Hd).
    exists t'. split_and!; [done | done | |].
    + intros k o Hk.
      assert (Hin : k ∈ Dict.keys (objects t)) by (apply lookup_is_Some; eauto).
      rewrite Ho, Hd. rewrite (decide_True (P := k ∈ _)) by done.
      destruct (decide (max_disappeared t < counter t k + 1)).
      * by rewrite decide_True.
      * by rewrite decide_False by tauto.
    + intros k Hk. rewrite Ho, Hk. by destruct (decide _).
  - intros det. eexists _, _. split_and!; reflexivity.
  - intros N HN.
    destruct (empty_updates_spec N t Hinv) as (t' & Hups & _ & _ & Ho).
    exists t'. split; [done|]. intros k _. apply lookup_None.
    rewrite Ho. rewrite decide_True; [done | lia].
Qed.

Lemma one_track_inv : tracker_inv one_track.
Proof.
  split; simpl.
  - reflexivity.
  - apply NoDup_singleton.
  - repeat constructor.
Qed.

(** C9.  On a tracker without tracks, [update] with a non-empty detection
    list turns every detection into a new track, in order, under the next
    free ids: its centroid is [(int((x1 + x2) / 2), int((y1 + y2) / 2))],
    the centre of the bounding box truncated to a pixel, its bounding box is
    the detection's, it has no identity, and its disappearance counter
    is 0. *)
Theorem update_no_tracks_registers_all (t : FaceTracker) (dets : list Detection) :
  objects t = [] → dets ≠ [] →
  ∃ t', update t dets = Ok t' ∧
    Dict.keys (objects t') = seq (next_object_id t) (length dets) ∧
    ∀ i x1 y1 x2 y2, dets !! i = Some {| det_bbox := (x1, y1, x2, y2) |} →
      ∃ o, Dict.lookup (next_object_id t + i) (objects t') = Some o ∧
           centroid o = (Z.quot (x1 + x2) 2, Z.quot (y1 + y2) 2) ∧
           (Z.abs (2 * (centroid o).1 - (x1 + x2)) ≤ 1)%Z ∧
           (Z.abs (2 * (centroid o).2 - (y1 + y2)) ≤ 1)%Z ∧
           bbox o = (x1, y1, x2, y2) ∧
           face_id o = None ∧
           Dict.lookup (next_object_id t + i) (disappeared t') = Some 0.
Proof.
  intros Hobj Hdets. unfold update.
  rewrite decide_False by (destruct dets; [done | simpl; lia]).
  rewrite decide_True by (by rewrite Hobj).
  eexists. split; [reflexivity|].
  set (new := zip _ _).
  assert (Hlen : length new = length dets).
  { unfold new. rewrite length_zip, !length_map. lia. }
  rewrite register_all_objects by (rewrite Hobj; constructor).
  rewrite Hobj, app_nil_l. split.
  - rewrite keys_zip_with_seq. by rewrite Hlen.
  - intros i x1 y1 x2 y2 Hi.
    assert (Hnew : new !! i = Some (center (x1, y1, x2, y2), (x1, y1, x2, y2))).
    { unfold new. rewrite lookup_zip_with, !list_lookup_fmap, Hi. done. }
    eexists. split; [by apply (lookup_zip_with_seq new_track)|].
    destruct (center_truncates x1 y1 x2 y2).
    split_and!; try done.
    apply register_all_disappeared_new. rewrite Hlen.
    by eapply lookup_lt_Some.
Qed.

End update_basic.

Lemma update_empty_ages_and_removes_witness :
  tracker_inv one_track ∧
  ∃ t', updates (rt := stable_order) one_track (replicate 3 []) = Ok t' ∧
    ∀ k, k ∈ Dict.keys (objects one_track) → k ∉ Dict.keys (objects t').
Proof.
  split; [exact one_track_inv|].
  apply (update_empty_ages_and_removes (rt := stable_order) one_track one_track_inv).
  simpl. lia.
Defined.

Lemma update_no_tracks_registers_all_witness :
  ∃ t', update (rt := stable_order) (init 30)
          [{| det_bbox := (0, 0, 21, 5)%Z |}] = Ok t' ∧
        Dict.keys (objects t') = [0].
Proof.
  destruct (update_no_tracks_registers_all (rt := stable_order) (init 30)
              [{| det_bbox := (0, 0, 21, 5)%Z |}]) as (t' & H1 & H2 & _).
  - reflexivity.
  - discriminate.
  - exists t'. split; [exact H1 | exact H2].
Defined.

(** C9 as stated fails: the centroid is not the centre of the bounding box
    when [x1 + x2] or [y1 + y2] is odd.  For the box (0, 0, 21, 5), whose
    centre is (10.5, 2.5), the new track has the centroid (10, 2). *)
Lemma update_no_tracks_centroid_truncated :
  ∃ t' o,
    update (rt := stable_order) (init 30)
      [{| det_bbox := (0, 0, 21, 5)%Z |}] = Ok t' ∧
    Dict.lookup 0 (objects t') = Some o ∧
    centroid o = (10, 2)%Z ∧
    (2 * (centroid o).1 ≠ 0 + 21)%Z ∧ (2 * (centroid o).2 ≠ 0 + 5)%Z.
Proof. eexists _, _. split_and!; [reflexivity | reflexivity | reflexivity | done | done]. Qed.
(** ** Sorting by insertion *)

Section sorting.
Context {A : Type} (key : A → Z) (pos : A → A → Prop).

Lemma insert_by_perm x l : insert_by key x l ≡ₚ x :: l.
Proof.
  induction l as [|y l IH]; simpl; [done|].
  destruct (key x <=? key y)%Z; [done|].
  rewrite IH. apply Permutation_swap.
Qed.

Lemma sort_by_perm l : sort_by key l ≡ₚ l.
Proof.
  induction l as [|x l IH]; simpl; [done|].
  unfold sort_by in *. simpl. by rewrite insert_by_perm, IH.
Qed.

Lemma insert_by_sorted x l :
  StronglySorted (before key pos) l → Forall (pos x) l →
  StronglySorted (before key pos) (insert_by key x l).
Proof.
  induction 1 as [|y l Hl IH Hy]; intros Hx; simpl.
  - repeat constructor.
  - apply Forall_cons in Hx as [Hxy Hx].
    destruct (Z.leb_spec (key x) (key y)) as [Hle|Hgt].
    + constructor; [by constructor|]. constructor.
      * unfold before. destruct (decide (key x = key y)); [right | left]; [done | lia].
      * rewrite Forall_forall in Hy, Hx |- *. intros z Hz.
        specialize (Hy z Hz). specialize (Hx z Hz). unfold before in *.
        destruct (decide (key x = key z)); [right | left]; [done | lia].
    + constructor; [by apply IH|].
      rewrite insert_by_perm. constructor; [|done].
      left. lia.
Qed.

Lemma sort_by_sorted l :
  StronglySorted pos l → StronglySorted (before key pos) (sort_by key l).
Proof.
  induction 1 as [|x l Hl IH Hx]; [constructor|].
  unfold sort_by in *. simpl. apply insert_by_sorted; [done|].
  by rewrite (sort_by_perm l).
Qed.
End sorting.

Lemma seq_sorted (n len : nat) : StronglySorted lt (seq n len).
Proof.
  revert n. induction len as [|len IH]; intros n; simpl; constructor; [done|].
  apply Forall_forall. intros k Hk%elem_of_seq. lia.
Qed.

Section orders.
Context {rt : Runtime}.

Lemma argsort_elem_of ks i : i ∈ argsort ks ↔ i < length ks.
Proof. rewrite argsort_perm, elem_of_seq. lia. Qed.

Lemma argsort_NoDup ks : NoDup (argsort ks).
Proof. rewrite argsort_perm. apply NoDup_seq. Qed.

Lemma elem_of_range_minus n used i : i ∈ range_minus n used ↔ i < n ∧ i ∉ used.
Proof. rewrite range_minus_perm, list_elem_of_filter, elem_of_seq. intuition lia. Qed.

Lemma NoDup_range_minus n used : NoDup (range_minus n used).
Proof. rewrite range_minus_perm. apply NoDup_filter, NoDup_seq. Qed.
End orders.

(** ** Row minimum and its first index *)

Lemma row_min_cons x y l : row_min (x :: y :: l) = Z.min x (row_min (y :: l)).
Proof. reflexivity. Qed.

Lemma argmin_cons x y l :
  argmin (x :: y :: l) =
    if (x <=? row_min (y :: l))%Z then 0 else S (argmin (y :: l)).
Proof. reflexivity. Qed.

Lemma row_min_le l : ∀ i x, l !! i = Some x → (row_min l ≤ x)%Z.
Proof.
  induction l as [|y l IH]; intros i x Hi; [done|].
  destruct l as [|z l].
  - destruct i; simpl in *; [injection Hi as ->; done | done].
  - rewrite row_min_cons. destruct i as [|i]; simpl in Hi.
    + injection Hi as ->. lia.
    + specialize (IH i x Hi). lia.
Qed.

Lemma argmin_lookup l : l ≠ [] → l !! argmin l = Some (row_min l).
Proof.
  induction l as [|y l IH]; intros Hne; [done|].
  destruct l as [|z l]; [done|].
  rewrite argmin_cons, row_min_cons.
  destruct (Z.leb_spec y (row_min (z :: l))).
  - rewrite Z.min_l by lia. done.
  - rewrite Z.min_r by lia. apply IH. done.
Qed.

Lemma argmin_lt l : l ≠ [] → argmin l < length l.
Proof. intros H. eapply lookup_lt_Some, argmin_lookup, H. Qed.

Lemma argmin_first l : ∀ i x,
  l !! i = Some x → i < argmin l → (row_min l < x)%Z.
Proof.
  induction l as [|y l IH]; intros i x Hi Hlt; [done|].
  destruct l as [|z l]; [simpl in Hlt; lia|].
  rewrite argmin_cons in Hlt. rewrite row_min_cons.
  destruct (Z.leb_spec y (row_min (z :: l))); [lia|].
  destruct i as [|i]; simpl in Hi.
  - injection Hi as ->. lia.
  - assert (row_min (z :: l) < x)%Z by (apply (IH i); [done | lia]). lia.
Qed.

(** ** The distance matrix *)

Lemma length_cdist XA XB : length (cdist XA XB) = length XA.
Proof. unfold cdist. by rewrite length_map. Qed.

Lemma lookup_cdist XA XB row a :
  XA !! row = Some a → cdist XA XB !! row = Some (map (sqdist a) XB).
Proof. intros H. unfold cdist. by rewrite list_lookup_fmap, H. Qed.

Lemma lookup_total_cdist XA XB row a :
  XA !! row = Some a → cdist XA XB !!! row = map (sqdist a) XB.
Proof. intros H. apply list_lookup_total_correct. by apply lookup_cdist. Qed.
(** ** The matching loop of [update] *)

Section matching.
Context (D : list (list Z)).

Lemma matched_pairs_elem pairs : ∀ ur uc row col,
  (row, col) ∈ matched_pairs D pairs ur uc →
  (row, col) ∈ pairs ∧ row ∉ ur ∧ col ∉ uc ∧ (entry D row col ≤ gate)%Z.
Proof.
  induction pairs as [|[r c] pairs IH]; intros ur uc row col Hin; simpl in *.
  - by apply elem_of_nil in Hin.
  - case_bool_decide as Hused.
    { apply IH in Hin as (? & ? & ? & ?). split_and!; [by right | done..]. }
    destruct (Z.ltb_spec gate (entry D r c)) as [Hfar|Hnear].
    { apply IH in Hin as (? & ? & ? & ?). split_and!; [by right | done..]. }
    apply elem_of_cons in Hin as [[= -> ->]|Hin].
    + split_and!; [left | tauto | tauto | done].
    + apply IH in Hin as (? & ? & ? & ?).
      split_and!; [by right | set_solver | set_solver | done].
Qed.

Lemma matched_pairs_NoDup pairs : ∀ ur uc,
  NoDup (matched_pairs D pairs ur uc).*1 ∧
  NoDup (matched_pairs D pairs ur uc).*2.
Proof.
  induction pairs as [|[r c] pairs IH]; intros ur uc; simpl.
  - split; constructor.
  - case_bool_decide; [apply IH|].
    destruct (gate <? entry D r c)%Z; [apply IH|].
    destruct (IH ({[r]} ∪ ur) ({[c]} ∪ uc)) as [Hr Hc].
    rewrite !fmap_cons. simpl. split; constructor; try done.
    + intros ([r' c'] & -> & Hin)%list_elem_of_fmap.
      apply matched_pairs_elem in Hin. set_solver.
    + intros ([r' c'] & -> & Hin)%list_elem_of_fmap.
      apply matched_pairs_elem in Hin. set_solver.
Qed.

Lemma matched_pairs_app P Q : ∀ ur uc,
  matched_pairs D (P ++ Q) ur uc =
    matched_pairs D P ur uc ++
    matched_pairs D Q (list_to_set (matched_pairs D P ur uc).*1 ∪ ur)
                      (list_to_set (matched_pairs D P ur uc).*2 ∪ uc).
Proof.
  induction P as [|[r c] P IH]; intros ur uc; simpl.
  - by rewrite !(left_id_L ∅ (∪)).
  - case_bool_decide; [apply IH|].
    destruct (gate <? entry D r c)%Z; [apply IH|].
    rewrite IH. simpl. do 2 f_equal.
    apply (f_equal2 (matched_pairs D Q)); set_solver.
Qed.


(** A row is matched to its column exactly when the distance passes the
    gate and no row earlier in the order was matched to that column. *)
Lemma matched_pairs_at pairs i row col :
  NoDup pairs.*1 → pairs !! i = Some (row, col) →
  (row, col) ∈ matched_pairs D pairs ∅ ∅ ↔
    (entry D row col ≤ gate)%Z ∧
    ¬ ∃ j row', j < i ∧ pairs !! j = Some (row', col) ∧
                (row', col) ∈ matched_pairs D pairs ∅ ∅.
Proof.
  intros Hnd Hi.
  pose proof (take_drop_middle pairs i (row, col) Hi) as Hsplit.
  set (M1 := matched_pairs D (take i pairs) ∅ ∅).
  assert (HM : matched_pairs D pairs ∅ ∅ =
    M1 ++ matched_pairs D ((row, col) :: drop (S i) pairs)
            (list_to_set M1.*1 ∪ ∅) (list_to_set M1.*2 ∪ ∅)).
  { rewrite <- Hsplit at 1. apply matched_pairs_app. }
  assert (Hrow : row ∉ (take i pairs).*1).
  { rewrite <- Hsplit, fmap_app, fmap_cons in Hnd.
    apply NoDup_app in Hnd as (_ & Hnd & _). intros Hin.
    apply (Hnd row Hin). left. }
  split.
  - intros Hin.
    split; [pose proof (matched_pairs_elem _ _ _ _ _ Hin); tauto|].
    intros (j & row' & Hj & Hpj & Hin').
    destruct (matched_pairs_NoDup pairs ∅ ∅) as [_ Hc].
    assert (row' = row) as ->.
    { apply list_elem_of_lookup in Hin as [a Ha], Hin' as [b Hb].
      assert (a = b); [|congruence].
      eapply NoDup_lookup; [exact Hc | |]; rewrite list_lookup_fmap.
      - by rewrite Ha.
      - by rewrite Hb. }
    apply Hrow. apply list_elem_of_fmap. exists (row, col). split; [done|].
    apply list_elem_of_lookup. exists j. by rewrite lookup_take_lt.
  - intros [Hnear Hfree]. rewrite HM. apply elem_of_app. right. simpl.
    rewrite bool_decide_eq_false_2.
    + destruct (Z.ltb_spec gate (entry D row col)); [lia | left].
    + rewrite !(right_id_L ∅ (∪)), !elem_of_list_to_set.
      intros [Hin|Hin]; apply list_elem_of_fmap in Hin as ([r' c'] & Heq & Hin);
        simpl in Heq; subst.
      * apply Hrow. apply matched_pairs_elem in Hin as [Hin _].
        by apply (list_elem_of_fmap_2 fst) in Hin.
      * apply Hfree.
        pose proof Hin as [Hp _]%matched_pairs_elem.
        apply list_elem_of_lookup in Hp as [j Hj].
        exists j, r'. pose proof (lookup_lt_Some _ _ _ Hj) as Hlt.
        rewrite length_take in Hlt. rewrite lookup_take_lt in Hj by lia.
        split_and!; [lia | done |]. rewrite HM. apply elem_of_app. by left.
Qed.

Context (object_ids : list nat) (input_centroids : list Point)
        (input_bboxes : list BBox).

Lemma match_loop pairs : ∀ st,
  fold_left (match_step D object_ids input_centroids input_bboxes) pairs st =
    let M := matched_pairs D pairs (used_rows st) (used_cols st) in
    {| m_tracker :=
         fold_left (write_match object_ids input_centroids input_bboxes) M
           (m_tracker st);
       used_rows := list_to_set M.*1 ∪ used_rows st;
       used_cols := list_to_set M.*2 ∪ used_cols st |}.
Proof.
  induction pairs as [|[r c] pairs IH]; intros [t ur uc]; simpl.
  - by rewrite !(left_id_L ∅ (∪)).
  - case_bool_decide; [apply IH|].
    destruct (gate <? entry D r c)%Z; [apply IH|].
    rewrite IH. simpl. f_equal; set_solver.
Qed.
End matching.
Section writes.
Context (ids : list nat) (ic : list Point) (ib : list BBox).

Lemma write_match_spec t row col k :
  tracker_inv t → ids !! row = Some k → k ∈ Dict.keys (objects t) →
  let t1 := write_match ids ic ib t (row, col) in
  tracker_inv t1 ∧ Dict.keys (objects t1) = Dict.keys (objects t) ∧
  next_object_id t1 = next_object_id t ∧
  max_disappeared t1 = max_disappeared t ∧
  Dict.lookup k (objects t1) =
    moved_to (ic !!! col) (ib !!! col) <$> Dict.lookup k (objects t) ∧
  Dict.lookup k (disappeared t1) = Some 0 ∧
  ∀ k', k' ≠ k →
    Dict.lookup k' (objects t1) = Dict.lookup k' (objects t) ∧
    Dict.lookup k' (disappeared t1) = Dict.lookup k' (disappeared t).
Proof.
  intros [Hk Hnd Hfr] Hrow Hin. unfold write_match.
  rewrite (list_lookup_total_correct _ _ _ Hrow). simpl.
  split_and!; try done.
  - split; simpl.
    + rewrite keys_alter, keys_store_in; [done | by rewrite <- Hk].
    + by rewrite keys_alter.
    + by rewrite keys_alter.
  - apply keys_alter.
  - apply lookup_alter_eq.
  - apply lookup_store_eq.
  - intros k' Hne. split.
    + by apply lookup_alter_ne.
    + by apply lookup_store_ne.
Qed.

Lemma write_matches_spec M : ∀ t,
  tracker_inv t → Dict.keys (objects t) = ids → NoDup M.*1 →
  (∀ row col, (row, col) ∈ M → row < length ids) →
  let t' := fold_left (write_match ids ic ib) M t in
  tracker_inv t' ∧ Dict.keys (objects t') = ids ∧
  next_object_id t' = next_object_id t ∧
  max_disappeared t' = max_disappeared t ∧
  (∀ row col k, (row, col) ∈ M → ids !! row = Some k →
     Dict.lookup k (objects t') =
       moved_to (ic !!! col) (ib !!! col) <$> Dict.lookup k (objects t) ∧
     Dict.lookup k (disappeared t') = Some 0) ∧
  (∀ row k, ids !! row = Some k → row ∉ M.*1 →
     Dict.lookup k (objects t') = Dict.lookup k (objects t) ∧
     Dict.lookup k (disappeared t') = Dict.lookup k (disappeared t)).
Proof.
  induction M as [|[r0 c0] M IH]; intros t Hinv Hkeys Hnd Hrange;
    cbn zeta; cbn [fold_left].
  { split_and!; try done. by intros ??? ?%elem_of_nil. }
  rewrite fmap_cons in Hnd. simpl in Hnd. apply NoDup_cons in Hnd as [Hr0 Hnd].
  assert (Hids : NoDup ids) by (rewrite <- Hkeys; apply Hinv).
  destruct (lookup_lt_is_Some_2 ids r0) as [k0 Hk0]; [apply (Hrange r0 c0); left|].
  assert (Hin0 : k0 ∈ Dict.keys (objects t)).
  { rewrite Hkeys. by eapply list_elem_of_lookup_2. }
  destruct (write_match_spec t r0 c0 k0 Hinv Hk0 Hin0)
    as (Hinv1 & Hkeys1 & Hn1 & Hm1 & Ho1 & Hd1 & Hother).
  cbn zeta in *. set (t1 := write_match ids ic ib t (r0, c0)) in *.
  destruct (IH t1) as (Hinv' & Hkeys' & Hn' & Hm' & Hmat & Hunm);
    [done | congruence | done | intros; eapply Hrange; by right |].
  split_and!; [done | done | congruence | congruence | |].
  - intros row col k [[= -> ->]|Hin]%elem_of_cons Hk.
    + assert (k = k0) as -> by congruence.
      destruct (Hunm r0 k0 Hk0 Hr0) as [-> ->]. done.
    + assert (row ≠ r0).
      { intros ->. apply Hr0. by apply (list_elem_of_fmap_2 fst) in Hin. }
      assert (k ≠ k0).
      { intros ->. by pose proof (NoDup_lookup _ _ _ _ Hids Hk Hk0). }
      destruct (Hmat row col k Hin Hk) as [-> ->].
      by destruct (Hother k ltac:(done)) as [-> _].
  - intros row k Hk Hnot. rewrite fmap_cons in Hnot. simpl in Hnot.
    apply not_elem_of_cons in Hnot as [Hne Hnot].
    assert (k ≠ k0).
    { intros ->. by pose proof (NoDup_lookup _ _ _ _ Hids Hk Hk0). }
    destruct (Hunm row k Hk Hnot) as [-> ->]. by apply Hother.
Qed.
End writes.
Section row_order_facts.
Context {rt : Runtime}.

Lemma zip_fmap_r {A B : Type} (f : A → B) (l : list A) :
  zip l (map f l) = (λ x, (x, f x)) <$> l.
Proof. induction l as [|x l IH]; simpl; [done | by rewrite IH]. Qed.

Lemma row_order_fmap D :
  row_order D = (λ row, (row, argmin (D !!! row))) <$> argsort (map row_min D).
Proof. unfold row_order. apply zip_fmap_r. Qed.

Lemma row_order_rows D : (row_order D).*1 = argsort (map row_min D).
Proof.
  rewrite row_order_fmap, <- list_fmap_compose. apply list_fmap_id.
Qed.

Lemma row_order_elem D row col :
  (row, col) ∈ row_order D ↔ row < length D ∧ col = argmin (D !!! row).
Proof.
  rewrite row_order_fmap, list_elem_of_fmap. split.
  - intros (r & [= -> ->] & Hr). apply argsort_elem_of in Hr.
    rewrite length_map in Hr. done.
  - intros [Hr ->]. exists row. split; [done|].
    apply argsort_elem_of. by rewrite length_map.
Qed.

Lemma row_order_NoDup D : NoDup (row_order D).*1.
Proof. rewrite row_order_rows. apply argsort_NoDup. Qed.

Lemma length_keys {V : Type} (d : list (nat * V)) : length (Dict.keys d) = length d.
Proof. unfold Dict.keys. apply length_fmap. Qed.

Lemma length_distances t dets : length (distances t dets) = length (objects t).
Proof.
  unfold distances, Dict.values. by rewrite length_cdist, length_map, length_fmap.
Qed.

Lemma distances_row t dets row k o :
  Dict.keys (objects t) !! row = Some k → Dict.lookup k (objects t) = Some o →
  NoDup (Dict.keys (objects t)) →
  distances t dets !!! row = map (sqdist (centroid o)) (input_centroids_of dets).
Proof.
  intros Hrow Hk Hnd. unfold distances. apply lookup_total_cdist.
  unfold Dict.keys, Dict.values in *.
  rewrite list_lookup_fmap in Hrow. rewrite !list_lookup_fmap.
  destruct (objects t !! row) as [[k' o']|] eqn:E; [|done].
  simpl in *. injection Hrow as ->. do 2 f_equal.
  apply list_elem_of_lookup_2 in E. apply elem_of_lookup in E; [|done].
  congruence.
Qed.

Lemma matches_elem t dets row col :
  dets ≠ [] → (row, col) ∈ matches t dets →
  row < length (objects t) ∧ col < length dets ∧
  col = argmin (distances t dets !!! row) ∧
  (entry (distances t dets) row col ≤ gate)%Z.
Proof.
  intros Hdets Hin. unfold matches, assignment in Hin.
  apply matched_pairs_elem in Hin as (Hin & _ & _ & Hgate).
  apply row_order_elem in Hin as [Hrow ->].
  rewrite length_distances in Hrow. split_and!; try done.
  unfold distances in *.
  destruct (lookup_lt_is_Some_2 (Dict.values (objects t)) row) as [o Ho].
  { unfold Dict.values. by rewrite length_fmap. }
  rewrite (lookup_total_cdist _ _ _ (centroid o))
    by (by rewrite list_lookup_fmap, Ho).
  replace (length dets) with (length (map (sqdist (centroid o)) (input_centroids_of dets)))
    by (unfold input_centroids_of; by rewrite !length_map).
  apply argmin_lt. destruct dets; [done | discriminate].
Qed.

Lemma update_match_decompose t dets :
  objects t ≠ [] → dets ≠ [] →
  let ids := Dict.keys (objects t) in
  let ic := input_centroids_of dets in
  let ib := map det_bbox dets in
  let M := matches t dets in
  update t dets =
    bind (age_all (map (λ row, ids !!! row)
                     (range_minus (length ids) (list_to_set M.*1)))
            (fold_left (write_match ids ic ib) M t))
         (λ t_a, Ok (register_all t_a
                  (map (λ col, (ic !!! col, ib !!! col))
                     (range_minus (length dets) (list_to_set M.*2))))).
Proof.
  intros Hobj Hdets. cbn zeta. unfold update.
  rewrite decide_False by (destruct dets; [done | simpl; lia]).
  rewrite decide_False by (destruct (objects t); [done | simpl; lia]).
  rewrite match_loop. cbn [m_tracker used_rows used_cols]. cbn zeta.
  fold (input_centroids_of dets). fold (distances t dets).
  fold (row_order (distances t dets)).
  fold (assignment (distances t dets)). fold (matches t dets).
  rewrite length_distances, length_keys.
  replace (length (input_centroids_of dets)) with (length dets)
    by (unfold input_centroids_of; by rewrite length_map).
  rewrite !(right_id_L ∅ (∪)).
  done.
Qed.

End row_order_facts.
Section update_match.
Context {rt : Runtime}.

Lemma lookup_total_lookup (ids : list nat) (row : nat) :
  row < length ids → ids !! row = Some (ids !!! row).
Proof.
  intros H. destruct (lookup_lt_is_Some_2 ids row H) as [k Hk].
  by rewrite (list_lookup_total_correct _ _ _ Hk).
Qed.

Lemma elem_of_aged (ids : list nat) (rows_matched : list nat) (k : nat) :
  k ∈ map (λ row, ids !!! row)
        (range_minus (length ids) (list_to_set rows_matched)) ↔
  ∃ row, ids !! row = Some k ∧ row ∉ rows_matched.
Proof.
  change (map ?f ?l) with (f <$> l). rewrite list_elem_of_fmap. split.
  - intros (row & -> & [Hrow Hnot]%elem_of_range_minus).
    rewrite elem_of_list_to_set in Hnot.
    exists row. split; [by apply lookup_total_lookup | done].
  - intros (row & Hrow & Hnot). exists row. split.
    + symmetry. by apply list_lookup_total_correct.
    + apply elem_of_range_minus. rewrite elem_of_list_to_set. split; [|done].
      by apply lookup_lt_Some in Hrow.
Qed.

Lemma aged_NoDup (ids : list nat) (rows_matched : list nat) :
  NoDup ids →
  NoDup (map (λ row, ids !!! row)
           (range_minus (length ids) (list_to_set rows_matched))).
Proof.
  intros Hnd. apply NoDup_fmap_2_strong.
  - intros r r' [Hr _]%elem_of_range_minus [Hr' _]%elem_of_range_minus Heq.
    eapply NoDup_lookup; [exact Hnd | by apply lookup_total_lookup |].
    rewrite Heq. by apply lookup_total_lookup.
  - apply NoDup_range_minus.
Qed.

Lemma update_match_spec t dets :
  tracker_inv t → objects t ≠ [] → dets ≠ [] →
  let ids := Dict.keys (objects t) in
  let ic := input_centroids_of dets in
  let ib := map det_bbox dets in
  let M := matches t dets in
  ∃ t_a,
    update t dets =
      Ok (register_all t_a
            (map (λ col, (ic !!! col, ib !!! col))
               (range_minus (length dets) (list_to_set M.*2)))) ∧
    tracker_inv t_a ∧
    next_object_id t_a = next_object_id t ∧
    max_disappeared t_a = max_disappeared t ∧
    (∀ row col k, (row, col) ∈ M → ids !! row = Some k →
       Dict.lookup k (objects t_a) =
         moved_to (ic !!! col) (ib !!! col) <$> Dict.lookup k (objects t) ∧
       Dict.lookup k (disappeared t_a) = Some 0) ∧
    (∀ row k, ids !! row = Some k → row ∉ M.*1 →
       if decide (max_disappeared t < counter t k + 1) then
         Dict.lookup k (objects t_a) = None ∧
         Dict.lookup k (disappeared t_a) = None
       else
         Dict.lookup k (objects t_a) = Dict.lookup k (objects t) ∧
         Dict.lookup k (disappeared t_a) = Some (counter t k + 1)) ∧
    (∀ k, k ∉ ids → Dict.lookup k (objects t_a) = None).
Proof.
  intros Hinv Hobj Hdets ids ic ib M.
  rewrite (update_match_decompose t dets Hobj Hdets). cbn zeta.
  fold ids ic ib M.
  assert (Hids : NoDup ids) by apply Hinv.
  destruct (write_matches_spec ids ic ib M t Hinv eq_refl)
    as (Hinv_m & Hkeys_m & Hn_m & Hm_m & Hmat & Hunm).
  { apply matched_pairs_NoDup. }
  { intros row col Hin. unfold ids. rewrite length_keys.
    by apply matches_elem in Hin as [? _]. }
  set (t_m := fold_left (write_match ids ic ib) M t) in *.
  set (aged := map _ (range_minus _ (list_to_set M.*1))).
  destruct (age_all_spec aged t_m Hinv_m) as (t_a & -> & Hinv_a & Hn_a & Hm_a & Ho & Hd).
  { by apply aged_NoDup. }
  { intros k (row & Hrow & _)%elem_of_aged. rewrite Hkeys_m.
    by eapply list_elem_of_lookup_2. }
  exists t_a. simpl. split_and!; [done | done | congruence | congruence | | |].
  - intros row col k Hin Hrow.
    assert (Hk : k ∉ aged).
    { intros (row' & Hrow' & Hnot)%elem_of_aged. apply Hnot.
      rewrite (NoDup_lookup _ _ _ _ Hids Hrow' Hrow).
      by apply (list_elem_of_fmap_2 fst) in Hin. }
    rewrite Ho, Hd. rewrite !decide_False by tauto. by apply (Hmat row col).
  - intros row k Hrow Hnot.
    assert (Hk : k ∈ aged) by (apply elem_of_aged; eauto).
    destruct (Hunm row k Hrow Hnot) as [Eo Ed].
    rewrite Ho, Hd, Hm_m. unfold counter. rewrite Ed, Eo. fold (counter t k).
    rewrite (decide_True (P := k ∈ aged)) by done.
    destruct (decide (max_disappeared t < counter t k + 1)).
    + by rewrite decide_True.
    + by rewrite decide_False by tauto.
  - intros k Hk. rewrite Ho.
    assert (Dict.lookup k (objects t_m) = None) as ->.
    { apply lookup_None. by rewrite Hkeys_m. }
    by destruct (decide _).
Qed.

End update_match.
Section update_result.
Context {rt : Runtime}.

Lemma keys_subseteq_lookup {V : Type} (d d' : list (nat * V)) :
  (∀ k, Dict.lookup k d = None → Dict.lookup k d' = None) →
  Dict.keys d' ⊆ Dict.keys d.
Proof.
  intros H k Hk. apply dec_stable. intros Hnot.
  apply lookup_None in Hnot. apply H in Hnot. by apply lookup_None in Hnot.
Qed.

Lemma register_all_result t new :
  tracker_inv t →
  tracker_inv (register_all t new) ∧
  max_disappeared (register_all t new) = max_disappeared t ∧
  next_object_id (register_all t new) = next_object_id t + length new ∧
  objects (register_all t new) =
    objects t ++ zip_with (λ k cb, (k, new_track cb))
                   (seq (next_object_id t) (length new)) new ∧
  disappeared (register_all t new) =
    disappeared t ++ ((λ k, (k, 0)) <$> seq (next_object_id t) (length new)).
Proof.
  intros Hinv. destruct (register_all_next new t) as (? & ? & _).
  split_and!; [by apply register_all_inv | done | done | |].
  - apply register_all_objects, Hinv.
  - apply register_all_disappeared. destruct Hinv as [<- _ ?]. done.
Qed.

Lemma lookup_zero_counters (k c n len : nat) :
  Dict.lookup k ((λ k, (k, 0)) <$> seq n len) = Some c → c = 0.
Proof.
  intros H%lookup_elem_of.
  apply list_elem_of_fmap in H as (k' & Heq & _). by injection Heq.
Qed.

Lemma update_spec t dets :
  tracker_inv t →
  ∃ t' kept n,
    update t dets = Ok t' ∧ tracker_inv t' ∧
    max_disappeared t' = max_disappeared t ∧
    next_object_id t' = next_object_id t + n ∧
    Dict.keys (objects t') = kept ++ seq (next_object_id t) n ∧
    kept ⊆ Dict.keys (objects t) ∧
    (∀ k c, Dict.lookup k (disappeared t') = Some c → c ≤ max_disappeared t).
Proof.
  intros Hinv. destruct dets as [|det dets].
  { destruct (update_empty_spec t Hinv) as (t' & Hup & Hinv' & Hn & Hm & Ho & Hd).
    exists t', (Dict.keys (objects t')), 0.
    split_and!; [done | done | done | lia | by rewrite app_nil_r | |].
    - apply keys_subseteq_lookup. intros k Hk. rewrite Ho, Hk. by destruct (decide _).
    - intros k c. rewrite Hd. repeat case_decide; try done. intros [= <-]. lia. }
  destruct (objects t) as [|kv objs] eqn:Hobj.
  { set (dets' := det :: dets). unfold update.
    rewrite decide_False by (simpl; lia).
    rewrite decide_True by (by rewrite Hobj).
    destruct (register_all_result t
      (zip (map (λ det, center (det_bbox det)) dets') (map det_bbox dets')) Hinv)
      as (Hinv' & Hm & Hn & Ho & Hd).
    eexists _, [], _. split_and!; [done | done | done | exact Hn | | | ].
    - rewrite Ho, Hobj, app_nil_l. apply (keys_zip_with_seq new_track).
    - apply list_subseteq_nil.
    - intros k c. rewrite Hd.
      assert (disappeared t = []) as ->.
      { destruct Hinv as [Hk _ _]. rewrite Hobj in Hk.
        destruct (disappeared t); [done | discriminate]. }
      rewrite app_nil_l. intros ->%lookup_zero_counters. lia. }
  assert (Hne : objects t ≠ []) by (by rewrite Hobj).
  rewrite <- Hobj in *. clear Hobj kv objs.
  destruct (update_match_spec t (det :: dets) Hinv Hne ltac:(done))
    as (t_a & Hup & Hinv_a & Hn_a & Hm_a & Hmat & Hunm & Hother).
  cbn zeta in *.
  set (M := matches t (det :: dets)) in *.
  set (fresh := map _ (range_minus _ _)) in Hup.
  destruct (register_all_result t_a fresh Hinv_a) as (Hinv' & Hm & Hn & Ho & Hd).
  eexists _, (Dict.keys (objects t_a)), (length fresh).
  split_and!; [exact Hup | done | congruence | congruence | | |].
  - rewrite Ho. unfold Dict.keys at 1. rewrite fmap_app.
    f_equal. rewrite Hn_a. apply (keys_zip_with_seq new_track).
  - apply keys_subseteq_lookup. intros k Hk%lookup_None. by apply Hother.
  - intros k c. rewrite Hd, lookup_app_dict.
    destruct (Dict.lookup k (disappeared t_a)) as [c'|] eqn:Hc;
      [|intros ->%lookup_zero_counters; lia].
    intros [= ->].
    destruct (decide (k ∈ Dict.keys (objects t))) as [Hin|Hnot].
    + apply list_elem_of_lookup in Hin as [row Hrow].
      destruct (decide (row ∈ M.*1)) as [Hm1|Hm1].
      * apply list_elem_of_fmap in Hm1 as ([row' col] & -> & Hin).
        destruct (Hmat _ _ _ Hin Hrow) as [_ E]. simpl in *. rewrite E in Hc.
        injection Hc as <-. lia.
      * specialize (Hunm _ _ Hrow Hm1). case_decide.
        -- destruct Hunm as [_ E]. congruence.
        -- destruct Hunm as [_ E]. rewrite E in Hc. injection Hc as <-. lia.
    + apply Hother in Hnot. apply lookup_None in Hnot.
      destruct Hinv_a as [Hk _ _]. rewrite Hk in Hnot.
      apply lookup_None in Hnot. congruence.
Qed.

End update_result.
Lemma register_all_lookup_old t new k :
  tracker_inv t → k < next_object_id t →
  Dict.lookup k (objects (register_all t new)) = Dict.lookup k (objects t) ∧
  Dict.lookup k (disappeared (register_all t new)) = Dict.lookup k (disappeared t).
Proof.
  intros Hinv Hk. split; [|by apply register_all_disappeared_old].
  rewrite register_all_objects by apply Hinv. rewrite lookup_app_dict.
  destruct (Dict.lookup k (objects t)); [done|].
  apply lookup_None. rewrite (keys_zip_with_seq new_track), elem_of_seq. lia.
Qed.

Lemma register_all_lookup_new t new j cb :
  tracker_inv t → new !! j = Some cb →
  Dict.lookup (next_object_id t + j) (objects (register_all t new)) =
    Some (new_track cb) ∧
  Dict.lookup (next_object_id t + j) (disappeared (register_all t new)) = Some 0.
Proof.
  intros Hinv Hj. split.
  - rewrite register_all_objects by apply Hinv. rewrite lookup_app_dict.
    assert (Dict.lookup (next_object_id t + j) (objects t) = None) as ->.
    { apply lookup_None. intros Hin. destruct Hinv as [_ _ Hfr].
      rewrite Forall_forall in Hfr. apply Hfr in Hin. lia. }
    by apply (lookup_zip_with_seq new_track).
  - apply register_all_disappeared_new. by eapply lookup_lt_Some.
Qed.

Lemma StronglySorted_lookup_lt {A : Type} (R : relation A) (l : list A) i j x y :
  StronglySorted R l → i < j → l !! i = Some x → l !! j = Some y → R x y.
Proof.
  intros Hs Hij Hi Hj.
  rewrite <- (take_drop_middle l i x Hi) in Hs, Hj.
  apply StronglySorted_app_1_r, StronglySorted_cons in Hs as [Hs _].
  rewrite Forall_forall in Hs. apply Hs.
  rewrite lookup_app_r in Hj by (rewrite length_take; lia).
  rewrite length_take in Hj.
  replace (i `min` length l) with i in Hj by (apply lookup_lt_Some in Hi; lia).
  destruct (j - i) as [|d] eqn:E; [lia|]. simpl in Hj.
  by eapply list_elem_of_lookup_2.
Qed.

Lemma input_centroids_lookup dets col det :
  dets !! col = Some det →
  input_centroids_of dets !!! col = center (det_bbox det) ∧
  map det_bbox dets !!! col = det_bbox det.
Proof.
  intros H. split; apply list_lookup_total_correct.
  - unfold input_centroids_of. by rewrite list_lookup_fmap, H.
  - by rewrite list_lookup_fmap, H.
Qed.

Lemma distances_entry t dets row col k o det :
  NoDup (Dict.keys (objects t)) →
  Dict.keys (objects t) !! row = Some k → Dict.lookup k (objects t) = Some o →
  dets !! col = Some det →
  entry (distances t dets) row col = sqdist (centroid o) (center (det_bbox det)).
Proof.
  intros Hnd Hrow Hk Hcol. unfold entry.
  rewrite (distances_row t dets row k o) by done.
  apply list_lookup_total_correct. unfold input_centroids_of.
  by rewrite !list_lookup_fmap, Hcol.
Qed.

Lemma distances_row_min t dets row :
  dets ≠ [] → row < length (objects t) →
  map row_min (distances t dets) !!! row = row_min (distances t dets !!! row) ∧
  entry (distances t dets) row (argmin (distances t dets !!! row)) =
    row_min (distances t dets !!! row).
Proof.
  intros Hdets Hrow.
  destruct (lookup_lt_is_Some_2 (distances t dets) row) as [ds Hds];
    [by rewrite length_distances|].
  rewrite (list_lookup_total_correct _ _ _ Hds). split.
  - apply list_lookup_total_correct. by rewrite list_lookup_fmap, Hds.
  - unfold entry. rewrite (list_lookup_total_correct _ _ _ Hds).
    apply list_lookup_total_correct, argmin_lookup.
    unfold distances, cdist in Hds. rewrite list_lookup_fmap in Hds.
    destruct (_ !! row); [|done]. injection Hds as <-.
    unfold input_centroids_of. destruct dets; [done | discriminate].
Qed.
(** ** The association step of [update] *)

Section association.
Context {rt : Runtime}.

(** The row of a track in the distance matrix. *)
Lemma objects_row t row k o :
  tracker_inv t → objects t !! row = Some (k, o) →
  Dict.keys (objects t) !! row = Some k ∧ Dict.lookup k (objects t) = Some o ∧
  row < length (objects t).
Proof.
  intros Hinv Hrow. split_and!.
  - unfold Dict.keys. by rewrite list_lookup_fmap, Hrow.
  - apply elem_of_lookup; [apply Hinv | by eapply list_elem_of_lookup_2].
  - by eapply lookup_lt_Some.
Qed.

Lemma row_objects t row k :
  Dict.keys (objects t) !! row = Some k → ∃ o, objects t !! row = Some (k, o).
Proof.
  unfold Dict.keys. rewrite list_lookup_fmap.
  destruct (objects t !! row) as [[k' o]|]; [|done].
  intros [= <-]. by exists o.
Qed.

(** The squared distance that the matrix holds for a track and a
    detection, written out. *)
Lemma sqdist_center (o : Track) (det : Detection) :
  sqdist (centroid o) (center (det_bbox det)) =
    let '(x1, y1, x2, y2) := det_bbox det in
    (((centroid o).1 - Z.quot (x1 + x2) 2) * ((centroid o).1 - Z.quot (x1 + x2) 2) +
     ((centroid o).2 - Z.quot (y1 + y2) 2) * ((centroid o).2 - Z.quot (y1 + y2) 2))%Z.
Proof. destruct det as [[[[x1 y1] x2] y2]]. reflexivity. Qed.

(** The column that a row proposes: the first one that holds the minimum
    of the row. *)
Lemma proposed_column t dets row k o :
  tracker_inv t → dets ≠ [] → objects t !! row = Some (k, o) →
  ∃ det, dets !! argmin (distances t dets !!! row) = Some det ∧
    row_min (distances t dets !!! row) = sqdist (centroid o) (center (det_bbox det)) ∧
    (∀ c d, dets !! c = Some d →
       (row_min (distances t dets !!! row)
          ≤ sqdist (centroid o) (center (det_bbox d)))%Z) ∧
    (∀ c d, c < argmin (distances t dets !!! row) → dets !! c = Some d →
       (row_min (distances t dets !!! row)
          < sqdist (centroid o) (center (det_bbox d)))%Z).
Proof.
  intros Hinv Hdets Hrow.
  destruct (objects_row t row k o Hinv Hrow) as (Hk & Ho & Hlt).
  rewrite (distances_row t dets row k o Hk Ho) by apply Hinv.
  set (ds := map (sqdist (centroid o)) (input_centroids_of dets)).
  assert (Hds : ∀ c d, dets !! c = Some d →
            ds !! c = Some (sqdist (centroid o) (center (det_bbox d)))).
  { intros c d Hc. unfold ds, input_centroids_of.
    by rewrite !list_lookup_fmap, Hc. }
  assert (Hne : ds ≠ []).
  { unfold ds, input_centroids_of. destruct dets; [done | discriminate]. }
  destruct (lookup_lt_is_Some_2 dets (argmin ds)) as [det Hdet].
  { replace (length dets) with (length ds)
      by (unfold ds, input_centroids_of; by rewrite !length_map).
    by apply argmin_lt. }
  exists det. split; [done|].
  pose proof (argmin_lookup ds Hne) as Hmin. rewrite (Hds _ _ Hdet) in Hmin.
  split_and!.
  - congruence.
  - intros c d Hc. eapply row_min_le, Hds, Hc.
  - intros c d Hlt' Hc. eapply argmin_first; [by apply Hds | done].
Qed.
End association.

(** C3.  With at least one track and at least one detection, [update]
    returns and associates greedily, row by row, whichever way the run-time
    system orders equal keys and iterates sets.  Rows are the tracks in
    dictionary order, columns the detections.  [centre det] is the centroid
    that the code computes for a detection, and [dist2 o det] the square of
    the distance between the centroid of track [o] and [centre det]: the
    distance is at most 50 pixels exactly when [dist2] is at most [50 * 50].
    There are an order [rows] of the rows, a list [M] of matched (row,
    column) pairs and an order [new_cols] of the unmatched columns such
    that:
    - every row is in [rows] once, and a row comes before another only if
      its minimum distance is not greater;
    - a row proposes the first column that holds its minimum distance; the
      pair is matched exactly when that distance is at most 50 pixels and no
      row earlier in [rows] was matched to the column; nothing else is
      matched;
    - a matched track takes the centroid and the bounding box of its
      detection, keeps its identity, and its counter is reset to 0;
    - an unmatched track ages by 1 and is removed when its counter then
      exceeds [max_disappeared], and stays as it was otherwise;
    - the unmatched columns become new tracks without identity under the
      next free ids, with counter 0, and there is no other new track;
    - a detection farther than 50 pixels from every track centroid is
      matched to no track and becomes a new track. *)
Theorem update_greedy_association {rt : Runtime}
    (t : FaceTracker) (dets : list Detection) :
  tracker_inv t → objects t ≠ [] → dets ≠ [] →
  let centre (det : Detection) : Point :=
    let '(x1, y1, x2, y2) := det_bbox det in
    (Z.quot (x1 + x2) 2, Z.quot (y1 + y2) 2) in
  let dist2 (o : Track) (det : Detection) : Z :=
    (((centroid o).1 - (centre det).1) * ((centroid o).1 - (centre det).1) +
     ((centroid o).2 - (centre det).2) * ((centroid o).2 - (centre det).2))%Z in
  let nearest (o : Track) (col : nat) (det : Detection) : Prop :=
    dets !! col = Some det ∧
    (∀ c d, dets !! c = Some d → (dist2 o det ≤ dist2 o d)%Z) ∧
    (∀ c d, c < col → dets !! c = Some d → (dist2 o det < dist2 o d)%Z) in
  ∃ (t' : FaceTracker) (rows : list nat) (M : list (nat * nat))
    (new_cols : list nat),
    update t dets = Ok t' ∧
    rows ≡ₚ seq 0 (length (objects t)) ∧
    (∀ i j row row' k k' o o' c' d',
       i < j → rows !! i = Some row → rows !! j = Some row' →
       objects t !! row = Some (k, o) → objects t !! row' = Some (k', o') →
       dets !! c' = Some d' →
       ∃ c d, dets !! c = Some d ∧ (dist2 o d ≤ dist2 o' d')%Z) ∧
    (∀ i row k o, rows !! i = Some row → objects t !! row = Some (k, o) →
       ∃ col det, nearest o col det ∧
         ((row, col) ∈ M ↔
            (dist2 o det ≤ 50 * 50)%Z ∧
            ∀ j row', j < i → rows !! j = Some row' → (row', col) ∉ M)) ∧
    (∀ row col, (row, col) ∈ M →
       ∃ k o det, objects t !! row = Some (k, o) ∧ nearest o col det) ∧
    (∀ row col k o det,
       (row, col) ∈ M → objects t !! row = Some (k, o) → dets !! col = Some det →
       Dict.lookup k (objects t') =
         Some {| centroid := centre det; bbox := det_bbox det;
                 face_id := face_id o |} ∧
       Dict.lookup k (disappeared t') = Some 0) ∧
    (∀ row k o n,
       objects t !! row = Some (k, o) → (∀ col, (row, col) ∉ M) →
       Dict.lookup k (disappeared t) = Some n →
       if decide (max_disappeared t < n + 1) then
         Dict.lookup k (objects t') = None ∧
         Dict.lookup k (disappeared t') = None
       else
         Dict.lookup k (objects t') = Some o ∧
         Dict.lookup k (disappeared t') = Some (n + 1)) ∧
    new_cols ≡ₚ filter (λ col, col ∉ M.*2) (seq 0 (length dets)) ∧
    next_object_id t' = next_object_id t + length new_cols ∧
    (∀ j col det, new_cols !! j = Some col → dets !! col = Some det →
       Dict.lookup (next_object_id t + j) (objects t') =
         Some {| centroid := centre det; bbox := det_bbox det;
                 face_id := None |} ∧
       Dict.lookup (next_object_id t + j) (disappeared t') = Some 0) ∧
    (∀ k, Dict.lookup k (objects t) = None →
       k < next_object_id t ∨ next_object_id t + length new_cols ≤ k →
       Dict.lookup k (objects t') = None) ∧
    (∀ col det, dets !! col = Some det →
       (∀ row k o, objects t !! row = Some (k, o) → (50 * 50 < dist2 o det)%Z) →
       (∀ row, (row, col) ∉ M) ∧
       ∃ j, new_cols !! j = Some col ∧
         Dict.lookup (next_object_id t + j) (objects t') =
           Some {| centroid := centre det; bbox := det_bbox det;
                   face_id := None |}).
Proof.
  intros Hinv Hobj Hdets centre dist2 nearest.
  destruct (update_match_spec t dets Hinv Hobj Hdets)
    as (t_a & Hup & Hinv_a & Hn_a & Hm_a & Hmat & Hunm & Hother).
  cbn zeta in *.
  set (ids := Dict.keys (objects t)) in *.
  set (D := distances t dets).
  set (M := matches t dets) in *.
  set (new_cols := range_minus (length dets) (list_to_set M.*2)) in *.
  set (fresh := map _ new_cols) in Hup.
  assert (Hcentre : ∀ det, center (det_bbox det) = centre det).
  { intros [[[[x1 y1] x2] y2]]. reflexivity. }
  assert (Hdist : ∀ o det, sqdist (centroid o) (center (det_bbox det)) = dist2 o det).
  { intros o det. unfold dist2. by rewrite <- Hcentre. }
  assert (Hentry : ∀ row col k o det,
            objects t !! row = Some (k, o) → dets !! col = Some det →
            entry D row col = dist2 o det).
  { intros row col k o det Hrow Hcol.
    destruct (objects_row t row k o Hinv Hrow) as (Hk & Ho & _).
    rewrite <- Hdist. by apply (distances_entry t dets row col k o det); [apply Hinv|..]. }
  assert (Hprop : ∀ row k o, objects t !! row = Some (k, o) →
            ∃ det, nearest o (argmin (D !!! row)) det ∧
                   row_min (D !!! row) = dist2 o det).
  { intros row k o Hrow.
    destruct (proposed_column t dets row k o Hinv Hdets Hrow)
      as (det & Hdet & Hmin & Hle & Hlt).
    exists det. rewrite <- Hdist. split; [|done]. split_and!; [done | |].
    - intros c d Hc. rewrite <- !Hdist, <- Hmin. by eapply Hle.
    - intros c d Hlt' Hc. rewrite <- !Hdist, <- Hmin. by eapply Hlt. }
  assert (Hfresh : ∀ k, k ∈ ids → k < next_object_id t_a).
  { intros k Hk. rewrite Hn_a. destruct Hinv as [_ _ Hfr].
    rewrite Forall_forall in Hfr. by apply Hfr. }
  assert (Hnew : ∀ j col det, new_cols !! j = Some col → dets !! col = Some det →
            Dict.lookup (next_object_id t + j) (objects (register_all t_a fresh)) =
              Some {| centroid := centre det; bbox := det_bbox det;
                      face_id := None |} ∧
            Dict.lookup (next_object_id t + j) (disappeared (register_all t_a fresh)) =
              Some 0).
  { intros j col det Hj Hcol. rewrite <- Hn_a, <- Hcentre.
    apply (register_all_lookup_new t_a fresh j
             (center (det_bbox det), det_bbox det)); [done|].
    destruct (input_centroids_lookup dets col det Hcol) as [E1 E2].
    unfold fresh. rewrite list_lookup_fmap, Hj. cbn [fmap option_fmap option_map].
    by rewrite E1, E2. }
  assert (Hrows : (row_order D).*1 = argsort (map row_min D))
    by apply row_order_rows.
  assert (Horder : ∀ i row, argsort (map row_min D) !! i = Some row →
            row_order D !! i = Some (row, argmin (D !!! row))).
  { intros i row Hi. by rewrite row_order_fmap, list_lookup_fmap, Hi. }
  exists (register_all t_a fresh), (argsort (map row_min D)), M, new_cols.
  split; [exact Hup|]. split_and!.
  - rewrite argsort_perm, length_map. unfold D. by rewrite length_distances.
  - intros i j row row' k k' o o' c' d' Hij Hi Hj Hrow Hrow' Hc'.
    destruct (Hprop row k o Hrow) as (det & (Hdet & _ & _) & Hmin).
    exists (argmin (D !!! row)), det. split; [done|].
    rewrite <- Hmin.
    pose proof (StronglySorted_lookup_lt _ _ _ _ _ _
                  (argsort_ascending (map row_min D)) Hij Hi Hj) as Hle.
    cbn beta in Hle.
    destruct (objects_row t row k o Hinv Hrow) as (_ & _ & Hlt).
    destruct (objects_row t row' k' o' Hinv Hrow') as (_ & _ & Hlt').
    pose proof (proj1 (distances_row_min t dets row Hdets Hlt)) as E1.
    pose proof (proj1 (distances_row_min t dets row' Hdets Hlt')) as E2.
    fold D in E1, E2. rewrite E1, E2 in Hle.
    destruct (Hprop row' k' o' Hrow') as (det' & (_ & Hall & _) & Hmin').
    rewrite Hmin' in Hle. specialize (Hall c' d' Hc'). lia.
  - intros i row k o Hi Hrow.
    destruct (Hprop row k o Hrow) as (det & Hnear & Hmin).
    exists (argmin (D !!! row)), det. split; [done|].
    pose proof (matched_pairs_at D (row_order D) i row (argmin (D !!! row))
                  (row_order_NoDup D) (Horder i row Hi)) as Hat.
    fold (assignment D) in Hat. change (assignment D) with M in Hat.
    rewrite Hat.
    rewrite (Hentry row _ k o det Hrow (proj1 Hnear)). unfold gate.
    split.
    + intros [Hgate Hfree]. split; [lia|].
      intros j row' Hj Hj' Hin. apply Hfree. exists j, row'.
      split_and!; [done | | done].
      apply Horder in Hj'. rewrite Hj'. f_equal. f_equal.
      apply matches_elem in Hin as (_ & _ & -> & _); done.
    + intros [Hgate Hfree]. split; [lia|].
      intros (j & row' & Hj & Hj' & Hin). apply (Hfree j row'); [done | | done].
      rewrite row_order_fmap, list_lookup_fmap in Hj'.
      destruct (argsort (map row_min D) !! j); [|done].
      by injection Hj' as -> _.
  - intros row col Hin.
    pose proof (matches_elem t dets row col Hdets Hin) as (Hrow & _ & -> & _).
    destruct (lookup_lt_is_Some_2 (objects t) row Hrow) as [[k o] Ho].
    destruct (Hprop row k o Ho) as (det & Hnear & _). by exists k, o, det.
  - intros row col k o det Hin Hrow Hcol.
    destruct (objects_row t row k o Hinv Hrow) as (Hk & Ho & _).
    destruct (register_all_lookup_old t_a fresh k Hinv_a) as [-> ->].
    { apply Hfresh. by eapply list_elem_of_lookup_2. }
    destruct (Hmat row col k Hin Hk) as [-> ->]. rewrite Ho.
    destruct (input_centroids_lookup dets col det Hcol) as [E1 E2].
    cbn [fmap option_fmap option_map]. by rewrite E1, E2, Hcentre.
  - intros row k o n Hrow Hnot Hn.
    destruct (objects_row t row k o Hinv Hrow) as (Hk & Ho & _).
    destruct (register_all_lookup_old t_a fresh k Hinv_a) as [-> ->].
    { apply Hfresh. by eapply list_elem_of_lookup_2. }
    assert (Hrow1 : row ∉ M.*1).
    { intros ([row' col] & -> & Hin)%list_elem_of_fmap. by apply (Hnot col). }
    specialize (Hunm row k Hk Hrow1).
    rewrite (counter_present t k n Hn), Ho in Hunm. exact Hunm.
  - unfold new_cols. rewrite range_minus_perm.
    rewrite (list_filter_iff (λ col, col ∉ (list_to_set M.*2 : gset nat))
               (λ col, col ∉ M.*2)); [done|].
    intros col. by rewrite elem_of_list_to_set.
  - destruct (register_all_next fresh t_a) as [-> _].
    unfold fresh. by rewrite length_map, Hn_a.
  - exact Hnew.
  - intros k Hnone Hk.
    rewrite register_all_objects by apply Hinv_a. rewrite lookup_app_dict.
    assert (Dict.lookup k (objects t_a) = None) as ->.
    { apply Hother. by apply lookup_None. }
    apply lookup_None. rewrite (keys_zip_with_seq new_track), elem_of_seq.
    unfold fresh. rewrite length_map, Hn_a. lia.
  - intros col det Hcol Hfar.
    assert (Hnone : ∀ row, (row, col) ∉ M).
    { intros row Hin.
      pose proof (matches_elem t dets row col Hdets Hin) as (Hrow & _ & _ & Hgate).
      destruct (lookup_lt_is_Some_2 (objects t) row Hrow) as [[k o] Ho].
      fold D in Hgate. rewrite (Hentry row col k o det Ho Hcol) in Hgate.
      specialize (Hfar row k o Ho). unfold gate in Hgate. lia. }
    split; [done|].
    assert (Hin : col ∈ new_cols).
    { apply elem_of_range_minus. split; [by eapply lookup_lt_Some|].
      rewrite elem_of_list_to_set.
      intros ([row col'] & -> & Hin)%list_elem_of_fmap. by apply (Hnone row). }
    apply list_elem_of_lookup in Hin as [j Hj]. exists j. split; [done|].
    by apply (Hnew j col det).
Qed.

Lemma two_tracks_inv : tracker_inv two_tracks.
Proof.
  split; simpl.
  - reflexivity.
  - apply NoDup_cons. split; [|apply NoDup_singleton].
    intros [=]%list_elem_of_singleton.
  - repeat constructor.
Qed.

Lemma update_greedy_association_witness :
  ∃ t', update (rt := stable_order) two_tracks
          [{| det_bbox := (1, 0, 3, 2)%Z |}] = Ok t'.
Proof.
  destruct (update_greedy_association (rt := stable_order) two_tracks
              [{| det_bbox := (1, 0, 3, 2)%Z |}])
    as (t' & rows & M & new_cols & Hup & _).
  - exact two_tracks_inv.
  - discriminate.
  - discriminate.
  - exists t'. exact Hup.
Defined.

(** The example of the specification: tracks at (0,0) and (100,100), one
    detection at (2,1).  The first track takes the detection, the second
    ages by one frame. *)
Example update_two_tracks_one_detection :
  ∃ t', update (rt := stable_order) two_tracks
          [{| det_bbox := (1, 0, 3, 2)%Z |}] = Ok t' ∧
        matches (rt := stable_order) two_tracks
          [{| det_bbox := (1, 0, 3, 2)%Z |}] = [(0, 0)] ∧
        centroid <$> Dict.lookup 0 (objects t') = Some (2, 1)%Z ∧
        centroid <$> Dict.lookup 1 (objects t') = Some (100, 100)%Z ∧
        disappeared t' = [(0, 0); (1, 1)].
Proof. eexists. split_and!; vm_compute; reflexivity. Qed.

(** What the run-time system leaves open shows in the result.  Two tracks
    are at the same distance from one detection: the track that [argsort]
    puts first takes it, the other one ages.  Two detections are far from
    every track: the one that the iteration of [unused_cols] yields first
    gets the smaller id. *)
Example update_depends_on_the_orders :
  disappeared (state_of (update (rt := stable_order) tied_tracks
                           [{| det_bbox := (4, -1, 6, 1)%Z |}]))
    = [(0, 0); (1, 1)] ∧
  disappeared (state_of (update (rt := descending_order) tied_tracks
                           [{| det_bbox := (4, -1, 6, 1)%Z |}]))
    = [(0, 1); (1, 0)] ∧
  (bbox <$> Dict.lookup 2 (objects (state_of
     (update (rt := stable_order) two_tracks
        [{| det_bbox := (500, 0, 502, 2)%Z |};
         {| det_bbox := (700, 0, 702, 2)%Z |}]))))
    = Some (500, 0, 502, 2)%Z ∧
  (bbox <$> Dict.lookup 2 (objects (state_of
     (update (rt := descending_order) two_tracks
        [{| det_bbox := (500, 0, 502, 2)%Z |};
         {| det_bbox := (700, 0, 702, 2)%Z |}]))))
    = Some (700, 0, 702, 2)%Z.
Proof. split_and!; vm_compute; reflexivity. Qed.
Section tracker_ids.
Context {rt : Runtime}.

Lemma assign_face_id_inv t k fid :
  tracker_inv t → tracker_inv (state_of (assign_face_id t k fid)).
Proof.
  intros [Hk Hnd Hfr]. unfold assign_face_id. simpl.
  destruct (Dict.mem k (objects t)); simpl; [|done].
  split; simpl; by rewrite ?keys_alter.
Qed.

Lemma deregister_inv t k :
  tracker_inv t → tracker_inv (state_of (deregister t k)).
Proof.
  intros Hinv. destruct (decide (k ∈ Dict.keys (objects t))) as [Hin|Hnot].
  - by destruct (deregister_present t k Hinv Hin) as (t' & -> & ? & _).
  - by rewrite deregister_absent.
Qed.

(** C10.  The invariant of the tracker (the objects and the counters have
    the same keys, in the same order) holds initially and is kept by
    [register], by [deregister] (whether it returns or raises) and by
    [assign_face_id]; [update] never raises on a state that satisfies it,
    keeps it, and every track of the mapping it returns has a disappearance
    counter, which is at most [max_disappeared]. *)
Theorem tracker_keys_agree_counters_bounded (t : FaceTracker) :
  tracker_inv t →
  (∀ m, tracker_inv (init m)) ∧
  (∀ c b, Dict.keys (objects (register t c b).1) =
            Dict.keys (disappeared (register t c b).1) ∧
          tracker_inv (register t c b).1) ∧
  (∀ k, Dict.keys (objects (state_of (deregister t k))) =
          Dict.keys (disappeared (state_of (deregister t k))) ∧
        tracker_inv (state_of (deregister t k))) ∧
  (∀ k fid, tracker_inv (state_of (assign_face_id t k fid))) ∧
  (∀ dets, ∃ t',
     update t dets = Ok t' ∧ tracker_inv t' ∧
     Dict.keys (objects t') = Dict.keys (disappeared t') ∧
     ∀ k o, Dict.lookup k (objects t') = Some o →
       ∃ c, Dict.lookup k (disappeared t') = Some c ∧ c ≤ max_disappeared t').
Proof.
  intros Hinv. split_and!.
  - apply init_inv.
  - intros c b. pose proof (register_inv t c b Hinv) as H. split; [apply H | done].
  - intros k. pose proof (deregister_inv t k Hinv) as H. split; [apply H | done].
  - intros k fid. by apply assign_face_id_inv.
  - intros dets.
    destruct (update_spec t dets Hinv) as (t' & kept & n & Hup & Hinv' & Hm & _ & _ & _ & Hc).
    exists t'. split_and!; [done | done | apply Hinv' |].
    intros k o Hk.
    destruct (proj2 (lookup_is_Some k (disappeared t'))) as [c Hkc].
    { destruct Hinv' as [<- _ _]. apply lookup_is_Some. eauto. }
    exists c. split; [done|]. rewrite Hm. by eapply Hc.
Qed.

(** ** Track ids *)

Lemma filter_all {A : Type} (P : A → Prop) `{∀ x, Decision (P x)} (l : list A) :
  Forall P l → filter P l = l.
Proof.
  induction 1 as [|x l Hx Hl IH]; [done|].
  by rewrite filter_cons_True, IH.
Qed.

Lemma filter_none {A : Type} (P : A → Prop) `{∀ x, Decision (P x)} (l : list A) :
  Forall (λ x, ¬ P x) l → filter P l = [].
Proof.
  induction 1 as [|x l Hx Hl IH]; [done|].
  by rewrite filter_cons_False.
Qed.

Lemma new_ids_seq t t' kept n :
  tracker_inv t →
  Dict.keys (objects t') = kept ++ seq (next_object_id t) n →
  kept ⊆ Dict.keys (objects t) →
  new_ids t t' = seq (next_object_id t) n.
Proof.
  intros [_ _ Hfr] Hkeys Hkept. unfold new_ids. rewrite Hkeys, filter_app.
  rewrite Forall_forall in Hfr.
  assert (filter (λ k, k ∉ Dict.keys (objects t)) kept = []) as ->.
  { apply filter_none, Forall_forall. intros k Hk Hnot. by apply Hnot, Hkept. }
  simpl. apply filter_all.
  apply Forall_forall. intros k Hk%elem_of_seq Hin%Hfr. lia.
Qed.

Lemma assigned_ids_spec frames : ∀ t,
  tracker_inv t →
  ∃ t', updates t frames = Ok t' ∧ tracker_inv t' ∧
        next_object_id t ≤ next_object_id t' ∧
        assigned_ids t frames =
          seq (next_object_id t) (next_object_id t' - next_object_id t).
Proof.
  induction frames as [|dets frames IH]; intros t Hinv.
  - exists t. split_and!; [done | done | lia |]. by rewrite Nat.sub_diag.
  - destruct (update_spec t dets Hinv)
      as (t1 & kept & n & Hup & Hinv1 & _ & Hn & Hkeys & Hkept & _).
    destruct (IH t1 Hinv1) as (t' & Hups & Hinv' & Hle & Hids).
    exists t'. rewrite updates_cons, Hup. simpl. rewrite Hup.
    split_and!; [done | done | lia |].
    rewrite (new_ids_seq t t1 kept n) by done. rewrite Hids.
    replace (next_object_id t' - next_object_id t)
      with (n + (next_object_id t' - next_object_id t1)) by lia.
    rewrite seq_app. by rewrite Hn.
Qed.

(** C5.  [register] returns the id counter and increments it.  From a
    state that satisfies the invariant of the tracker (the initial state
    does), no sequence of [update] calls raises; the ids it hands out are
    consecutive from [next_object_id], hence strictly increasing; and an id
    that was ever in use, whether its track is still active or has been
    removed, is never handed out again by later calls. *)
Theorem track_ids_increase_never_reused (t : FaceTracker)
    (frames : list (list Detection)) :
  tracker_inv t →
  (∀ c b, (register t c b).2 = next_object_id t ∧
          next_object_id (register t c b).1 = S (next_object_id t) ∧
          Dict.lookup (next_object_id t) (objects (register t c b).1) =
            Some (new_track (c, b))) ∧
  (∃ t', updates t frames = Ok t' ∧
         assigned_ids t frames =
           seq (next_object_id t) (next_object_id t' - next_object_id t)) ∧
  StronglySorted lt (assigned_ids t frames) ∧
  (∀ k, k ∈ Dict.keys (objects t) → k ∉ assigned_ids t frames) ∧
  (∀ later t' k,
     updates t frames = Ok t' →
     k ∈ Dict.keys (objects t) ∨ k ∈ assigned_ids t frames →
     k ∉ assigned_ids t' later).
Proof.
  intros Hinv.
  destruct (assigned_ids_spec frames t Hinv) as (t' & Hups & Hinv' & Hle & Hids).
  assert (Hold : ∀ k, k ∈ Dict.keys (objects t) → k < next_object_id t).
  { destruct Hinv as [_ _ Hfr]. by rewrite Forall_forall in Hfr. }
  split_and!.
  - intros c b. split_and!; [done | done |]. apply lookup_store_eq.
  - by exists t'.
  - rewrite Hids. apply seq_sorted.
  - intros k Hk. rewrite Hids. intros Hin%elem_of_seq. apply Hold in Hk. lia.
  - intros later t'' k Hups' Hk. rewrite Hups in Hups'. injection Hups' as <-.
    destruct (assigned_ids_spec later t' Hinv') as (t2 & _ & _ & _ & ->).
    intros Hin%elem_of_seq.
    destruct Hk as [Hk%Hold|Hk]; [lia|].
    rewrite Hids in Hk. apply elem_of_seq in Hk. lia.
Qed.

(** ** Identities of tracks *)


End tracker_ids.

Lemma tracker_keys_agree_counters_bounded_witness :
  ∃ t', update (rt := stable_order) two_tracks
          [{| det_bbox := (1, 0, 3, 2)%Z |}] = Ok t' ∧
        Dict.keys (objects t') = Dict.keys (disappeared t').
Proof.
  destruct (tracker_keys_agree_counters_bounded (rt := stable_order)
              two_tracks two_tracks_inv)
    as (_ & _ & _ & _ & Hup).
  destruct (Hup [{| det_bbox := (1, 0, 3, 2)%Z |}]) as (t' & H1 & _ & H2 & _).
  exists t'. split; [exact H1 | exact H2].
Defined.

Lemma track_ids_increase_never_reused_witness :
  StronglySorted lt
    (assigned_ids (rt := stable_order) (init 1)
       [[{| det_bbox := (0, 0, 20, 20)%Z |}]; []; [];
        [{| det_bbox := (0, 0, 20, 20)%Z |}]]).
Proof.
  apply (track_ids_increase_never_reused (rt := stable_order) (init 1)).
  apply init_inv.
Defined.


Lemma lookup_total_lookup_Z (l : list Z) (i : nat) :
  i < length l → l !! i = Some (l !!! i).
Proof.
  intros H. destruct (lookup_lt_is_Some_2 l i H) as [x Hx].
  by rewrite (list_lookup_total_correct _ _ _ Hx).
Qed.
(** ** The per-row assignment and the global greedy matching *)



Lemma StronglySorted_weaken {A : Type} (R R' : relation A) (l : list A) :
  (∀ x y, R x y → R' x y) → StronglySorted R l → StronglySorted R' l.
Proof.
  intros HR. induction 1 as [|x l Hl IH Hx]; constructor; [done|].
  eapply Forall_impl; [exact Hx | auto].
Qed.

Lemma sort_by_ascending {A : Type} (key : A → Z) (l : list A) :
  StronglySorted (λ x y, (key x ≤ key y)%Z) (sort_by key l).
Proof.
  apply (StronglySorted_weaken (before key (λ _ _, True))).
  { intros x y [?|[? _]]; lia. }
  apply sort_by_sorted. induction l; constructor; [done|].
  by apply Forall_forall.
Qed.

Section greedy.
Context (oc ic : list Point) (Hic : ic ≠ []).
Local Notation D := (cdist oc ic).









(** The column of the best candidate of a row, in terms of the distances:
    it is the first column that holds the minimum of the row. *)
Lemma argmin_nearest row p :
  oc !! row = Some p →
  ∃ q, ic !! argmin (D !!! row) = Some q ∧
    row_min (D !!! row) = sqdist p q ∧
    (∀ c q', ic !! c = Some q' → (sqdist p q ≤ sqdist p q')%Z) ∧
    (∀ c q', c < argmin (D !!! row) → ic !! c = Some q' →
       (sqdist p q < sqdist p q')%Z).
Proof.
  intros Hp. rewrite (lookup_total_cdist _ _ _ _ Hp).
  set (ds := map (sqdist p) ic).
  assert (Hne : ds ≠ []) by (unfold ds; destruct ic; [done | discriminate]).
  assert (Hds : ∀ c q', ic !! c = Some q' → ds !! c = Some (sqdist p q')).
  { intros c q' Hc. unfold ds. by rewrite list_lookup_fmap, Hc. }
  destruct (lookup_lt_is_Some_2 ic (argmin ds)) as [q Hq].
  { replace (length ic) with (length ds) by (unfold ds; by rewrite length_map).
    by apply argmin_lt. }
  pose proof (argmin_lookup ds Hne) as Hmin. rewrite (Hds _ _ Hq) in Hmin.
  injection Hmin as Hmin. exists q. split_and!; [done | done | |].
  - intros c q' Hc. rewrite Hmin. eapply row_min_le, Hds, Hc.
  - intros c q' Hlt Hc. rewrite Hmin. eapply argmin_first; [by apply Hds | done].
Qed.

Lemma nearest_argmin row p col q :
  oc !! row = Some p → ic !! col = Some q →
  (∀ c q', ic !! c = Some q' → (sqdist p q ≤ sqdist p q')%Z) →
  (∀ c q', c < col → ic !! c = Some q' → (sqdist p q < sqdist p q')%Z) →
  col = argmin (D !!! row).
Proof.
  intros Hp Hq Hle Hlt.
  destruct (argmin_nearest row p Hp) as (q0 & Hq0 & _ & Hle0 & Hlt0).
  destruct (Nat.lt_trichotomy col (argmin (D !!! row))) as [H|[H|H]]; [|done|].
  - specialize (Hlt0 col q H Hq). specialize (Hle _ _ Hq0). lia.
  - specialize (Hlt _ _ H Hq0). specialize (Hle0 _ _ Hq). lia.
Qed.
End greedy.
Section greedy_equivalence.
Context {rt : Runtime}.
Context (oc ic : list Point) (Hic : ic ≠ []).
Local Notation D := (cdist oc ic).
Context (Hinj : ∀ r r', r < length oc → r' < length oc →
                  argmin (D !!! r) = argmin (D !!! r') → r = r').




Context (Hgate : ∀ r, r < length oc → (row_min (D !!! r) ≤ gate)%Z).


End greedy_equivalence.




(** * Further properties of the tracker *)

(** ** [deregister] *)

(** X1.  On a tracker state that satisfies the invariant, [deregister] of
    an id without a track raises [KeyError] and changes nothing; on the id
    of a track it returns, the track, its counter and its entry in
    [face_id_map] are gone, every other track, counter and identity is as it
    was, the id counter is unchanged and the invariant still holds. *)
Theorem deregister_spec (t : FaceTracker) (k : nat) :
  tracker_inv t →
  (k ∉ Dict.keys (objects t) → deregister t k = KeyError t) ∧
  (k ∈ Dict.keys (objects t) →
   ∃ t', deregister t k = Ok t' ∧ tracker_inv t' ∧
     Dict.lookup k (objects t') = None ∧
     Dict.lookup k (disappeared t') = None ∧
     get_face_id t' k = None ∧
     next_object_id t' = next_object_id t ∧
     ∀ k', k' ≠ k →
       Dict.lookup k' (objects t') = Dict.lookup k' (objects t) ∧
       Dict.lookup k' (disappeared t') = Dict.lookup k' (disappeared t) ∧
       get_face_id t' k' = get_face_id t k').
Proof.
  intros Hinv. split; [apply deregister_absent|].
  intros Hin. pose proof Hinv as [Hk _ _]. unfold deregister.
  rewrite (proj2 (mem_true k (objects t)) Hin). simpl.
  rewrite (proj2 (mem_true k (disappeared t))) by (by rewrite <- Hk).
  eexists. split; [reflexivity|]. unfold get_face_id. simpl.
  split_and!.
  - destruct (deregister_present t k Hinv Hin) as (t' & Hd & Hinv' & Ho & Hdis & _).
    unfold deregister in Hd.
    rewrite (proj2 (mem_true k (objects t)) Hin) in Hd. simpl in Hd.
    rewrite (proj2 (mem_true k (disappeared t))) in Hd by (by rewrite <- Hk).
    injection Hd as <-. exact Hinv'.
  - apply lookup_remove_eq.
  - apply lookup_remove_eq.
  - apply lookup_delete_eq.
  - done.
  - intros k' Hne. split_and!.
    + by apply lookup_remove_ne.
    + by apply lookup_remove_ne.
    + by apply lookup_delete_ne.
Qed.

Lemma deregister_spec_witness :
  ∃ t', deregister two_tracks 0 = Ok t' ∧ Dict.keys (objects t') = [1].
Proof.
  destruct (deregister_spec two_tracks 0 two_tracks_inv) as [_ H].
  destruct H as (t' & Hd & _).
  - vm_compute. left.
  - exists t'. split; [exact Hd|].
    vm_compute in Hd. injection Hd as <-. reflexivity.
Defined.
Section identities.
Context {rt : Runtime}.

(** ** Identities of tracks across the tracker operations *)

Lemma for_each_state_inv {S A : Type} (P : S → Prop) (body : S → A → result S)
    (items : list A) :
  (∀ s x, P s → P (state_of (body s x))) →
  ∀ s, P s → P (state_of (for_each body items s)).
Proof.
  intros Hbody. induction items as [|x items IH]; intros s Hs; [done|].
  simpl. specialize (Hbody s x Hs).
  destruct (body s x) as [s1|s1]; simpl in *; [by apply IH | done].
Qed.

Lemma fold_left_inv {S A : Type} (P : S → Prop) (step : S → A → S)
    (items : list A) :
  (∀ s x, P s → P (step s x)) → ∀ s, P s → P (fold_left step items s).
Proof.
  intros Hstep. induction items as [|x items IH]; intros s Hs; [done|].
  simpl. by apply IH, Hstep.
Qed.

Lemma init_consistent m : ids_consistent (init m).
Proof. intros k. simpl. apply lookup_empty. Qed.

Lemma register_consistent t c b :
  tracker_inv t → ids_consistent t → ids_consistent (register t c b).1.
Proof.
  intros [_ _ Hfr] Hc k. simpl.
  assert (Hnew : Dict.lookup (next_object_id t) (objects t) = None).
  { apply lookup_None. intros Hin. rewrite Forall_forall in Hfr.
    apply Hfr in Hin. lia. }
  destruct (decide (k = next_object_id t)) as [->|Hne].
  - rewrite lookup_store_eq, Hc, Hnew. done.
  - rewrite lookup_store_ne by done. apply Hc.
Qed.

Lemma removed_consistent t k :
  ids_consistent t →
  ids_consistent
    (set_face_id_map (set_objects t (Dict.remove k (objects t)))
       (delete k (face_id_map t))).
Proof.
  intros Hc k'. simpl. destruct (decide (k' = k)) as [->|Hne].
  - by rewrite lookup_delete_eq, lookup_remove_eq.
  - rewrite lookup_delete_ne, lookup_remove_ne by done. apply Hc.
Qed.

Lemma deregister_consistent t k :
  tracker_inv t → ids_consistent t → ids_consistent (state_of (deregister t k)).
Proof.
  intros Hinv Hc. destruct (decide (k ∈ Dict.keys (objects t))) as [Hin|Hnot].
  - pose proof Hinv as [Hk _ _]. unfold deregister.
    rewrite (proj2 (mem_true k (objects t)) Hin). simpl.
    rewrite (proj2 (mem_true k (disappeared t))) by (by rewrite <- Hk).
    simpl. intros k'. apply (removed_consistent t k Hc k').
  - by rewrite deregister_absent.
Qed.

Lemma age_consistent t k : ids_consistent t → ids_consistent (state_of (age t k)).
Proof.
  intros Hc. unfold age. case_decide; [|done].
  unfold deregister. simpl.
  destruct (Dict.mem k (objects t)); simpl; [|done].
  rewrite (proj2 (mem_true k (Dict.store k _ (disappeared t)))).
  - simpl. intros k'. apply (removed_consistent t k Hc k').
  - apply lookup_is_Some. rewrite lookup_store_eq. eauto.
Qed.

Lemma write_match_consistent ids ic ib t rc :
  ids_consistent t → ids_consistent (write_match ids ic ib t rc).
Proof.
  intros Hc k. destruct rc as [row col]. simpl. rewrite Hc.
  destruct (decide (ids !!! row = k)) as [<-|Hne].
  - rewrite lookup_alter_eq. by destruct (Dict.lookup _ _).
  - by rewrite lookup_alter_ne.
Qed.

Lemma register_all_consistent new : ∀ t,
  tracker_inv t → ids_consistent t → ids_consistent (register_all t new).
Proof.
  induction new as [|[c b] new IH]; intros t Hinv Hc; cbn [register_all]; [done|].
  apply IH; [by apply register_inv | by apply register_consistent].
Qed.

Lemma assign_face_id_consistent t k fid o :
  Dict.lookup k (objects t) = Some o → ids_consistent t →
  ids_consistent (state_of (assign_face_id t k fid)).
Proof.
  intros Ho Hc. unfold assign_face_id. simpl.
  cbn [objects set_face_id_map].
  rewrite (proj2 (mem_true k (objects t))) by (apply lookup_is_Some; eauto).
  intros k'. cbn [state_of objects face_id_map set_objects set_face_id_map].
  destruct (decide (k' = k)) as [->|Hne].
  - by rewrite lookup_insert_eq, lookup_alter_eq, Ho.
  - rewrite lookup_insert_ne, lookup_alter_ne by done. apply Hc.
Qed.

(** The state between the ageing loop and the registration loop of an
    [update] with tracks and detections. *)
Lemma update_match_aged t dets :
  tracker_inv t → objects t ≠ [] → dets ≠ [] →
  ∃ t_a,
    age_all (map (λ row, Dict.keys (objects t) !!! row)
               (range_minus (length (Dict.keys (objects t)))
                  (list_to_set (matches t dets).*1)))
      (fold_left (write_match (Dict.keys (objects t)) (input_centroids_of dets)
                    (map det_bbox dets)) (matches t dets) t) = Ok t_a ∧
    tracker_inv t_a ∧
    update t dets =
      Ok (register_all t_a
            (map (λ col, (input_centroids_of dets !!! col, map det_bbox dets !!! col))
               (range_minus (length dets) (list_to_set (matches t dets).*2)))).
Proof.
  intros Hinv Hobj Hdets.
  rewrite (update_match_decompose t dets Hobj Hdets). cbn zeta.
  destruct (write_matches_spec (Dict.keys (objects t)) (input_centroids_of dets)
              (map det_bbox dets) (matches t dets) t Hinv eq_refl)
    as (Hinv_m & Hkeys_m & _).
  { apply matched_pairs_NoDup. }
  { intros row col Hin. rewrite length_keys.
    by apply matches_elem in Hin as [? _]. }
  destruct (age_all_spec
              (map (λ row, Dict.keys (objects t) !!! row)
                 (range_minus (length (Dict.keys (objects t)))
                  (list_to_set (matches t dets).*1)))
              _ Hinv_m) as (t_a & Hage & Hinv_a & _).
  { apply aged_NoDup, Hinv. }
  { intros k (row & Hrow & _)%elem_of_aged. rewrite Hkeys_m.
    by eapply list_elem_of_lookup_2. }
  exists t_a. rewrite Hage. done.
Qed.

Lemma update_no_tracks t dets :
  objects t = [] → dets ≠ [] →
  update t dets =
    Ok (register_all t (zip (input_centroids_of dets) (map det_bbox dets))).
Proof.
  intros Hobj Hdets. unfold update.
  rewrite decide_False by (destruct dets; [done | simpl; lia]).
  by rewrite decide_True by (by rewrite Hobj).
Qed.

Lemma update_consistent t dets :
  tracker_inv t → ids_consistent t →
  ∀ t', update t dets = Ok t' → ids_consistent t'.
Proof.
  intros Hinv Hc t' Hup. destruct dets as [|det dets].
  { rewrite update_empty in Hup.
    pose proof (for_each_state_inv ids_consistent age
                  (Dict.keys (disappeared t)) age_consistent t Hc) as H.
    unfold age_all in Hup. by rewrite Hup in H. }
  destruct (decide (objects t = [])) as [Hobj|Hobj].
  { rewrite update_no_tracks in Hup by done.
    assert (E : register_all t (zip (input_centroids_of (det :: dets))
                                  (map det_bbox (det :: dets))) = t') by congruence.
    rewrite <- E. apply register_all_consistent; [exact Hinv | exact Hc]. }
  destruct (update_match_aged t (det :: dets) Hinv Hobj ltac:(done))
    as (t_a & Hage & Hinv_a & Hup').
  rewrite Hup' in Hup.
  match type of Hup with Ok ?x = _ => assert (E : x = t') by congruence end.
  rewrite <- E. apply register_all_consistent; [done|].
  unfold age_all in Hage.
  match type of Hage with
  | for_each age ?l ?s = _ =>
      assert (Hm : ids_consistent s)
        by (apply fold_left_inv; [intros; by apply write_match_consistent | done]);
      pose proof (for_each_state_inv ids_consistent age l age_consistent s Hm) as H
  end.
  by rewrite Hage in H.
Qed.

Lemma lookup_new_tracks (n : nat) (new : list (Point * BBox)) k o :
  Dict.lookup k (zip_with (λ k cb, (k, new_track cb)) (seq n (length new)) new)
    = Some o →
  n ≤ k ∧ face_id o = None.
Proof.
  intros H%lookup_elem_of.
  apply elem_of_zip_with in H as (k' & cb & [= -> ->] & Hk%elem_of_seq & _).
  split; [lia | done].
Qed.

Lemma update_identities_kept t dets :
  tracker_inv t → ∀ t', update t dets = Ok t' → identities_kept t t'.
Proof.
  intros Hinv t' Hup k o' Hk. destruct dets as [|det dets].
  { destruct (update_empty_spec t Hinv) as (t1 & Hup1 & _ & _ & _ & Ho & _).
    rewrite Hup1 in Hup. injection Hup as <-.
    rewrite Ho in Hk. case_decide; [done|]. left. eauto. }
  destruct (decide (objects t = [])) as [Hobj|Hobj].
  { rewrite update_no_tracks in Hup by done.
    assert (E : register_all t (zip (input_centroids_of (det :: dets))
                                  (map det_bbox (det :: dets))) = t') by congruence.
    rewrite <- E in Hk.
    rewrite register_all_objects, Hobj, app_nil_l in Hk by apply Hinv.
    right. by eapply lookup_new_tracks. }
  destruct (update_match_spec t (det :: dets) Hinv Hobj ltac:(done))
    as (t_a & Hup' & Hinv_a & Hn_a & _ & Hmat & Hunm & Hother).
  cbn zeta in *. rewrite Hup' in Hup.
  match type of Hup with Ok ?x = _ => assert (E : x = t') by congruence end.
  rewrite <- E in Hk.
  rewrite register_all_objects, lookup_app_dict in Hk by apply Hinv_a.
  destruct (Dict.lookup k (objects t_a)) as [o1|] eqn:Hka.
  2:{ right. rewrite <- Hn_a. by eapply lookup_new_tracks. }
  injection Hk as ->. left.
  destruct (decide (k ∈ Dict.keys (objects t))) as [Hin|Hnot];
    [|apply Hother in Hnot; congruence].
  apply list_elem_of_lookup in Hin as [row Hrow].
  destruct (decide (row ∈ (matches t (det :: dets)).*1)) as [Hm|Hm].
  - apply list_elem_of_fmap in Hm as ([row' col] & -> & Hin).
    destruct (Hmat _ _ _ Hin Hrow) as [E1 _]. simpl in E1. rewrite Hka in E1.
    destruct (Dict.lookup k (objects t)) as [o|]; [|done].
    injection E1 as ->. by exists o.
  - specialize (Hunm _ _ Hrow Hm). case_decide.
    + destruct Hunm as [E1 _]. congruence.
    + destruct Hunm as [E1 _]. rewrite Hka in E1. by exists o'.
Qed.

(** X2.  [get_face_id] agrees with the tracks.  The property that
    [face_id_map] holds, for every id, the identity carried by the track of
    that id (and nothing for an id without a track) holds initially and is
    kept by [register], by [deregister], by [assign_face_id] on the id of a
    track and by [update]; after [update], [get_face_id] of a removed track
    returns nothing. *)
Theorem get_face_id_agrees_with_tracks (t : FaceTracker) :
  tracker_inv t → ids_consistent t →
  (∀ m, ids_consistent (init m)) ∧
  (∀ c b, ids_consistent (register t c b).1) ∧
  (∀ k, ids_consistent (state_of (deregister t k))) ∧
  (∀ k o fid, Dict.lookup k (objects t) = Some o →
     ids_consistent (state_of (assign_face_id t k fid))) ∧
  (∀ dets, ∃ t', update t dets = Ok t' ∧ ids_consistent t' ∧
     ∀ k, get_face_id t' k = Dict.lookup k (objects t') ≫= face_id).
Proof.
  intros Hinv Hc. split_and!.
  - apply init_consistent.
  - intros c b. by apply register_consistent.
  - intros k. by apply deregister_consistent.
  - intros k o fid Ho. by eapply assign_face_id_consistent.
  - intros dets.
    destruct (update_spec t dets Hinv) as (t' & _ & _ & Hup & _).
    exists t'. pose proof (update_consistent t dets Hinv Hc t' Hup) as Hc'.
    split_and!; [done | done |]. intros k. apply Hc'.
Qed.

(** X3.  [update] never gives, changes or drops the identity of a track
    that stays: on a state that satisfies the invariant it returns, and
    every track of the result either was a track before, with the same
    identity, or is a new track, with an id not used before and without
    identity. *)
Theorem update_keeps_identities (t : FaceTracker) (dets : list Detection) :
  tracker_inv t →
  ∃ t', update t dets = Ok t' ∧
    ∀ k o', Dict.lookup k (objects t') = Some o' →
      (∃ o, Dict.lookup k (objects t) = Some o ∧ face_id o' = face_id o) ∨
      (next_object_id t ≤ k ∧ Dict.lookup k (objects t) = None ∧
       face_id o' = None).
Proof.
  intros Hinv.
  destruct (update_spec t dets Hinv) as (t' & _ & _ & Hup & _).
  exists t'. split; [done|]. intros k o' Hk.
  destruct (update_identities_kept t dets Hinv t' Hup k o' Hk) as [?|[Hn Hf]];
    [by left | right].
  split_and!; [done | | done].
  apply lookup_None. intros Hin. destruct Hinv as [_ _ Hfr].
  rewrite Forall_forall in Hfr. apply Hfr in Hin. lia.
Qed.

End identities.

Lemma get_face_id_agrees_with_tracks_witness :
  ∃ t', update (rt := stable_order) two_tracks [] = Ok t' ∧ ids_consistent t'.
Proof.
  assert (Hc : ids_consistent two_tracks).
  { intros k. unfold two_tracks. simpl. rewrite lookup_empty.
    destruct k as [|[|k]]; reflexivity. }
  destruct (get_face_id_agrees_with_tracks (rt := stable_order)
      two_tracks two_tracks_inv Hc)
    as (_ & _ & _ & _ & H).
  destruct (H []) as (t' & H1 & H2 & _).
  exists t'. split; [exact H1 | exact H2].
Defined.

Lemma update_keeps_identities_witness :
  ∃ t', update (rt := stable_order)
      two_tracks [{| det_bbox := (1, 0, 3, 2)%Z |}] = Ok t'.
Proof.
  destruct (update_keeps_identities (rt := stable_order)
      two_tracks [{| det_bbox := (1, 0, 3, 2)%Z |}]
              two_tracks_inv) as (t' & H & _).
  by exists t'.
Defined.
Section one_to_one.
Context {rt : Runtime}.

(** ** What [update] does with the detections *)

Lemma NoDup_fst_agree {A B : Type} (l : list (A * B)) a b b' :
  NoDup l.*1 → (a, b) ∈ l → (a, b') ∈ l → b = b'.
Proof.
  intros Hnd [i Hi]%list_elem_of_lookup [j Hj]%list_elem_of_lookup.
  assert (i = j) as ->; [|congruence].
  eapply NoDup_lookup; [exact Hnd | |]; rewrite list_lookup_fmap.
  - by rewrite Hi.
  - by rewrite Hj.
Qed.

Lemma NoDup_snd_agree {A B : Type} (l : list (A * B)) a a' b :
  NoDup l.*2 → (a, b) ∈ l → (a', b) ∈ l → a = a'.
Proof.
  intros Hnd [i Hi]%list_elem_of_lookup [j Hj]%list_elem_of_lookup.
  assert (i = j) as ->; [|congruence].
  eapply NoDup_lookup; [exact Hnd | |]; rewrite list_lookup_fmap.
  - by rewrite Hi.
  - by rewrite Hj.
Qed.

Lemma NoDup_bounded_length (l : list nat) (n : nat) :
  NoDup l → (∀ x, x ∈ l → x < n) → length l ≤ n.
Proof.
  intros Hnd Hlt. transitivity (length (seq 0 n)); [|by rewrite length_seq].
  apply submseteq_length, NoDup_submseteq; [done|].
  intros x Hx. apply elem_of_seq. specialize (Hlt x Hx). lia.
Qed.

(** X4.  The matching of [update] is one-to-one: no track is matched to
    two detections and no detection to two tracks, so there are at most as
    many matches as tracks and as detections. *)
Theorem matches_one_to_one (t : FaceTracker) (dets : list Detection) :
  dets ≠ [] →
  NoDup (matches t dets).*1 ∧ NoDup (matches t dets).*2 ∧
  (∀ row col col', (row, col) ∈ matches t dets → (row, col') ∈ matches t dets →
     col = col') ∧
  (∀ row row' col, (row, col) ∈ matches t dets → (row', col) ∈ matches t dets →
     row = row') ∧
  length (matches t dets) ≤ length (objects t) ∧
  length (matches t dets) ≤ length dets.
Proof.
  intros Hdets.
  destruct (matched_pairs_NoDup (distances t dets) (row_order (distances t dets)) ∅ ∅)
    as [Hr Hc].
  fold (assignment (distances t dets)) in Hr, Hc. fold (matches t dets) in Hr, Hc.
  split_and!; [done | done | | | |].
  - intros row col col'. by apply NoDup_fst_agree.
  - intros row row' col. by apply NoDup_snd_agree.
  - rewrite <- (length_fmap fst). apply NoDup_bounded_length; [done|].
    intros row ([row' col] & -> & Hin)%list_elem_of_fmap.
    by apply matches_elem in Hin as [? _].
  - rewrite <- (length_fmap snd). apply NoDup_bounded_length; [done|].
    intros col ([row col'] & -> & Hin)%list_elem_of_fmap.
    by apply matches_elem in Hin as (_ & ? & _).
Qed.


End one_to_one.

Lemma matches_one_to_one_witness :
  length (matches (rt := stable_order)
      two_tracks [{| det_bbox := (1, 0, 3, 2)%Z |}]) ≤ 1.
Proof.
  apply (matches_one_to_one (rt := stable_order)
      two_tracks [{| det_bbox := (1, 0, 3, 2)%Z |}]).
  discriminate.
Defined.

(** * The orchestrator *)

Section orchestrator_facts.
Context {Embedding : Type}.
Variable find_match : Embedding → list (string * Embedding) → option string.
Implicit Types (s : @System Embedding) (f : @Frame Embedding).

Lemma entry_ids_app c1 c2 : entry_ids (c1 ++ c2) = entry_ids c1 ++ entry_ids c2.
Proof. apply omap_app. Qed.

Lemma exit_ids_app c1 c2 : exit_ids (c1 ++ c2) = exit_ids c1 ++ exit_ids c2.
Proof. apply omap_app. Qed.

Lemma grows_refl s s' :
  database s' = database s → tracked_entries s' = tracked_entries s →
  tracked_exits s' = tracked_exits s → grows s s' [].
Proof.
  intros Hd He Hx. unfold grows. simpl. rewrite app_nil_r.
  split_and!; [done | set_solver | set_solver | constructor |].
  by intros fid ?%elem_of_nil.
Qed.

Lemma grows_trans s s1 s2 c1 c2 :
  grows s s1 c1 → grows s1 s2 c2 → grows s s2 (c1 ++ c2).
Proof.
  intros (Hd1 & He1 & Hx1 & Hn1 & Hf1) (Hd2 & He2 & Hx2 & Hn2 & Hf2).
  unfold grows. rewrite entry_ids_app, exit_ids_app, !list_to_set_app_L.
  split_and!.
  - by rewrite Hd2, Hd1, app_assoc.
  - rewrite He2, He1. set_solver.
  - rewrite Hx2, Hx1. set_solver.
  - apply NoDup_app. split_and!; [done | | done].
    intros fid Hin1 Hin2. apply (Hf2 fid Hin2). rewrite He1. set_solver.
  - intros fid [Hin|Hin]%elem_of_app; [by apply Hf1|].
    apply Hf2 in Hin. rewrite He1 in Hin. set_solver.
Qed.

Lemma log_and_mark_entry f s fid b :
  fid ∉ tracked_entries s →
  grows s (log_and_mark f s fid entry_event b)
    [LogEvent fid entry_event (save_face_image f b fid entry_event)
       (log_event f fid entry_event (save_face_image f b fid entry_event))].
Proof.
  intros Hnew. unfold grows. simpl.
  split_and!; [done | set_solver | set_solver | apply NoDup_singleton |].
  by intros fid' ->%list_elem_of_singleton.
Qed.

Lemma log_and_mark_exit f s fid b :
  grows s (log_and_mark f s fid exit_event b)
    [LogEvent fid exit_event (save_face_image f b fid exit_event)
       (log_event f fid exit_event (save_face_image f b fid exit_event))].
Proof.
  unfold grows. simpl.
  split_and!; [done | set_solver | set_solver | constructor |].
  by intros fid' ?%elem_of_nil.
Qed.

Lemma resolve_grows f dets s item :
  ∃ calls, grows s (state_of (resolve find_match f dets s item)) calls ∧
           exit_ids calls = [].
Proof.
  destruct item as [obj_id obj_data]. unfold resolve.
  case_bool_decide; [|exists []; split; [by apply grows_refl | done]].
  destruct (get_embedding f (bbox obj_data)) as [embedding|];
    [|exists []; split; [by apply grows_refl | done]].
  set (choice := match find_match embedding (known_embeddings s) with
                 | Some matched_id => (matched_id, s)
                 | None => new_face f s embedding
                 end).
  assert (Hs1 : ∃ c1, grows s choice.2 c1 ∧ exit_ids c1 = [] ∧ entry_ids c1 = []).
  { unfold choice. destruct (find_match _ _).
    - exists []. split; [by apply grows_refl | done].
    - exists [RegisterFace (face_label (next_face_id s))
                (register_face f (face_label (next_face_id s)))].
      split; [|done]. unfold grows. simpl.
      split_and!; [done | set_solver | set_solver | constructor |].
      by intros fid ?%elem_of_nil. }
  destruct choice as [fid s1]. simpl in Hs1. destruct Hs1 as (c1 & Hg1 & Hx1 & He1).
  destruct (assign_face_id (tracker s1) obj_id fid) as [t'|t'] eqn:Hassign; simpl.
  - case_bool_decide as Hin; simpl.
    + exists c1. split; [|done].
      rewrite <- (app_nil_r c1). eapply grows_trans; [exact Hg1|].
      by apply grows_refl.
    + eexists (c1 ++ [LogEvent fid entry_event _ _]). split.
      * eapply grows_trans; [exact Hg1|].
        eapply grows_trans with (c1 := []); [|by apply log_and_mark_entry].
        by apply grows_refl.
      * by rewrite exit_ids_app, Hx1.
  - exists c1. split; [|done].
    rewrite <- (app_nil_r c1). eapply grows_trans; [exact Hg1|].
    by apply grows_refl.
Qed.

Lemma for_each_resolve_grows f dets items : ∀ s,
  ∃ calls,
    grows s (state_of (for_each (resolve find_match f dets) items s)) calls ∧
    exit_ids calls = [].
Proof.
  induction items as [|item items IH]; intros s; simpl.
  - exists []. split; [by apply grows_refl | done].
  - destruct (resolve_grows f dets s item) as (c1 & Hg1 & Hx1).
    destruct (resolve find_match f dets s item) as [s1|s1]; simpl in *.
    + destruct (IH s1) as (c2 & Hg2 & Hx2). exists (c1 ++ c2). split.
      * by eapply grows_trans.
      * by rewrite exit_ids_app, Hx1, Hx2.
    + by exists c1.
Qed.
End orchestrator_facts.
Section exit_facts.
Context {Embedding : Type} {rt : Runtime}.
Variable find_match : Embedding → list (string * Embedding) → option string.
Implicit Types (s : @System Embedding) (f : @Frame Embedding).

Lemma exit_one_grows f s fid :
  ∃ calls, grows s (exit_one f s fid) calls ∧ entry_ids calls = [] ∧
    tracker (exit_one f s fid) = tracker s ∧
    ∀ x, x ∈ exit_ids calls →
      x = fid ∧
      ∃ o, o ∈ Dict.values (objects (tracker s)) ∧ face_id o = Some fid.
Proof.
  unfold exit_one.
  destruct (List.find _ _) as [o|] eqn:Hfind.
  - apply find_some in Hfind as [Hin Hface].
    apply bool_decide_eq_true in Hface. apply list_elem_of_In in Hin.
    eexists [LogEvent fid exit_event _ _].
    split_and!; [apply log_and_mark_exit | done | done |].
    intros x ->%list_elem_of_singleton. eauto.
  - exists []. split_and!; [by apply grows_refl | done | done |].
    by intros x ?%elem_of_nil.
Qed.

Lemma exit_loop_grows f fids : ∀ s,
  ∃ calls, grows s (fold_left (exit_one f) fids s) calls ∧ entry_ids calls = [] ∧
    tracker (fold_left (exit_one f) fids s) = tracker s ∧
    ∀ x, x ∈ exit_ids calls →
      x ∈ fids ∧
      ∃ o, o ∈ Dict.values (objects (tracker s)) ∧ face_id o = Some x.
Proof.
  induction fids as [|fid fids IH]; intros s; simpl.
  - exists []. split_and!; [by apply grows_refl | done | done |].
    by intros x ?%elem_of_nil.
  - destruct (exit_one_grows f s fid) as (c1 & Hg1 & He1 & Ht1 & Hx1).
    destruct (IH (exit_one f s fid)) as (c2 & Hg2 & He2 & Ht2 & Hx2).
    exists (c1 ++ c2). split_and!.
    + by eapply grows_trans.
    + by rewrite entry_ids_app, He1, He2.
    + congruence.
    + intros x. rewrite exit_ids_app. intros [Hin|Hin]%elem_of_app.
      * destruct (Hx1 x Hin) as [-> ?]. split; [left | done].
      * destruct (Hx2 x Hin) as [? Ho]. rewrite Ht1 in Ho. split; [by right | done].
Qed.

Lemma carried_is_current (objs : list (nat * Track)) (o : Track) (fid : string) :
  o ∈ Dict.values objs → face_id o = Some fid → fid ≠ EmptyString →
  fid ∈ current_face_ids objs.
Proof.
  intros Hin Hface Hne. unfold current_face_ids.
  apply elem_of_list_to_set, list_elem_of_omap. exists o. split; [done|].
  rewrite Hface. simpl. by rewrite decide_False.
Qed.

(** What [process_frame] does to the entered set, the exited set and the
    database, whether it returns or raises: an exit event is only ever
    logged for the empty identity. *)
Lemma process_frame_grows s f :
  ∃ calls, grows s (state_of (process_frame find_match s f)) calls ∧
    ∀ x, x ∈ exit_ids calls →
      x ∈ tracked_entries (state_of (process_frame find_match s f)) ∧
      x = EmptyString.
Proof.
  unfold process_frame.
  set (s0 := set_frame_count s (frame_count s + 1)).
  set (dets := if decide _ then _ else _).
  destruct (update (tracker s0) dets) as [t'|t']; simpl.
  2:{ exists []. split; [by apply grows_refl | by intros x ?%elem_of_nil]. }
  destruct (for_each_resolve_grows find_match f dets (objects t') (set_tracker s0 t'))
    as (c1 & Hg1 & Hx1).
  destruct (for_each _ _ _) as [s2|s2]; simpl in *.
  2:{ exists c1. split.
      - rewrite <- (app_nil_l c1). eapply grows_trans; [|exact Hg1].
        by apply grows_refl.
      - rewrite Hx1. by intros x ?%elem_of_nil. }
  set (exited := tracked_entries s2 ∖ _ ∖ _).
  destruct (exit_loop_grows f (elements exited) s2) as (c2 & Hg2 & He2 & Ht2 & Hx2).
  exists (c1 ++ c2). split.
  - eapply grows_trans; [|exact Hg2].
    rewrite <- (app_nil_l c1). eapply grows_trans; [|exact Hg1].
    by apply grows_refl.
  - intros x. rewrite exit_ids_app, Hx1, app_nil_l. intros Hin.
    destruct (Hx2 x Hin) as [Hex (o & Ho & Hface)].
    apply elem_of_elements in Hex. unfold exited in Hex.
    destruct Hg2 as (_ & He & _). rewrite He, He2. split; [set_solver|].
    destruct (decide (x = EmptyString)) as [|Hne]; [done|].
    pose proof (carried_is_current _ o x Ho Hface Hne). set_solver.
Qed.

Lemma run_grows frames : ∀ s,
  ∃ calls, grows s (state_of (run find_match s frames)) calls ∧
    ∀ x, x ∈ exit_ids calls →
      x ∈ tracked_entries (state_of (run find_match s frames)) ∧
      x = EmptyString.
Proof.
  induction frames as [|f frames IH]; intros s; simpl.
  - exists []. split; [by apply grows_refl | by intros x ?%elem_of_nil].
  - destruct (process_frame_grows s f) as (c1 & Hg1 & Hx1).
    destruct (process_frame find_match s f) as [s1|s1]; simpl in *; [|by exists c1].
    destruct (IH s1) as (c2 & Hg2 & Hx2). exists (c1 ++ c2). split.
    + by eapply grows_trans.
    + intros x. rewrite exit_ids_app. intros [Hin|Hin]%elem_of_app; [|by apply Hx2].
      destruct (Hx1 x Hin) as [He ->]. split; [|done].
      destruct Hg2 as (_ & -> & _). set_solver.
Qed.
End exit_facts.

(** ** The orchestrator never raises *)

Lemma for_each_ok {S A : Type} (Q : S → Prop) (body : S → A → result S)
    (items : list A) :
  (∀ s x, x ∈ items → Q s → ∃ s', body s x = Ok s' ∧ Q s') →
  ∀ s, Q s → ∃ s', for_each body items s = Ok s' ∧ Q s'.
Proof.
  induction items as [|x items IH]; intros Hbody s Hs; [by exists s|].
  destruct (Hbody s x ltac:(left) Hs) as (s1 & Hx & Hs1).
  destruct (IH (λ s y Hy, Hbody s y ltac:(by right)) s1 Hs1) as (s' & Hrest & Hs').
  exists s'. simpl. by rewrite Hx.
Qed.

Lemma assign_face_id_present t k fid :
  k ∈ Dict.keys (objects t) →
  assign_face_id t k fid =
    Ok (set_objects (set_face_id_map t (<[k := fid]> (face_id_map t)))
          (Dict.alter (λ o, {| centroid := centroid o; bbox := bbox o;
                               face_id := Some fid |}) k (objects t))).
Proof.
  intros Hin. unfold assign_face_id. cbn [objects set_face_id_map].
  by rewrite (proj2 (mem_true k (objects t)) Hin).
Qed.

Section system_invariant.
Context {Embedding : Type} {rt : Runtime}.
Variable find_match : Embedding → list (string * Embedding) → option string.
Implicit Types (s : @System Embedding) (f : @Frame Embedding).

Lemma init_system_inv m k known : system_inv (@init_system Embedding m k known).
Proof.
  split_and!; simpl.
  - apply init_inv.
  - apply init_consistent.
  - intros i o fid H. simpl in H. done.
Qed.

(** After [assign_face_id] on a track, with the identity entered. *)
Lemma assigned_inv s s' k fid :
  system_inv s → k ∈ Dict.keys (objects (tracker s)) →
  assign_face_id (tracker s) k fid = Ok (tracker s') →
  tracked_entries s ⊆ tracked_entries s' → fid ∈ tracked_entries s' →
  system_inv s' ∧
  Dict.keys (objects (tracker s')) = Dict.keys (objects (tracker s)).
Proof.
  intros (Hinv & Hc & He) Hin Hassign Hsub Hfid.
  destruct (proj2 (lookup_is_Some k (objects (tracker s))) Hin) as [o Ho].
  pose proof (assign_face_id_inv (tracker s) k fid Hinv) as Hinv'.
  pose proof (assign_face_id_consistent (tracker s) k fid o Ho Hc) as Hc'.
  rewrite Hassign in Hinv', Hc'. simpl in Hinv', Hc'.
  rewrite (assign_face_id_present _ _ _ Hin) in Hassign.
  assert (Ht : tracker s' = set_objects
            (set_face_id_map (tracker s) (<[k := fid]> (face_id_map (tracker s))))
            (Dict.alter (λ o, {| centroid := centroid o; bbox := bbox o;
                                 face_id := Some fid |}) k (objects (tracker s))))
    by congruence.
  split; [split_and!; [done | done |] |].
  - intros k' o' fid' Hk' Hf'. rewrite Ht in Hk'. cbn [objects set_objects] in Hk'.
    destruct (decide (k' = k)) as [->|Hne].
    + rewrite lookup_alter_eq, Ho in Hk'. injection Hk' as <-.
      simpl in Hf'. by injection Hf' as <-.
    + rewrite lookup_alter_ne in Hk' by done. apply Hsub. by eapply He.
  - rewrite Ht. cbn [objects set_objects]. apply keys_alter.
Qed.

Lemma resolve_inv f dets s item :
  system_inv s → item.1 ∈ Dict.keys (objects (tracker s)) →
  ∃ s', resolve find_match f dets s item = Ok s' ∧ system_inv s' ∧
        Dict.keys (objects (tracker s')) = Dict.keys (objects (tracker s)).
Proof.
  intros Hs Hin. destruct item as [obj_id obj_data]. simpl in Hin. unfold resolve.
  case_bool_decide; [|by exists s].
  destruct (get_embedding f (bbox obj_data)) as [embedding|]; [|by exists s].
  set (choice := match find_match embedding (known_embeddings s) with
                 | Some matched_id => (matched_id, s)
                 | None => new_face f s embedding
                 end).
  assert (Hs1 : tracker choice.2 = tracker s ∧
                tracked_entries choice.2 = tracked_entries s).
  { unfold choice. by destruct (find_match _ _). }
  destruct choice as [fid s1]. simpl in Hs1. destruct Hs1 as [Ht1 He1].
  assert (Hs1 : system_inv s1).
  { destruct Hs as (? & ? & He). unfold system_inv, identities_entered.
    rewrite Ht1, He1. done. }
  rewrite <- Ht1 in Hin.
  rewrite (assign_face_id_present (tracker s1) obj_id fid Hin).
  set (t' := set_objects _ _).
  case_bool_decide as Hfid.
  - eexists. split; [reflexivity|]. rewrite <- Ht1.
    apply (assigned_inv s1 (set_tracker s1 t') obj_id fid Hs1 Hin);
      [by apply assign_face_id_present | done | done].
  - eexists. split; [reflexivity|]. rewrite <- Ht1.
    apply (assigned_inv s1 _ obj_id fid Hs1 Hin);
      [by apply assign_face_id_present | simpl; set_solver | simpl; set_solver].
Qed.

Lemma exit_loop_tracker_entries f fids s :
  tracker (fold_left (exit_one f) fids s) = tracker s ∧
  tracked_entries (fold_left (exit_one f) fids s) = tracked_entries s.
Proof.
  destruct (exit_loop_grows f fids s) as (calls & Hg & He & Ht & _).
  split; [done|]. destruct Hg as (_ & -> & _). rewrite He. set_solver.
Qed.

Lemma process_frame_inv s f :
  system_inv s →
  ∃ s', process_frame find_match s f = Ok s' ∧ system_inv s'.
Proof.
  intros (Hinv & Hc & He). unfold process_frame.
  set (s0 := set_frame_count s (frame_count s + 1)).
  set (dets := if decide _ then _ else _).
  change (tracker s0) with (tracker s).
  destruct (update_spec (tracker s) dets Hinv) as (t' & _ & _ & Hup & Hinv' & _).
  rewrite Hup.
  assert (Hs1 : system_inv (set_tracker s0 t')).
  { split_and!;
      [exact Hinv' | exact (update_consistent (tracker s) dets Hinv Hc t' Hup) |].
    intros k o' fid Hk Hf. simpl in Hk |- *.
    destruct (update_identities_kept (tracker s) dets Hinv t' Hup k o' Hk)
      as [(o & Ho & Hsame)|[_ Hnone]]; [|congruence].
    eapply He; [exact Ho | congruence]. }
  destruct (for_each_ok
              (λ s1, system_inv s1 ∧
                     Dict.keys (objects (tracker s1)) = Dict.keys (objects t'))
              (resolve find_match f dets) (objects t')) with (s := set_tracker s0 t')
    as (s2 & Hloop & Hs2 & _).
  { intros s1 item Hitem [Hs1' Hkeys].
    destruct (resolve_inv f dets s1 item Hs1') as (s1' & Hr & Hs1'' & Hkeys').
    { rewrite Hkeys. by apply (list_elem_of_fmap_2 fst). }
    exists s1'. split_and!; [done | done | congruence]. }
  { done. }
  rewrite Hloop. simpl. eexists. split; [reflexivity|].
  destruct (exit_loop_tracker_entries f
              (elements (tracked_entries s2
                           ∖ current_face_ids (objects (tracker s2))
                           ∖ tracked_exits s2)) s2) as [Ht Hent].
  destruct Hs2 as (? & ? & He2). unfold system_inv, identities_entered.
  rewrite Ht, Hent. done.
Qed.

Lemma run_inv frames : ∀ s,
  system_inv s → ∃ s', run find_match s frames = Ok s' ∧ system_inv s'.
Proof.
  induction frames as [|f frames IH]; intros s Hs; [by exists s|].
  destruct (process_frame_inv s f Hs) as (s1 & Hf & Hs1).
  destruct (IH s1 Hs1) as (s' & Hrun & Hs').
  exists s'. simpl. by rewrite Hf.
Qed.
End system_invariant.

(** X6.  The orchestrator never raises a [KeyError]: [process_frame]
    returns on every state that satisfies the invariant of the orchestrator
    and keeps the invariant, whatever the detector, the recognizer and the
    database answer; the initial state satisfies it, so every run from the
    initial state ends normally. *)
Theorem process_frame_never_raises {Embedding : Type} {rt : Runtime}
    (find_match : Embedding → list (string * Embedding) → option string)
    (s : @System Embedding) :
  system_inv s →
  (∀ f, ∃ s', process_frame find_match s f = Ok s' ∧ system_inv s') ∧
  (∀ frames, ∃ s', run find_match s frames = Ok s' ∧ system_inv s') ∧
  (∀ m k known frames,
     ∃ s', run find_match (init_system m k known) frames = Ok s').
Proof.
  intros Hs. split_and!.
  - intros f. by apply process_frame_inv.
  - intros frames. by apply run_inv.
  - intros m k known frames.
    destruct (run_inv find_match frames (init_system m k known)) as (s' & H & _);
      [apply init_system_inv | by exists s'].
Qed.

Lemma process_frame_never_raises_witness :
  ∃ s', run (rt := stable_order) no_match example_system absence_frames = Ok s'.
Proof.
  destruct (process_frame_never_raises (rt := stable_order) no_match example_system
              (init_system_inv 1 0 [])) as (_ & H & _).
  destruct (H absence_frames) as (s' & Hrun & _).
  exists s'. exact Hrun.
Defined.

(** X7.  After every run from the initial state, each identity carried
    by a track is in the entered set, and [get_face_id] of that track
    returns it. *)
Theorem track_identities_are_entered {Embedding : Type} {rt : Runtime}
    (find_match : Embedding → list (string * Embedding) → option string)
    (m k : nat) (known : list (string * Embedding))
    (frames : list (@Frame Embedding)) :
  ∀ i o fid,
    Dict.lookup i (objects (tracker
      (state_of (run find_match (init_system m k known) frames)))) = Some o →
    face_id o = Some fid →
    fid ∈ tracked_entries (state_of (run find_match (init_system m k known) frames)) ∧
    get_face_id (tracker (state_of (run find_match (init_system m k known) frames))) i
      = Some fid.
Proof.
  destruct (run_inv find_match frames (init_system m k known))
    as (s' & -> & _ & Hc & He); [apply init_system_inv|].
  simpl. intros i o fid Ho Hf. split; [by eapply He|].
  unfold get_face_id. by rewrite Hc, Ho.
Qed.

Lemma track_identities_are_entered_witness :
  "FACE_0001" ∈ tracked_entries
     (state_of (run (rt := stable_order) no_match example_system
                  [example_frame [face_detection] true])) ∧
  get_face_id (tracker (state_of (run (rt := stable_order) no_match example_system
                                    [example_frame [face_detection] true]))) 0
    = Some "FACE_0001".
Proof.
  eapply (track_identities_are_entered (rt := stable_order) no_match 1 0 []
            [example_frame [face_detection] true] 0 _ "FACE_0001").
  - vm_compute. reflexivity.
  - reflexivity.
Defined.

(** ** Entry events *)

Section entry_marks.
Context {Embedding : Type} {rt : Runtime}.
Variable find_match : Embedding → list (string * Embedding) → option string.
Implicit Types (s : @System Embedding) (f : @Frame Embedding).

(** A round of the resolution loop leaves the tracks alone or gives an
    identity to its own track, which had none. *)
Lemma resolve_objects f dets s item s' :
  resolve find_match f dets s item = Ok s' →
  (objects (tracker s') = objects (tracker s) ∨
   face_id item.2 = None ∧
   ∃ fid, objects (tracker s') =
     Dict.alter (λ o, {| centroid := centroid o; bbox := bbox o;
                         face_id := Some fid |}) item.1 (objects (tracker s))) ∧
  next_object_id (tracker s') = next_object_id (tracker s).
Proof.
  destruct item as [obj_id obj_data]. unfold resolve.
  case_bool_decide as Hc; [|intros [= <-]; by split; [left|]].
  destruct Hc as [Hnone _].
  destruct (get_embedding f (bbox obj_data)) as [e|];
    [|intros [= <-]; by split; [left|]].
  set (choice := match find_match e (known_embeddings s) with
                 | Some matched_id => (matched_id, s)
                 | None => new_face f s e
                 end).
  assert (Ht1 : tracker choice.2 = tracker s)
    by (unfold choice; by destruct (find_match _ _)).
  destruct choice as [fid s1]. cbn [snd] in Ht1.
  unfold assign_face_id. cbn [objects set_face_id_map]. rewrite Ht1.
  destruct (Dict.mem obj_id (objects (tracker s))); [|done].
  intros H.
  assert (Hobj : objects (tracker s') =
            Dict.alter (λ o, {| centroid := centroid o; bbox := bbox o;
                                face_id := Some fid |}) obj_id (objects (tracker s)) ∧
          next_object_id (tracker s') = next_object_id (tracker s)).
  { case_bool_decide; injection H as <-; done. }
  destruct Hobj as [Hobj Hn]. split; [right|done].
  split; [done|]. by exists fid.
Qed.

(** The round of the resolution loop for a track without identity whose
    face has an embedding gives the track an identity. *)
Lemma resolve_assigns f dets s k o e :
  face_id o = None → dets ≠ [] → get_embedding f (bbox o) = Some e →
  k ∈ Dict.keys (objects (tracker s)) →
  ∃ fid s', resolve find_match f dets s (k, o) = Ok s' ∧
    objects (tracker s') =
      Dict.alter (λ o, {| centroid := centroid o; bbox := bbox o;
                          face_id := Some fid |}) k (objects (tracker s)).
Proof.
  intros Hnone Hdets Hemb Hin. unfold resolve.
  rewrite bool_decide_eq_true_2
    by (split; [done | destruct dets; [done | simpl; lia]]).
  rewrite Hemb.
  set (choice := match find_match e (known_embeddings s) with
                 | Some matched_id => (matched_id, s)
                 | None => new_face f s e
                 end).
  assert (Ht1 : tracker choice.2 = tracker s)
    by (unfold choice; by destruct (find_match _ _)).
  destruct choice as [fid s1]. cbn [snd] in Ht1. rewrite <- Ht1 in Hin.
  rewrite (assign_face_id_present (tracker s1) k fid Hin). rewrite Ht1.
  exists fid. case_bool_decide; eexists; (split; [reflexivity | done]).
Qed.

Lemma resolve_answered f dets s item :
  ∃ calls,
    database (state_of (resolve find_match f dets s item)) = database s ++ calls ∧
    Forall (answered f) calls.
Proof.
  destruct item as [obj_id obj_data]. unfold resolve.
  case_bool_decide; [|exists []; by rewrite app_nil_r].
  destruct (get_embedding f (bbox obj_data)) as [e|];
    [|exists []; by rewrite app_nil_r].
  assert (Htail : ∀ s1 fid, ∃ calls,
    database
      (state_of
         match assign_face_id (tracker s1) obj_id fid with
         | KeyError t' => KeyError (set_tracker s1 t')
         | Ok t' =>
             if bool_decide (fid ∈ tracked_entries (set_tracker s1 t'))
             then Ok (set_tracker s1 t')
             else Ok (log_and_mark f (set_tracker s1 t') fid entry_event
                        (bbox obj_data))
         end) = database s1 ++ calls ∧ Forall (answered f) calls).
  { intros s1 fid. destruct (assign_face_id _ _ _) as [t'|t'].
    - case_bool_decide.
      + exists []. by rewrite app_nil_r.
      + eexists [_]. split; [reflexivity|]. by repeat constructor.
    - exists []. by rewrite app_nil_r. }
  destruct (find_match e (known_embeddings s)) as [matched_id|].
  - apply Htail.
  - destruct (Htail (new_face f s e).2 (new_face f s e).1) as (c2 & Hd & Hc2).
    exists (RegisterFace (face_label (next_face_id s))
              (register_face f (face_label (next_face_id s))) :: c2).
    split; [|by constructor].
    etrans; [exact Hd|]. cbn [new_face snd database]. by rewrite <- app_assoc.
Qed.

Lemma for_each_resolve_answered f dets items : ∀ s,
  ∃ calls,
    database (state_of (for_each (resolve find_match f dets) items s))
      = database s ++ calls ∧
    Forall (answered f) calls.
Proof.
  induction items as [|item items IH]; intros s; [exists []; by rewrite app_nil_r|].
  destruct (resolve_answered f dets s item) as (c1 & Hd1 & Hc1). simpl.
  destruct (resolve find_match f dets s item) as [s1|s1]; simpl in *.
  - destruct (IH s1) as (c2 & Hd2 & Hc2). exists (c1 ++ c2).
    rewrite Hd2, Hd1, app_assoc. split; [done | by apply Forall_app].
  - by exists c1.
Qed.

Lemma exit_loop_answered f fids : ∀ s,
  ∃ calls,
    database (fold_left (exit_one f) fids s) = database s ++ calls ∧
    Forall (answered f) calls.
Proof.
  induction fids as [|fid fids IH]; intros s; cbn [fold_left];
    [exists []; by rewrite app_nil_r|].
  destruct (IH (exit_one f s fid)) as (c2 & Hd2 & Hc2).
  unfold exit_one in *. destruct (find _ _) as [o|].
  - eexists (_ :: c2). rewrite Hd2. cbn [log_and_mark database].
    rewrite <- app_assoc. split; [reflexivity|]. by constructor.
  - by exists c2.
Qed.

Lemma process_frame_answered s f :
  ∃ calls,
    database (state_of (process_frame find_match s f)) = database s ++ calls ∧
    Forall (answered f) calls.
Proof.
  unfold process_frame.
  set (s0 := set_frame_count s (frame_count s + 1)).
  set (dets := if decide _ then _ else _).
  destruct (update (tracker s0) dets) as [t'|t']; simpl;
    [|exists []; by rewrite app_nil_r].
  destruct (for_each_resolve_answered f dets (objects t') (set_tracker s0 t'))
    as (c1 & Hd1 & Hc1).
  destruct (for_each _ _ _) as [s2|s2]; simpl in *; [|by exists c1].
  destruct (exit_loop_answered f
    (elements (tracked_entries s2 ∖ current_face_ids (objects (tracker s2))
                 ∖ tracked_exits s2)) s2) as (c2 & Hd2 & Hc2).
  exists (c1 ++ c2). rewrite Hd2, Hd1, app_assoc.
  split; [done | by apply Forall_app].
Qed.

(** After the resolution loop of a frame with detections, every track
    whose face has an embedding carries an identity. *)
Lemma for_each_resolve_complete f dets items : dets ≠ [] → ∀ s1,
  system_inv s1 → NoDup items.*1 →
  (∀ k o, (k, o) ∈ items → Dict.lookup k (objects (tracker s1)) = Some o) →
  ∃ s2, for_each (resolve find_match f dets) items s1 = Ok s2 ∧
    system_inv s2 ∧
    Dict.keys (objects (tracker s2)) = Dict.keys (objects (tracker s1)) ∧
    (∀ k o, Dict.lookup k (objects (tracker s1)) = Some o →
       ∃ o2, Dict.lookup k (objects (tracker s2)) = Some o2 ∧ bbox o2 = bbox o ∧
             (is_Some (face_id o) ∨ k ∉ items.*1 → o2 = o)) ∧
    (∀ k o, (k, o) ∈ items → is_Some (get_embedding f (bbox o)) →
       ∃ o2, Dict.lookup k (objects (tracker s2)) = Some o2 ∧
             is_Some (face_id o2)).
Proof.
  intros Hdets. induction items as [|[k o] items IH]; intros s1 Hs1 Hnd Hitems.
  { exists s1. split_and!; [done | done | done | by eauto |].
    by intros k o ?%elem_of_nil. }
  rewrite fmap_cons in Hnd. cbn [fst] in Hnd. apply NoDup_cons in Hnd as [Hk Hnd].
  assert (Ho : Dict.lookup k (objects (tracker s1)) = Some o) by (apply Hitems; left).
  assert (Hin : k ∈ Dict.keys (objects (tracker s1))).
  { apply lookup_is_Some. by eexists. }
  destruct (resolve_inv find_match f dets s1 (k, o) Hs1 Hin)
    as (s1' & Hr & Hs1' & Hkeys).
  destruct (resolve_objects f dets s1 (k, o) s1' Hr) as [Hobj _]. cbn [fst snd] in Hobj.
  (* what the round did to the tracks *)
  assert (Hstep : ∀ k' o', Dict.lookup k' (objects (tracker s1)) = Some o' →
            ∃ o2, Dict.lookup k' (objects (tracker s1')) = Some o2 ∧
                  bbox o2 = bbox o' ∧
                  (is_Some (face_id o') ∨ k' ≠ k → o2 = o')).
  { intros k' o' Ho'. destruct Hobj as [-> | (Hnone & fid & ->)]; [by eauto|].
    destruct (decide (k' = k)) as [->|Hne].
    - rewrite lookup_alter_eq, Ho'. eexists. split_and!; [done | done |].
      intros [Hsome|?]; [|done]. rewrite Ho in Ho'. injection Ho' as <-.
      rewrite Hnone in Hsome. by destruct Hsome.
    - rewrite lookup_alter_ne by done. by eauto. }
  assert (Hhead : is_Some (get_embedding f (bbox o)) →
            ∃ o2, Dict.lookup k (objects (tracker s1')) = Some o2 ∧
                  is_Some (face_id o2)).
  { intros [e He]. destruct (face_id o) as [fid|] eqn:Hfid.
    - destruct (Hstep k o Ho) as (o2 & Ho2 & _ & Hsame).
      exists o2. split; [done|]. rewrite Hsame; [|left; by rewrite Hfid].
      by rewrite Hfid.
    - destruct (resolve_assigns f dets s1 k o e Hfid Hdets He Hin)
        as (fid & s1'' & Hr' & Hobj').
      rewrite Hr in Hr'. injection Hr' as <-.
      rewrite Hobj', lookup_alter_eq, Ho. eexists. split; [done|]. by eexists. }
  destruct (IH s1' Hs1' Hnd) as (s2 & Hloop & Hs2 & Hkeys2 & Hkeep & Hdone).
  { intros k' o' Hin'. destruct (Hstep k' o' (Hitems k' o' ltac:(by right)))
      as (o2 & Ho2 & _ & Hsame).
    rewrite Ho2, Hsame; [done|]. right. intros ->.
    apply Hk. by apply (list_elem_of_fmap_2 fst) in Hin'. }
  exists s2. cbn [for_each]. rewrite Hr. cbn [bind].
  split_and!; [done | done | congruence | |].
  - intros k' o' Ho'. destruct (Hstep k' o' Ho') as (o1 & Ho1 & Hb1 & Hsame1).
    destruct (Hkeep k' o1 Ho1) as (o2 & Ho2 & Hb2 & Hsame2).
    exists o2. split_and!; [done | congruence |].
    intros Hcase. rewrite fmap_cons, not_elem_of_cons in Hcase. cbn [fst] in Hcase.
    assert (o1 = o') as -> by (apply Hsame1; tauto).
    apply Hsame2. tauto.
  - intros k' o' [[= -> ->]|Hin']%elem_of_cons Hemb.
    + destruct (Hhead Hemb) as (o1 & Ho1 & Hsome).
      destruct (Hkeep k o1 Ho1) as (o2 & Ho2 & _ & Hsame).
      exists o2. split; [done|]. rewrite Hsame; [done | by left].
    + by apply (Hdone k' o').
Qed.
End entry_marks.

(** C2, as the code has it.  On a state that satisfies the invariant of
    the orchestrator (the initial state does, and [process_frame] keeps it),
    [process_frame] returns, and with the database calls [calls] that it
    made:
    - every recorded call carries what the database answered, and the
      identity of every entry event sent is entered, whatever the answer
      was;
    - in a frame with detections, every track for whose face the recognizer
      has an embedding carries an identity afterwards, this identity is
      entered, and unless it was entered before the frame, an entry event
      for it has been sent in the frame;
    - the entered set has grown by exactly the identities of the entry
      events sent, each of which was not entered before and was sent once;
    - no later frame sends an entry event for an identity that is entered:
      after a failed write the entry is not retried. *)
Theorem entered_mark_ignores_persistence {Embedding : Type} {rt : Runtime}
    (find_match : Embedding → list (string * Embedding) → option string)
    (s : @System Embedding) (f : @Frame Embedding) :
  system_inv s →
  ∃ s' calls,
    process_frame find_match s f = Ok s' ∧
    system_inv s' ∧
    database s' = database s ++ calls ∧
    (∀ fid image_path ok,
       LogEvent fid entry_event image_path ok ∈ calls →
       ok = log_event f fid entry_event image_path ∧ fid ∈ tracked_entries s') ∧
    (frame_detections s f ≠ [] →
     ∀ k o, Dict.lookup k (objects (tracker s')) = Some o →
       is_Some (get_embedding f (bbox o)) →
       ∃ fid, face_id o = Some fid ∧ fid ∈ tracked_entries s' ∧
         (fid ∈ tracked_entries s ∨
          ∃ image_path,
            LogEvent fid entry_event image_path
              (log_event f fid entry_event image_path) ∈ calls)) ∧
    tracked_entries s' = list_to_set (entry_ids calls) ∪ tracked_entries s ∧
    NoDup (entry_ids calls) ∧
    (∀ fid, fid ∈ entry_ids calls → fid ∉ tracked_entries s) ∧
    (∀ later, ∃ calls',
       database (state_of (run find_match s' later)) = database s' ++ calls' ∧
       ∀ fid, fid ∈ tracked_entries s' → fid ∉ entry_ids calls').
Proof.
  intros Hs. pose proof Hs as (Hinv & Hc & He).
  destruct (process_frame_inv find_match s f Hs) as (s' & Hf & Hs').
  destruct (process_frame_grows find_match s f) as (calls & Hg & _).
  destruct (process_frame_answered find_match s f) as (calls2 & Hd2 & Hans).
  rewrite Hf in Hg, Hd2. cbn [state_of] in Hg, Hd2.
  destruct Hg as (Hd & Hent & _ & Hnd & Hnew).
  assert (calls2 = calls) as ->.
  { apply (app_inv_head (database s)). by rewrite <- Hd2, <- Hd. }
  assert (Hlogged : ∀ fid, fid ∈ entry_ids calls →
            ∃ image_path, LogEvent fid entry_event image_path
                            (log_event f fid entry_event image_path) ∈ calls).
  { intros fid Hin. apply list_elem_of_omap in Hin as (c & Hin & Hc').
    rewrite Forall_forall in Hans. specialize (Hans c Hin).
    destruct c as [|fid' [] p ok]; simpl in Hc'; try done.
    injection Hc' as ->. simpl in Hans. subst ok. by exists p. }
  exists s', calls. split_and!; [done | done | done | | | done | done | done |].
  - intros fid p ok Hin. rewrite Forall_forall in Hans. split.
    + exact (Hans _ Hin).
    + rewrite Hent. apply elem_of_union. left. apply elem_of_list_to_set.
      apply list_elem_of_omap. by exists (LogEvent fid entry_event p ok).
  - intros Hdets k o Hk Hemb.
    unfold process_frame in Hf.
    set (s0 := set_frame_count s (frame_count s + 1)) in Hf.
    change (if decide (frame_count s0 mod (skip_frames s0 + 1) = 0)
            then detect_faces f else []) with (frame_detections s f) in Hf.
    change (tracker s0) with (tracker s) in Hf.
    destruct (update_spec (tracker s) (frame_detections s f) Hinv)
      as (t' & _ & _ & Hup & Hinv' & _).
    rewrite Hup in Hf.
    assert (Hs1 : system_inv (set_tracker s0 t')).
    { split_and!;
        [exact Hinv'
        | exact (update_consistent (tracker s) _ Hinv Hc t' Hup) |].
      intros k' o' fid Hk' Hf'. simpl in Hk' |- *.
      destruct (update_identities_kept (tracker s) _ Hinv t' Hup k' o' Hk')
        as [(o0 & Ho0 & Hsame)|[_ Hnone]]; [|congruence].
      eapply He; [exact Ho0 | congruence]. }
    destruct (for_each_resolve_complete find_match f (frame_detections s f)
                (objects t') Hdets (set_tracker s0 t') Hs1)
      as (s2 & Hloop & Hs2 & Hkeys & Hkeep & Hdone).
    { apply Hinv'. }
    { intros k' o' Hin. apply elem_of_lookup; [apply Hinv' | done]. }
    rewrite Hloop in Hf. cbn [bind] in Hf.
    destruct (exit_loop_tracker_entries f
      (elements (tracked_entries s2 ∖ current_face_ids (objects (tracker s2))
                   ∖ tracked_exits s2)) s2) as [Ht _].
    assert (Ht' : tracker s' = tracker s2) by congruence.
    rewrite Ht' in Hk.
    assert (Hsnap : ∃ o0, Dict.lookup k (objects t') = Some o0).
    { apply lookup_is_Some. cbn [tracker set_tracker] in Hkeys.
      rewrite <- Hkeys. apply lookup_is_Some. by eexists. }
    destruct Hsnap as [o0 Ho0].
    destruct (Hkeep k o0 Ho0) as (o2 & Ho2 & Hbbox & _).
    assert (o2 = o) as -> by congruence.
    destruct (Hdone k o0) as (o3 & Ho3 & fid & Hfid);
      [by apply lookup_elem_of | by rewrite <- Hbbox |].
    assert (o3 = o) as -> by congruence.
    assert (Hin : fid ∈ tracked_entries s').
    { destruct Hs' as (_ & _ & He'). eapply He'; [|exact Hfid]. by rewrite Ht'. }
    exists fid. split_and!; [done | done |].
    rewrite Hent in Hin. apply elem_of_union in Hin as [Hin|Hin]; [right | by left].
    apply Hlogged. by apply elem_of_list_to_set in Hin.
  - intros later. destruct (run_grows find_match later s') as (calls' & Hg' & _).
    destruct Hg' as (Hd' & _ & _ & _ & Hnew').
    exists calls'. split; [done|]. intros fid Hin Hin'. by apply (Hnew' fid).
Qed.

Lemma entered_mark_ignores_persistence_witness :
  ∃ s' calls,
    process_frame (rt := stable_order) no_match example_system
      (example_frame [face_detection] false) = Ok s' ∧
    database s' = database example_system ++ calls ∧
    tracked_entries s' =
      list_to_set (entry_ids calls) ∪ tracked_entries example_system.
Proof.
  destruct (entered_mark_ignores_persistence (rt := stable_order) no_match
              example_system (example_frame [face_detection] false)
              (init_system_inv 1 0 []))
    as (s' & calls & H1 & _ & H2 & _ & _ & H3 & _).
  exists s', calls. split_and!; [exact H1 | exact H2 | exact H3].
Defined.
(** ** Entered and exited identities *)

Lemma grows_subseteq {Embedding : Type} {rt : Runtime} (s s' : @System Embedding) calls :
  grows s s' calls →
  tracked_entries s ⊆ tracked_entries s' ∧ tracked_exits s ⊆ tracked_exits s'.
Proof. intros (_ & -> & -> & _). set_solver. Qed.

(** C6.  Over every run, from any state of the orchestrator and whether
    the run ends normally or by an exception, the entered set and the exited
    set only grow, and the exited set stays a subset of the entered set;
    from the initial state, where both are empty, the exited set is a subset
    of the entered set after every run.  The same holds at each step inside
    a frame: the body of the resolution loop only adds to the entered set
    and leaves the exited set alone, and the body of the exit loop leaves
    the entered set alone and adds at most the identity it runs for, which
    the loop takes from the entered set. *)
Theorem exited_subset_of_entered {Embedding : Type} {rt : Runtime}
    (find_match : Embedding → list (string * Embedding) → option string)
    (s : @System Embedding) (frames : list (@Frame Embedding)) :
  (tracked_entries s ⊆ tracked_entries (state_of (run find_match s frames)) ∧
   tracked_exits s ⊆ tracked_exits (state_of (run find_match s frames)) ∧
   (tracked_exits s ⊆ tracked_entries s →
    tracked_exits (state_of (run find_match s frames)) ⊆
      tracked_entries (state_of (run find_match s frames)))) ∧
  (∀ m k known,
     tracked_exits (state_of (run find_match (init_system m k known) frames)) ⊆
       tracked_entries (state_of (run find_match (init_system m k known) frames))) ∧
  (∀ f dets item,
     tracked_entries s ⊆
       tracked_entries (state_of (resolve find_match f dets s item)) ∧
     tracked_exits (state_of (resolve find_match f dets s item)) = tracked_exits s) ∧
  (∀ f fid,
     tracked_entries (exit_one f s fid) = tracked_entries s ∧
     tracked_exits s ⊆ tracked_exits (exit_one f s fid) ∧
     tracked_exits (exit_one f s fid) ⊆ {[fid]} ∪ tracked_exits s).
Proof.
  assert (Hrun : ∀ s0 : @System Embedding,
    tracked_entries s0 ⊆ tracked_entries (state_of (run find_match s0 frames)) ∧
    tracked_exits s0 ⊆ tracked_exits (state_of (run find_match s0 frames)) ∧
    (tracked_exits s0 ⊆ tracked_entries s0 →
     tracked_exits (state_of (run find_match s0 frames)) ⊆
       tracked_entries (state_of (run find_match s0 frames)))).
  { intros s0. destruct (run_grows find_match frames s0) as (calls & Hg & Hx).
    destruct (grows_subseteq _ _ _ Hg) as [He Hxs]. split_and!; [done | done |].
    intros Hsub x. destruct Hg as (_ & _ & -> & _).
    rewrite elem_of_union, elem_of_list_to_set.
    intros [Hin|Hin]; [by apply Hx | by apply He, Hsub]. }
  split; [apply Hrun|]. split_and!.
  - intros m k known. apply Hrun. simpl. set_solver.
  - intros f dets item.
    destruct (resolve_grows find_match f dets s item) as (calls & Hg & Hx).
    destruct (grows_subseteq _ _ _ Hg) as [He _]. split; [done|].
    destruct Hg as (_ & _ & -> & _). rewrite Hx. set_solver.
  - intros f fid.
    destruct (exit_one_grows f s fid) as (calls & Hg & He & _ & Hx).
    destruct (grows_subseteq _ _ _ Hg) as [_ Hxs].
    destruct Hg as (_ & -> & -> & _). rewrite He.
    split_and!; [set_solver | set_solver |].
    intros x. rewrite !elem_of_union, elem_of_list_to_set.
    intros [Hin|Hin]; [left | by right].
    destruct (Hx x Hin) as [-> _]. set_solver.
Qed.

Lemma exited_subset_of_entered_witness :
  tracked_exits example_system ⊆ tracked_entries example_system ∧
  tracked_exits (state_of (run (rt := stable_order)
      no_match example_system absence_frames)) ⊆
    tracked_entries (state_of (run (rt := stable_order)
        no_match example_system absence_frames)).
Proof.
  assert (H : tracked_exits example_system ⊆ tracked_entries example_system).
  { unfold example_system, init_system. cbn [tracked_exits]. apply empty_subseteq. }
  split; [exact H|].
  exact (proj2 (proj2 (proj1
           (exited_subset_of_entered (rt := stable_order)
               no_match example_system absence_frames))) H).
Defined.
(** C2 as stated fails: the write of the entry event fails in the first
    frame, the identity is entered all the same, and the next frame, in
    which the face is detected again and the database works, sends no entry
    event. *)
Lemma entry_marked_after_failed_write :
  is_ok (process_frame (rt := stable_order) no_match example_system
           (example_frame [face_detection] false)) = true ∧
  database (state_of (process_frame (rt := stable_order) no_match example_system
                        (example_frame [face_detection] false))) =
    [RegisterFace "FACE_0001" false;
     LogEvent "FACE_0001" entry_event (Some "face.jpg") false] ∧
  elements (tracked_entries
              (state_of (process_frame (rt := stable_order) no_match example_system
                           (example_frame [face_detection] false)))) =
    ["FACE_0001"] ∧
  is_ok (run (rt := stable_order) no_match example_system
           [example_frame [face_detection] false;
            example_frame [face_detection] true]) = true ∧
  database (state_of (run (rt := stable_order) no_match example_system
                        [example_frame [face_detection] false;
                         example_frame [face_detection] true])) =
    [RegisterFace "FACE_0001" false;
     LogEvent "FACE_0001" entry_event (Some "face.jpg") false].
Proof. split_and!; vm_compute; reflexivity. Qed.

(** C1 on the code: the face is entered in the first frame; after two
    frames without it its track is gone, the identity is entered, not
    exited and carried by no track, and still no exit event has been logged
    and the exited set is empty.  [process_frame_grows] shows that this is
    so in every run: the code logs an exit event only for the empty
    identity. *)
Theorem exit_event_missing {rt : Runtime} :
  is_ok absence_run = true ∧
  objects (tracker (state_of absence_run)) = [] ∧
  elements (tracked_entries (state_of absence_run)) = ["FACE_0001"] ∧
  elements (tracked_exits (state_of absence_run)) = [] ∧
  database (state_of absence_run) =
    [RegisterFace "FACE_0001" true;
     LogEvent "FACE_0001" entry_event (Some "face.jpg") true] ∧
  exit_ids (database (state_of absence_run)) = [].
Proof. split_and!; vm_compute; reflexivity. Qed.

(** ** Frames in which nothing is resolved *)

Lemma for_each_noop {S A : Type} (body : S → A → result S) (items : list A) :
  (∀ s x, body s x = Ok s) → ∀ s, for_each body items s = Ok s.
Proof.
  intros Hbody s. induction items as [|x items IH]; [done|].
  simpl. by rewrite Hbody.
Qed.

Lemma succ_mod c m r : c mod m = r → r + 1 < m → (c + 1) mod m = r + 1.
Proof.
  intros Hr Hlt. symmetry. apply (Nat.mod_unique _ _ (c / m)); [done|].
  pose proof (Nat.div_mod_eq c m). lia.
Qed.

Lemma lookup_all_None {V : Type} (d : list (nat * V)) :
  (∀ k, Dict.lookup k d = None) → d = [].
Proof.
  destruct d as [|[k v] d]; [done|]. intros H. specialize (H k).
  apply lookup_None in H. exfalso. apply H. simpl. by left.
Qed.

Section quiet_frames.
Context {Embedding : Type} {rt : Runtime}.
Variable find_match : Embedding → list (string * Embedding) → option string.
Implicit Types (s : @System Embedding) (f : @Frame Embedding).

Lemma resolve_noop f dets s item :
  dets = [] ∨ (∀ b, get_embedding f b = None) →
  resolve find_match f dets s item = Ok s.
Proof.
  intros H. destruct item as [obj_id obj_data]. unfold resolve.
  case_bool_decide as Hc; [|done]. destruct H as [->|H].
  - simpl in Hc. lia.
  - by rewrite H.
Qed.

Lemma exit_one_fields f s fid :
  tracker (exit_one f s fid) = tracker s ∧
  known_embeddings (exit_one f s fid) = known_embeddings s ∧
  frame_count (exit_one f s fid) = frame_count s ∧
  skip_frames (exit_one f s fid) = skip_frames s ∧
  tracked_entries (exit_one f s fid) = tracked_entries s ∧
  next_face_id (exit_one f s fid) = next_face_id s ∧
  ∃ calls, database (exit_one f s fid) = database s ++ calls ∧
    ∀ c, c ∈ calls → ∃ x p ok, c = LogEvent x exit_event p ok.
Proof.
  unfold exit_one. destruct (find _ _) as [o|]; simpl.
  - split_and!; try done. eexists [_]. split; [done|].
    intros c ->%list_elem_of_singleton. eauto.
  - split_and!; try done. exists []. split; [by rewrite app_nil_r|].
    by intros c ?%elem_of_nil.
Qed.

Lemma exit_loop_fields f fids : ∀ s,
  tracker (fold_left (exit_one f) fids s) = tracker s ∧
  known_embeddings (fold_left (exit_one f) fids s) = known_embeddings s ∧
  frame_count (fold_left (exit_one f) fids s) = frame_count s ∧
  skip_frames (fold_left (exit_one f) fids s) = skip_frames s ∧
  tracked_entries (fold_left (exit_one f) fids s) = tracked_entries s ∧
  next_face_id (fold_left (exit_one f) fids s) = next_face_id s ∧
  ∃ calls, database (fold_left (exit_one f) fids s) = database s ++ calls ∧
    ∀ c, c ∈ calls → ∃ x p ok, c = LogEvent x exit_event p ok.
Proof.
  induction fids as [|fid fids IH]; intros s; cbn [fold_left].
  - split_and!; try done. exists []. split; [by rewrite app_nil_r|].
    by intros c ?%elem_of_nil.
  - destruct (exit_one_fields f s fid)
      as (Ht & Hk & Hc & Hsk & He & Hn & c1 & Hd1 & Hc1).
    destruct (IH (exit_one f s fid))
      as (Ht' & Hk' & Hc' & Hsk' & He' & Hn' & c2 & Hd2 & Hc2).
    split_and!; try congruence.
    exists (c1 ++ c2). split; [by rewrite Hd2, Hd1, app_assoc|].
    intros c [?|?]%elem_of_app; auto.
Qed.

Lemma process_frame_unresolved s f :
  tracker_inv (tracker s) →
  frame_detections s f = [] ∨ (∀ b, get_embedding f b = None) →
  ∃ t' s', update (tracker s) (frame_detections s f) = Ok t' ∧
    process_frame find_match s f = Ok s' ∧
    tracker s' = t' ∧
    frame_count s' = frame_count s + 1 ∧
    skip_frames s' = skip_frames s ∧
    known_embeddings s' = known_embeddings s ∧
    next_face_id s' = next_face_id s ∧
    tracked_entries s' = tracked_entries s ∧
    ∃ calls, database s' = database s ++ calls ∧
      ∀ c, c ∈ calls → ∃ x p ok, c = LogEvent x exit_event p ok.
Proof.
  intros Hinv Hquiet. unfold process_frame.
  set (s0 := set_frame_count s (frame_count s + 1)).
  change (if decide (frame_count s0 mod (skip_frames s0 + 1) = 0)
          then detect_faces f else []) with (frame_detections s f).
  change (tracker s0) with (tracker s).
  destruct (update_spec (tracker s) (frame_detections s f) Hinv)
    as (t' & _ & _ & Hup & _).
  rewrite Hup. exists t'.
  rewrite for_each_noop by (intros; by apply resolve_noop).
  cbn [bind]. eexists. split; [done|]. split; [reflexivity|].
  destruct (exit_loop_fields f
    (elements (tracked_entries (set_tracker s0 t')
                 ∖ current_face_ids (objects (tracker (set_tracker s0 t')))
                 ∖ tracked_exits (set_tracker s0 t'))) (set_tracker s0 t'))
    as (Ht & Hk & Hc & Hsk & He & Hn & calls & Hd & Hcalls).
  split_and!; try done. by exists calls.
Qed.

Lemma run_skipped frames : ∀ s,
  tracker_inv (tracker s) →
  frame_count s mod (skip_frames s + 1) + length frames ≤ skip_frames s →
  ∃ s', run find_match s frames = Ok s' ∧
    updates (tracker s) (replicate (length frames) []) = Ok (tracker s') ∧
    frame_count s' = frame_count s + length frames ∧
    known_embeddings s' = known_embeddings s ∧
    next_face_id s' = next_face_id s ∧
    tracked_entries s' = tracked_entries s.
Proof.
  induction frames as [|f frames IH]; intros s Hinv Hlen.
  { exists s. split_and!; try done. }
  cbn [length] in Hlen.
  assert (Hmod : (frame_count s + 1) mod (skip_frames s + 1)
                 = frame_count s mod (skip_frames s + 1) + 1)
    by (apply succ_mod; [done | lia]).
  assert (Hdets : frame_detections s f = []).
  { unfold frame_detections. rewrite Hmod. destruct (decide _); [lia|done]. }
  destruct (process_frame_unresolved s f Hinv (or_introl Hdets))
    as (t1 & s1 & Hup & Hf & Ht1 & Hc1 & Hsk1 & Hk1 & Hn1 & He1 & _).
  rewrite Hdets in Hup.
  assert (Hinv1 : tracker_inv (tracker s1)).
  { destruct (update_spec (tracker s) [] Hinv) as (t2 & _ & _ & Hup2 & Hinv2 & _).
    rewrite Ht1. congruence. }
  destruct (IH s1 Hinv1) as (s' & Hrun & Hups & Hc & Hk & Hn & He).
  { rewrite Hc1, Hsk1, Hmod. lia. }
  exists s'. cbn [run length replicate]. rewrite Hf. cbn [bind].
  rewrite updates_cons, Hup. cbn [bind]. rewrite <- Ht1.
  split_and!; [done | done | lia | congruence | congruence | congruence].
Qed.
End quiet_frames.

(** X8.  A frame without usable detections resolves nothing: when the
    frame is skipped or the detector finds no face, or when the recognizer
    yields no embedding for any box, [process_frame] returns, the tracker is
    the one that [update] returns for the detections of the frame, the known
    embeddings, the label counter and the entered set are unchanged, and the
    only database calls it can make are exit events. *)
Theorem process_frame_without_recognition {Embedding : Type} {rt : Runtime}
    (find_match : Embedding → list (string * Embedding) → option string)
    (s : @System Embedding) (f : @Frame Embedding) :
  tracker_inv (tracker s) →
  (frame_count s + 1) mod (skip_frames s + 1) ≠ 0 ∨ detect_faces f = [] ∨
    (∀ b, get_embedding f b = None) →
  ∃ t' s', update (tracker s) (frame_detections s f) = Ok t' ∧
    process_frame find_match s f = Ok s' ∧
    tracker s' = t' ∧
    frame_count s' = frame_count s + 1 ∧
    known_embeddings s' = known_embeddings s ∧
    next_face_id s' = next_face_id s ∧
    tracked_entries s' = tracked_entries s ∧
    ∃ calls, database s' = database s ++ calls ∧
      ∀ c, c ∈ calls → ∃ x p ok, c = LogEvent x exit_event p ok.
Proof.
  intros Hinv Hquiet.
  destruct (process_frame_unresolved find_match s f Hinv)
    as (t' & s' & Hup & Hf & Ht & Hc & _ & Hk & Hn & He & Hcalls).
  { unfold frame_detections.
    destruct Hquiet as [Hskip|[Hnone|Hemb]]; [left | left | by right].
    - by destruct (decide _).
    - by destruct (decide _). }
  exists t', s'. split_and!; done.
Qed.

Lemma process_frame_without_recognition_witness :
  ∃ t' s', update (rt := stable_order) (tracker example_system)
             (frame_detections example_system (example_frame [] true)) = Ok t' ∧
    process_frame (rt := stable_order)
        no_match example_system (example_frame [] true) = Ok s' ∧
    tracker s' = t' ∧
    frame_count s' = frame_count example_system + 1 ∧
    known_embeddings s' = known_embeddings example_system ∧
    next_face_id s' = next_face_id example_system ∧
    tracked_entries s' = tracked_entries example_system ∧
    ∃ calls, database s' = database example_system ++ calls ∧
      ∀ c, c ∈ calls → ∃ x p ok, c = LogEvent x exit_event p ok.
Proof.
  apply (process_frame_without_recognition (rt := stable_order) no_match example_system
           (example_frame [] true)).
  - apply init_inv.
  - right. left. reflexivity.
Defined.

(** X9.  Tracks age on the frames the detector skips.  Over frames that
    all fall between two detection frames, the run returns, no identity is
    entered, and a track survives exactly when its disappearance counter
    plus the number of frames stays within [max_disappeared]; so when
    [max_disappeared] is less than the number of skipped frames, no track
    is left when the detector runs again. *)
Theorem skipped_frames_age_tracks {Embedding : Type} {rt : Runtime}
    (find_match : Embedding → list (string * Embedding) → option string)
    (s : @System Embedding) (frames : list (@Frame Embedding)) :
  tracker_inv (tracker s) →
  frame_count s mod (skip_frames s + 1) + length frames ≤ skip_frames s →
  ∃ s', run find_match s frames = Ok s' ∧
    frame_count s' = frame_count s + length frames ∧
    tracked_entries s' = tracked_entries s ∧
    (∀ k, Dict.lookup k (objects (tracker s')) =
          if decide (0 < length frames ∧
                     max_disappeared (tracker s)
                       < counter (tracker s) k + length frames)
          then None else Dict.lookup k (objects (tracker s))) ∧
    (max_disappeared (tracker s) < length frames → objects (tracker s') = []).
Proof.
  intros Hinv Hlen.
  destruct (run_skipped find_match frames s Hinv Hlen)
    as (s' & Hrun & Hups & Hc & _ & _ & He).
  destruct (empty_updates_spec (length frames) (tracker s) Hinv)
    as (t' & Hups' & _ & _ & Ho).
  assert (Ht : t' = tracker s') by congruence. subst t'.
  exists s'. split_and!; [done | done | done | done |].
  intros Hmax. apply lookup_all_None. intros k. rewrite Ho.
  rewrite decide_True; [done | lia].
Qed.

Lemma skipped_frames_age_tracks_witness :
  ∃ s', run (rt := stable_order) no_match tracking_system
          [example_frame [face_detection] true;
           example_frame [face_detection] true;
           example_frame [face_detection] true] = Ok s' ∧
    frame_count s' = 3 ∧ tracked_entries s' = ∅ ∧ objects (tracker s') = [].
Proof.
  destruct (skipped_frames_age_tracks (rt := stable_order) no_match tracking_system
              [example_frame [face_detection] true;
               example_frame [face_detection] true;
               example_frame [face_detection] true])
    as (s' & Hrun & Hc & He & _ & Hnone).
  - apply one_track_inv.
  - simpl. lia.
  - exists s'. split_and!; [exact Hrun | exact Hc | exact He |].
    apply Hnone. simpl. lia.
Defined.

(** ** The labels of new identities *)

Lemma strip_prefix_app p s : strip_prefix p (p +:+ s) = Some s.
Proof.
  induction p as [|a p IH]; [done|].
  change (String a p +:+ s) with (String a (p +:+ s)). cbn [strip_prefix].
  destruct (decide (a = a)); [exact IH | done].
Qed.

Lemma string_length_app (s1 s2 : string) :
  String.length (s1 +:+ s2) = String.length s1 + String.length s2.
Proof. induction s1 as [|a s1 IH]; simpl; [done | by f_equal]. Qed.

Lemma length_zeros k : String.length (zeros k) = k.
Proof. induction k as [|k IH]; simpl; [done | by f_equal]. Qed.

Lemma uint_of_string_zeros k s :
  NilEmpty.uint_of_string (zeros k +:+ s) =
    Nat.iter k Decimal.D0 <$> NilEmpty.uint_of_string s.
Proof.
  induction k as [|k IH].
  - change (zeros 0 +:+ s) with s. by destruct (NilEmpty.uint_of_string s).
  - change (zeros (S k) +:+ s) with ("0" +:+ (zeros k +:+ s)).
    change ("0" +:+ (zeros k +:+ s))
      with (String (Ascii.Ascii false false false false true true false false)
              (zeros k +:+ s)).
    cbn [NilEmpty.uint_of_string Nat.iter]. rewrite IH.
    by destruct (NilEmpty.uint_of_string s).
Qed.

Lemma of_uint_zeros k d : Nat.of_uint (Nat.iter k Decimal.D0 d) = Nat.of_uint d.
Proof. induction k as [|k IH]; [done|]. simpl. exact IH. Qed.

Lemma digits_number d :
  Nat.of_uint <$> NilEmpty.uint_of_string (NilZero.string_of_uint d)
    = Some (Nat.of_uint d).
Proof.
  destruct d; try (unfold NilZero.string_of_uint; by rewrite NilEmpty.usu).
  reflexivity.
Qed.

Lemma label_number_face_label n : label_number (face_label n) = Some n.
Proof.
  unfold label_number, face_label. rewrite strip_prefix_app.
  cbn [mbind option_bind]. rewrite uint_of_string_zeros.
  pose proof (digits_number (Nat.to_uint n)) as H.
  destruct (NilEmpty.uint_of_string _) as [d|]; [|done].
  cbn [fmap option_fmap option_map] in *. rewrite of_uint_zeros.
  by rewrite H, DecimalNat.Unsigned.of_to.
Qed.

Lemma face_label_inj n m : face_label n = face_label m → n = m.
Proof.
  intros H. apply (f_equal label_number) in H.
  rewrite !label_number_face_label in H. by injection H.
Qed.

Lemma face_label_nonempty n : face_label n ≠ EmptyString.
Proof. unfold face_label. done. Qed.

(** X10.  The label [f"FACE_{n:04d}"] of a new identity determines its
    number: the digits after the prefix read back as [n], so two numbers
    have the same label only when they are equal; the label is not the
    empty string (it counts as true in [if obj_data['face_id']]); its
    length is 5 plus the number of decimal digits of [n], at least 4. *)
Theorem face_label_determines_number (n m : nat) :
  label_number (face_label n) = Some n ∧
  bool_decide (face_label n = face_label m) = bool_decide (n = m) ∧
  truthy (Some (face_label n)) = Some (face_label n) ∧
  String.length (face_label n) =
    5 + String.length (NilZero.string_of_uint (Nat.to_uint n)) `max` 4.
Proof.
  split_and!.
  - apply label_number_face_label.
  - apply bool_decide_ext. split; [apply face_label_inj | by intros ->].
  - unfold truthy. rewrite decide_False; [done | apply face_label_nonempty].
  - unfold face_label. rewrite !string_length_app, length_zeros. simpl. lia.
Qed.

(** ** Registered identities *)

Lemma keys_store_any {K V : Type} `{EqDecision K} (k : K) (v : V) (d : list (K * V)) :
  Dict.keys (Dict.store k v d) =
    if decide (k ∈ Dict.keys d) then Dict.keys d else Dict.keys d ++ [k].
Proof.
  unfold Dict.keys. induction d as [|[k' v'] d IH].
  - destruct (decide (k ∈ [].*1)) as [Hin|_]; [|done].
    by apply elem_of_nil in Hin.
  - cbn [Dict.store]. destruct (decide (k = k')) as [->|Hne].
    + destruct (decide (k' ∈ ((k', v') :: d).*1)) as [_|Hnot]; [done|].
      exfalso. apply Hnot. left.
    + rewrite fmap_cons, IH. cbn [fst].
      destruct (decide (k ∈ d.*1)) as [Hin|Hin];
        destruct (decide (k ∈ ((k', v') :: d).*1)) as [Hin'|Hin'].
      * done.
      * exfalso. apply Hin'. by right.
      * rewrite fmap_cons in Hin'. by apply elem_of_cons in Hin' as [?|?].
      * done.
Qed.

Lemma registered_ids_app c1 c2 :
  registered_ids (c1 ++ c2) = registered_ids c1 ++ registered_ids c2.
Proof. apply omap_app. Qed.

Section registered.
Context {Embedding : Type} {rt : Runtime}.
Variable find_match : Embedding → list (string * Embedding) → option string.
Implicit Types (s : @System Embedding) (f : @Frame Embedding).

Lemma registers_same s s' calls :
  database s' = database s ++ calls → registered_ids calls = [] →
  next_face_id s' = next_face_id s →
  known_embeddings s' = known_embeddings s →
  registers s s' calls.
Proof.
  intros Hd Hr Hn Hk. split_and!; [done | lia | |].
  - by rewrite Hr, Hn, Nat.sub_diag.
  - intros Hl. rewrite Hk, Hr, app_nil_r. split; [|done].
    intros fid Hin. rewrite Hn. apply Hl. by rewrite <- Hk.
Qed.

Lemma registers_refl s : registers s s [].
Proof. apply registers_same; [by rewrite app_nil_r | done | done | done]. Qed.

Lemma registers_trans s s1 s' c1 c2 :
  registers s s1 c1 → registers s1 s' c2 → registers s s' (c1 ++ c2).
Proof.
  intros (Hd1 & Hn1 & Hr1 & Hl1) (Hd2 & Hn2 & Hr2 & Hl2). split_and!.
  - by rewrite Hd2, Hd1, app_assoc.
  - lia.
  - rewrite registered_ids_app, Hr1, Hr2, <- fmap_app. f_equal.
    replace (next_face_id s' - next_face_id s)
      with ((next_face_id s1 - next_face_id s) + (next_face_id s' - next_face_id s1))
      by lia.
    rewrite seq_app. do 2 f_equal. lia.
  - intros Hl. destruct (Hl1 Hl) as [Hl' Hk1]. destruct (Hl2 Hl') as [Hl'' Hk2].
    split; [done|]. by rewrite Hk2, Hk1, registered_ids_app, app_assoc.
Qed.

Lemma new_face_registers f s e :
  registers s (new_face f s e).2
    [RegisterFace (face_label (next_face_id s)) (register_face f (face_label (next_face_id s)))].
Proof.
  split_and!; simpl; [done | lia | |].
  - replace (next_face_id s + 1 - next_face_id s) with 1 by lia. done.
  - intros Hl.
    assert (Hfresh : face_label (next_face_id s) ∉ Dict.keys (known_embeddings s)).
    { intros (i & Hi & Heq)%Hl. apply face_label_inj in Heq. lia. }
    rewrite keys_store_any, decide_False by done. split; [|done].
    intros fid Hin. cbn [known_embeddings next_face_id] in Hin |- *.
    rewrite keys_store_any, decide_False in Hin by done.
    apply elem_of_app in Hin as [Hin| ->%list_elem_of_singleton].
    + destruct (Hl fid Hin) as (i & Hi & ->). exists i. split; [lia | done].
    + exists (next_face_id s). split; [lia | done].
Qed.

Lemma resolve_registers f dets s item :
  ∃ calls, registers s (state_of (resolve find_match f dets s item)) calls.
Proof.
  destruct item as [obj_id obj_data]. unfold resolve.
  case_bool_decide; [|exists []; apply registers_refl].
  destruct (get_embedding f (bbox obj_data)) as [e|];
    [|exists []; apply registers_refl].
  assert (Htail : ∀ s1 fid, ∃ calls,
    registers s1
      (state_of
         match assign_face_id (tracker s1) obj_id fid with
         | KeyError t' => KeyError (set_tracker s1 t')
         | Ok t' =>
             if bool_decide (fid ∈ tracked_entries (set_tracker s1 t'))
             then Ok (set_tracker s1 t')
             else Ok (log_and_mark f (set_tracker s1 t') fid entry_event
                        (bbox obj_data))
         end) calls).
  { intros s1 fid. destruct (assign_face_id _ _ _) as [t'|t'].
    - case_bool_decide.
      + exists []. apply registers_same; [by rewrite app_nil_r | done..].
      + eexists [_]. apply registers_same; [reflexivity | done..].
    - exists []. apply registers_same; [by rewrite app_nil_r | done..]. }
  destruct (find_match e (known_embeddings s)) as [matched_id|].
  - apply Htail.
  - destruct (Htail (new_face f s e).2 (new_face f s e).1) as (c2 & Hc2).
    eexists. eapply registers_trans; [apply new_face_registers | exact Hc2].
Qed.

Lemma for_each_resolve_registers f dets items : ∀ s,
  ∃ calls, registers s (state_of (for_each (resolve find_match f dets) items s)) calls.
Proof.
  induction items as [|item items IH]; intros s; [exists []; apply registers_refl|].
  destruct (resolve_registers f dets s item) as (c1 & Hc1). simpl.
  destruct (resolve find_match f dets s item) as [s1|s1]; simpl in *.
  - destruct (IH s1) as (c2 & Hc2). exists (c1 ++ c2).
    by eapply registers_trans.
  - by exists c1.
Qed.

Lemma exit_calls_not_registered (calls : list db_call) :
  (∀ c, c ∈ calls → ∃ x p ok, c = LogEvent x exit_event p ok) →
  registered_ids calls = [] ∧ entry_ids calls = [].
Proof.
  induction calls as [|c calls IH]; intros H; [done|].
  destruct (H c ltac:(left)) as (x & p & ok & ->). simpl.
  apply IH. intros c Hc. apply H. by right.
Qed.

Lemma process_frame_registers s f :
  ∃ calls, registers s (state_of (process_frame find_match s f)) calls.
Proof.
  unfold process_frame.
  set (s0 := set_frame_count s (frame_count s + 1)).
  set (dets := if decide _ then _ else _).
  destruct (update (tracker s0) dets) as [t'|t']; simpl.
  2:{ exists []. apply registers_same; [by rewrite app_nil_r | done..]. }
  destruct (for_each_resolve_registers f dets (objects t') (set_tracker s0 t'))
    as (c1 & Hc1).
  assert (H0 : registers s (set_tracker s0 t') [])
    by (apply registers_same; [by rewrite app_nil_r | done..]).
  destruct (for_each _ _ _) as [s2|s2]; simpl in *.
  2:{ exists c1. by apply (registers_trans _ _ _ [] c1 H0). }
  destruct (exit_loop_fields f
    (elements (tracked_entries s2 ∖ current_face_ids (objects (tracker s2))
                 ∖ tracked_exits s2)) s2)
    as (_ & Hk & _ & _ & _ & Hn & c2 & Hd & Hc2).
  exists (c1 ++ c2). apply (registers_trans _ _ _ [] (c1 ++ c2) H0).
  eapply registers_trans; [exact Hc1|].
  apply registers_same; [done | by apply exit_calls_not_registered | done | done].
Qed.

Lemma run_registers frames : ∀ s,
  ∃ calls, registers s (state_of (run find_match s frames)) calls.
Proof.
  induction frames as [|f frames IH]; intros s; [exists []; apply registers_refl|].
  destruct (process_frame_registers s f) as (c1 & Hc1). simpl.
  destruct (process_frame find_match s f) as [s1|s1]; simpl in *.
  - destruct (IH s1) as (c2 & Hc2). exists (c1 ++ c2).
    by eapply registers_trans.
  - by exists c1.
Qed.
End registered.

(** X11.  New identities get fresh labels.  Over every run, from any
    state and whether the run ends normally or by an exception, the
    identities passed to [register_face] are the labels of the consecutive
    numbers from the old [next_face_id] up to the new one, in this order,
    and no identity is registered twice.  If every known identity at the
    start has the label of a number below [next_face_id], then moreover no
    registered identity was known before, the known identities at the end
    are the old ones followed by the registered ones, [next_face_id] has
    grown by as much as the known embeddings, and every known identity at
    the end has the label of a number below [next_face_id]. *)
Theorem registered_labels_are_fresh {Embedding : Type} {rt : Runtime}
    (find_match : Embedding → list (string * Embedding) → option string)
    (s : @System Embedding) (frames : list (@Frame Embedding)) :
  ∃ calls,
    database (state_of (run find_match s frames)) = database s ++ calls ∧
    next_face_id s ≤ next_face_id (state_of (run find_match s frames)) ∧
    registered_ids calls =
      face_label <$> seq (next_face_id s)
        (next_face_id (state_of (run find_match s frames)) - next_face_id s) ∧
    NoDup (registered_ids calls) ∧
    (labels_below s →
       (∀ fid, fid ∈ registered_ids calls →
          fid ∉ Dict.keys (known_embeddings s)) ∧
       Dict.keys (known_embeddings (state_of (run find_match s frames))) =
         Dict.keys (known_embeddings s) ++ registered_ids calls ∧
       length (known_embeddings (state_of (run find_match s frames)))
         + next_face_id s =
       length (known_embeddings s)
         + next_face_id (state_of (run find_match s frames)) ∧
       labels_below (state_of (run find_match s frames))).
Proof.
  destruct (run_registers find_match frames s) as (calls & Hd & Hn & Hr & Hk).
  exists calls. split_and!; [done | done | done | |].
  - rewrite Hr. apply NoDup_fmap_2; [intros ??; apply face_label_inj|].
    apply NoDup_seq.
  - intros Hl. destruct (Hk Hl) as [Hl' Hkeys]. split_and!; [| done | | done].
    + intros fid Hin (i & Hi & ->)%Hl. rewrite Hr in Hin.
      apply list_elem_of_fmap in Hin as (j & Heq & Hj).
      apply face_label_inj in Heq. subst j. apply elem_of_seq in Hj. lia.
    + apply (f_equal length) in Hkeys. rewrite length_app, Hr in Hkeys.
      unfold Dict.keys in Hkeys. rewrite !length_fmap, length_seq in Hkeys. lia.
Qed.

Lemma registered_labels_are_fresh_witness :
  ∃ calls,
    database (state_of (run (rt := stable_order) no_match example_system
                          [example_frame [face_detection] true])) =
      database example_system ++ calls ∧
    registered_ids calls = ["FACE_0001"] ∧
    Dict.keys (known_embeddings
                 (state_of (run (rt := stable_order) no_match example_system
                              [example_frame [face_detection] true]))) =
      registered_ids calls.
Proof.
  destruct (registered_labels_are_fresh (rt := stable_order) no_match
              example_system [example_frame [face_detection] true])
    as (calls & Hd & _ & Hr & _ & Hk).
  destruct Hk as (_ & Hk & _).
  - intros fid Hin. simpl in Hin. by apply elem_of_nil in Hin.
  - exists calls. split_and!; [exact Hd | exact Hr | exact Hk].
Defined.

(** ** The recognizer *)

Section recognizer_facts.
Context {Embedding F : Type}.
Variable gt : F → F → bool.
Variables zero threshold : F.
Variable cosine : Embedding → Embedding → F.
Implicit Types (e : Embedding) (known : list (string * Embedding))
  (best : option string * F).

Local Notation step := (find_match_step gt zero threshold cosine).

Lemma find_match_step_cases e best item :
  (step e best item = best ∧
   gt (cosine e item.2) best.2 && gt (cosine e item.2) threshold = false) ∨
  (step e best item = (Some item.1, cosine e item.2) ∧
   gt (cosine e item.2) best.2 = true ∧ gt (cosine e item.2) threshold = true).
Proof.
  unfold find_match_step. cbn [compare_embeddings].
  destruct (gt (cosine e item.2) best.2) eqn:E1;
    destruct (gt (cosine e item.2) threshold) eqn:E2; simpl; auto.
Qed.

(** The loop returns its initial state or an item that passed the
    threshold. *)
Lemma find_match_loop e known : ∀ best,
  fold_left (step e) known best = best ∨
  ∃ fid e', (fid, e') ∈ known ∧
    fold_left (step e) known best = (Some fid, cosine e e') ∧
    gt (cosine e e') threshold = true.
Proof.
  induction known as [|[fid0 e0] known IH]; intros best; [by left|].
  cbn [fold_left].
  destruct (find_match_step_cases e best (fid0, e0)) as [[Hs _]|(Hs & _ & Hthr)];
    cbn [fst snd] in *; rewrite Hs.
  - destruct (IH best) as [->|(fid & e' & Hin & -> & Hg)]; [by left|].
    right. exists fid, e'. split_and!; [by right | done | done].
  - right. destruct (IH (Some fid0, cosine e e0)) as [->|(fid & e' & Hin & -> & Hg)].
    + exists fid0, e0. split_and!; [by left | done | done].
    + exists fid, e'. split_and!; [by right | done | done].
Qed.

(** Once a match is held, a match is returned. *)
Lemma find_match_loop_Some e known : ∀ best,
  is_Some best.1 → is_Some (fold_left (step e) known best).1.
Proof.
  induction known as [|item known IH]; intros best Hbest; [done|].
  cbn [fold_left]. apply IH.
  destruct (find_match_step_cases e best item) as [[-> _]|(-> & _)]; [done|].
  by eexists.
Qed.

(** Without a match, no item passed both tests. *)
Lemma find_match_loop_None e known : ∀ best,
  (fold_left (step e) known best).1 = None →
  fold_left (step e) known best = best ∧
  ∀ fid e', (fid, e') ∈ known →
    gt (cosine e e') best.2 && gt (cosine e e') threshold = false.
Proof.
  induction known as [|[fid0 e0] known IH]; intros best Hnone.
  { split; [done|]. by intros fid e' ?%elem_of_nil. }
  cbn [fold_left] in *.
  destruct (find_match_step_cases e best (fid0, e0)) as [[Hs Hno]|(Hs & _)];
    cbn [fst snd] in *.
  - rewrite Hs in *. destruct (IH best Hnone) as [-> Hrest].
    split; [done|]. intros fid e' [[= -> ->]|Hin]%elem_of_cons; [done | by eauto].
  - rewrite Hs in Hnone.
    destruct (find_match_loop_Some e known (Some fid0, cosine e e0)) as [x Hx];
      [by eexists | congruence].
Qed.

Section ordered.
Hypothesis gt_trans : ∀ x y z, gt x y = true → gt y z = true → gt x z = true.
Hypothesis gt_irrefl : ∀ x, gt x x = false.

Lemma gt_not_below x y z : gt x z = false → gt y z = true → gt x y = false.
Proof.
  intros Hxz Hyz. destruct (gt x y) eqn:E; [|done].
  by rewrite (gt_trans x y z E Hyz) in Hxz.
Qed.

(** The similarity returned is not exceeded by any item that passes the
    threshold, and is above the initial one unless nothing was kept. *)
Lemma find_match_loop_max e known : ∀ best,
  (fold_left (step e) known best = best ∨
   gt (fold_left (step e) known best).2 best.2 = true) ∧
  ∀ fid e', (fid, e') ∈ known → gt (cosine e e') threshold = true →
    gt (cosine e e') (fold_left (step e) known best).2 = false.
Proof.
  induction known as [|[fid0 e0] known IH]; intros best.
  { split; [by left|]. by intros fid e' ?%elem_of_nil. }
  cbn [fold_left].
  destruct (find_match_step_cases e best (fid0, e0))
    as [[Hs Hno]|(Hs & Hbest & Hthr)]; cbn [fst snd] in *; rewrite Hs.
  - destruct (IH best) as [Hr Hmax]. split; [exact Hr|].
    intros fid e' [[= -> ->]|Hin]%elem_of_cons Hpass; [|by eauto].
    rewrite Hpass, andb_true_r in Hno.
    destruct Hr as [->|Hr]; [done|]. by eapply gt_not_below.
  - destruct (IH (Some fid0, cosine e e0)) as [Hr Hmax]. cbn [snd] in *. split.
    + right. destruct Hr as [->|Hr]; [done|]. by eapply gt_trans.
    + intros fid e' [[= -> ->]|Hin]%elem_of_cons Hpass; [|by eauto].
      destruct Hr as [->|Hr]; [apply gt_irrefl|].
      eapply gt_not_below; [apply gt_irrefl | exact Hr].
Qed.
End ordered.

(** The identity that [process_frame] gets from the recognizer is a key of
    the known embeddings. *)
Lemma recognizer_find_match_known e known fid :
  recognizer_find_match gt zero threshold cosine e known = Some fid →
  fid ∈ Dict.keys known.
Proof.
  unfold recognizer_find_match, find_match_similarity. intros H.
  destruct (find_match_loop e known (None, zero)) as [Heq|(x & e' & Hin & Heq & _)];
    rewrite Heq in H; [done|].
  injection H as ->. by apply (list_elem_of_fmap_2 fst) in Hin.
Qed.
End recognizer_facts.

(** X12.  [find_match] returns the best known face above the threshold.
    The comparison [>] of similarities is transitive and irreflexive.
    Without an embedding the result is [(None, 0.0)].  Otherwise, if an
    identity is returned, it is a key of the known embeddings, the
    similarity returned is the one of its embedding, it is above the
    threshold and above [0.0], and no known embedding whose similarity is
    above the threshold has a greater similarity; if no identity is
    returned, the similarity returned is [0.0] and no known embedding has a
    similarity above both [0.0] and the threshold. *)
Theorem find_match_returns_best {Embedding F : Type}
    (gt : F → F → bool) (zero threshold : F)
    (cosine : Embedding → Embedding → F)
    (e : Embedding) (known : list (string * Embedding)) :
  (∀ x y z, gt x y = true → gt y z = true → gt x z = true) →
  (∀ x, gt x x = false) →
  find_match_similarity gt zero threshold cosine None known = (None, zero) ∧
  match find_match_similarity gt zero threshold cosine (Some e) known with
  | (Some fid, similarity) =>
      fid ∈ Dict.keys known ∧
      (∃ e', (fid, e') ∈ known ∧ similarity = cosine e e') ∧
      gt similarity threshold = true ∧
      gt similarity zero = true ∧
      ∀ fid' e', (fid', e') ∈ known → gt (cosine e e') threshold = true →
        gt (cosine e e') similarity = false
  | (None, similarity) =>
      similarity = zero ∧
      ∀ fid' e', (fid', e') ∈ known →
        gt (cosine e e') zero && gt (cosine e e') threshold = false
  end.
Proof.
  intros gt_trans gt_irrefl. split; [done|].
  cbn [find_match_similarity].
  destruct (find_match_loop_max gt zero threshold cosine gt_trans gt_irrefl
              e known (None, zero)) as [Hr Hmax].
  destruct (fold_left _ known (None, zero)) as [[fid|] similarity] eqn:Hfold.
  - destruct (find_match_loop gt zero threshold cosine e known (None, zero))
      as [Heq|(x & e' & Hin & Heq & Hthr)]; rewrite Hfold in Heq; [done|].
    injection Heq as -> ->. cbn [snd] in *.
    split_and!; [| by eauto | done | | done].
    + by apply (list_elem_of_fmap_2 fst) in Hin.
    + by destruct Hr as [?|?].
  - pose proof (find_match_loop_None gt zero threshold cosine e known (None, zero))
      as Hnone. rewrite Hfold in Hnone. destruct (Hnone eq_refl) as [Heq Hall].
    injection Heq as ->. done.
Qed.

Lemma find_match_returns_best_witness :
  "FACE_0002" ∈ Dict.keys [("FACE_0001", 3%Z); ("FACE_0002", 4%Z)] ∧
  (∃ e', ("FACE_0002", e') ∈ [("FACE_0001", 3%Z); ("FACE_0002", 4%Z)] ∧
         8%Z = (2 * e')%Z) ∧
  (8 >? 5)%Z = true ∧
  (8 >? 0)%Z = true ∧
  ∀ (fid' : string) e', (fid', e') ∈ [("FACE_0001", 3%Z); ("FACE_0002", 4%Z)] →
    (2 * e' >? 5)%Z = true → (2 * e' >? 8)%Z = true → False.
Proof.
  pose proof (find_match_returns_best Z.gtb 0%Z 5%Z Z.mul 2%Z
                [("FACE_0001", 3%Z); ("FACE_0002", 4%Z)]) as H.
  destruct H as [_ (H1 & H2 & H3 & H4 & H5)].
  - intros x y z Hxy%Z.gtb_lt Hyz%Z.gtb_lt. apply Z.gtb_lt. lia.
  - intros x. rewrite Z.gtb_ltb. apply Z.ltb_irrefl.
  - split_and!; [exact H1 | exact H2 | exact H3 | exact H4 |].
    intros fid' e' Hin Hpass Hgt.
    exact (eq_true_false_abs _ Hgt (H5 fid' e' Hin Hpass)).
Defined.

(** ** The entered identities over a run *)

Section entered.
Context {Embedding : Type} {rt : Runtime}.
Variable find_match : Embedding → list (string * Embedding) → option string.
Implicit Types (s : @System Embedding) (f : @Frame Embedding).

(** What one round of the resolution loop does to the entered set and to
    the known embeddings. *)
Lemma resolve_entries f dets s item :
  (tracked_entries (state_of (resolve find_match f dets s item)) = tracked_entries s ∧
   known_embeddings (state_of (resolve find_match f dets s item)) = known_embeddings s) ∨
  ∃ fid e,
    (find_match e (known_embeddings s) = Some fid ∧
     known_embeddings (state_of (resolve find_match f dets s item))
       = known_embeddings s ∨
     fid = face_label (next_face_id s) ∧
     known_embeddings (state_of (resolve find_match f dets s item))
       = Dict.store fid e (known_embeddings s)) ∧
    (tracked_entries (state_of (resolve find_match f dets s item))
       = tracked_entries s ∨
     tracked_entries (state_of (resolve find_match f dets s item))
       = {[fid]} ∪ tracked_entries s).
Proof.
  destruct item as [obj_id obj_data]. unfold resolve.
  case_bool_decide; [|by left].
  destruct (get_embedding f (bbox obj_data)) as [e|]; [|by left].
  right. destruct (find_match e (known_embeddings s)) as [matched_id|] eqn:Hfm.
  - exists matched_id, e.
    destruct (assign_face_id _ _ _) as [t'|t']; [case_bool_decide|]; simpl; auto.
  - exists (face_label (next_face_id s)), e. cbn [new_face].
    destruct (assign_face_id _ _ _) as [t'|t']; [case_bool_decide|]; simpl; auto.
Qed.

Lemma run_entries_known_inv
    (P : gset string → list (string * Embedding) → Prop) :
  (∀ f dets s item,
     P (tracked_entries s) (known_embeddings s) →
     P (tracked_entries (state_of (resolve find_match f dets s item)))
       (known_embeddings (state_of (resolve find_match f dets s item)))) →
  ∀ frames s,
    P (tracked_entries s) (known_embeddings s) →
    P (tracked_entries (state_of (run find_match s frames)))
      (known_embeddings (state_of (run find_match s frames))).
Proof.
  intros Hstep.
  assert (Hframe : ∀ s f, P (tracked_entries s) (known_embeddings s) →
    P (tracked_entries (state_of (process_frame find_match s f)))
      (known_embeddings (state_of (process_frame find_match s f)))).
  { intros s f Hs. unfold process_frame.
    set (s0 := set_frame_count s (frame_count s + 1)).
    set (dets := if decide _ then _ else _).
    destruct (update (tracker s0) dets) as [t'|t']; [|exact Hs].
    pose proof (for_each_state_inv
                  (λ s, P (tracked_entries s) (known_embeddings s))
                  (resolve find_match f dets) (objects t')
                  (λ s x, Hstep f dets s x) (set_tracker s0 t') Hs) as Hloop.
    destruct (for_each _ _ _) as [s2|s2]; simpl in *; [|exact Hloop].
    destruct (exit_loop_fields f
      (elements (tracked_entries s2 ∖ current_face_ids (objects (tracker s2))
                   ∖ tracked_exits s2)) s2)
      as (_ & Hk & _ & _ & He & _).
    by rewrite He, Hk. }
  induction frames as [|f frames IH]; intros s Hs; [exact Hs|].
  simpl. specialize (Hframe s f Hs).
  destruct (process_frame find_match s f) as [s1|s1]; simpl in *;
    [by apply IH | exact Hframe].
Qed.

Lemma run_entries_all (P : string → Prop) :
  (∀ e known fid, find_match e known = Some fid → P fid) →
  (∀ n, P (face_label n)) →
  ∀ frames s,
    (∀ x, x ∈ tracked_entries s → P x) →
    ∀ x, x ∈ tracked_entries (state_of (run find_match s frames)) → P x.
Proof.
  intros Hfm Hlab frames s.
  apply (run_entries_known_inv (λ entries _, ∀ x, x ∈ entries → P x)).
  intros f dets s1 item Hs1 x.
  destruct (resolve_entries f dets s1 item)
    as [[-> _]|(fid & e & Hfid & [-> | ->])]; [by auto | by auto|].
  intros [->%elem_of_singleton|Hx]%elem_of_union; [|by auto].
  destruct Hfid as [[Hm _]|[-> _]]; [by eapply Hfm | apply Hlab].
Qed.
End entered.

(** X13.  An entry event is sent once per identity and run.  Over every
    run, from any state and whether it ends normally or by an exception, the
    entry events sent have pairwise different identities, none of which was
    entered before, and the entered set grows by their number; from the
    initial state the entered set is the set of the identities of all entry
    events, and the statistic [len(self.tracked_entries)] is their
    number. *)
Theorem entry_events_once_per_run {Embedding : Type} {rt : Runtime}
    (find_match : Embedding → list (string * Embedding) → option string)
    (s : @System Embedding) (frames : list (@Frame Embedding)) :
  (∃ calls,
     database (state_of (run find_match s frames)) = database s ++ calls ∧
     NoDup (entry_ids calls) ∧
     list_to_set (entry_ids calls) ## tracked_entries s ∧
     size (tracked_entries (state_of (run find_match s frames))) =
       size (tracked_entries s) + length (entry_ids calls)) ∧
  (∀ m k known,
     NoDup (entry_ids (database
       (state_of (run find_match (init_system m k known) frames)))) ∧
     tracked_entries (state_of (run find_match (init_system m k known) frames)) =
       list_to_set (entry_ids (database
         (state_of (run find_match (init_system m k known) frames)))) ∧
     size (tracked_entries
             (state_of (run find_match (init_system m k known) frames))) =
       length (entry_ids (database
         (state_of (run find_match (init_system m k known) frames))))).
Proof.
  assert (Hrun : ∀ s0 : @System Embedding, ∃ calls,
     database (state_of (run find_match s0 frames)) = database s0 ++ calls ∧
     NoDup (entry_ids calls) ∧
     list_to_set (entry_ids calls) ## tracked_entries s0 ∧
     tracked_entries (state_of (run find_match s0 frames)) =
       list_to_set (entry_ids calls) ∪ tracked_entries s0 ∧
     size (tracked_entries (state_of (run find_match s0 frames))) =
       size (tracked_entries s0) + length (entry_ids calls)).
  { intros s0. destruct (run_grows find_match frames s0)
      as (calls & (Hd & He & _ & Hn & Hnew) & _).
    assert (Hdisj : list_to_set (entry_ids calls) ## tracked_entries s0).
    { intros x Hx%elem_of_list_to_set Hx'. by apply (Hnew x). }
    exists calls. split_and!; [done | done | done | done |].
    rewrite He, size_union by done.
    rewrite size_list_to_set by done. lia. }
  split.
  - destruct (Hrun s) as (calls & Hd & Hn & Hdisj & _ & Hsize). by exists calls.
  - intros m k known.
    destruct (Hrun (init_system m k known)) as (calls & Hd & Hn & _ & He & Hsize).
    rewrite Hsize, He, Hd.
    change (tracked_entries (init_system m k known)) with (∅ : gset string).
    change (database (init_system m k known) ++ calls) with calls.
    by rewrite size_empty, (right_id_L ∅ (∪)).
Qed.

(** X14.  No exit event is ever sent for a recognised identity.  If the
    recognizer never returns the empty string as an identity and the empty
    string has not been entered, then over every run, whether it ends
    normally or by an exception, no exit event is sent to the database and
    the exited set stays as it was; from the initial state it stays
    empty. *)
Theorem exit_events_never_sent {Embedding : Type} {rt : Runtime}
    (find_match : Embedding → list (string * Embedding) → option string)
    (s : @System Embedding) (frames : list (@Frame Embedding)) :
  (∀ e known, find_match e known ≠ Some EmptyString) →
  EmptyString ∉ tracked_entries s →
  ∃ calls,
    database (state_of (run find_match s frames)) = database s ++ calls ∧
    exit_ids calls = [] ∧
    tracked_exits (state_of (run find_match s frames)) = tracked_exits s.
Proof.
  intros Hfm Hempty.
  destruct (run_grows find_match frames s) as (calls & (Hd & _ & Hx & _) & Hexit).
  assert (Hnone : EmptyString ∉ tracked_entries (state_of (run find_match s frames))).
  { intros Hin.
    apply (run_entries_all find_match (λ x, x ≠ EmptyString)) in Hin; [done | | |].
    - intros e known fid Hm ->. by apply (Hfm e known).
    - apply face_label_nonempty.
    - intros x Hx' ->. done. }
  assert (Hids : exit_ids calls = []).
  { destruct (exit_ids calls) as [|x ids] eqn:E; [done|].
    destruct (Hexit x ltac:(left)) as [Hin ->]. done. }
  exists calls. split_and!; [done | done |].
  rewrite Hx, Hids. simpl. by rewrite (left_id_L ∅ (∪)).
Qed.

Lemma exit_events_never_sent_witness :
  ∃ calls,
    database (state_of (run (rt := stable_order)
        no_match example_system absence_frames))
      = database example_system ++ calls ∧
    exit_ids calls = [] ∧
    tracked_exits (state_of (run (rt := stable_order)
        no_match example_system absence_frames))
      = tracked_exits example_system.
Proof.
  apply (exit_events_never_sent (rt := stable_order)
      no_match example_system absence_frames).
  - intros e known. discriminate.
  - apply not_elem_of_empty.
Defined.

(** X15.  Every entered identity has a known embedding.  If the
    recognizer only returns identities that are keys of the known
    embeddings it is given, and every entered identity has a known
    embedding, then the same holds after every run, whether it ends
    normally or by an exception, and no known identity is forgotten. *)
Theorem entered_identities_are_known {Embedding : Type} {rt : Runtime}
    (find_match : Embedding → list (string * Embedding) → option string)
    (s : @System Embedding) (frames : list (@Frame Embedding)) :
  (∀ e known fid, find_match e known = Some fid → fid ∈ Dict.keys known) →
  (∀ x, x ∈ tracked_entries s → x ∈ Dict.keys (known_embeddings s)) →
  (∀ x, x ∈ tracked_entries (state_of (run find_match s frames)) →
        x ∈ Dict.keys (known_embeddings (state_of (run find_match s frames)))) ∧
  (∀ x, x ∈ Dict.keys (known_embeddings s) →
        x ∈ Dict.keys (known_embeddings (state_of (run find_match s frames)))).
Proof.
  intros Hfm Hs.
  apply (run_entries_known_inv find_match
           (λ entries known,
              (∀ x, x ∈ entries → x ∈ Dict.keys known) ∧
              (∀ x, x ∈ Dict.keys (known_embeddings s) → x ∈ Dict.keys known)));
    [|by split].
  intros f dets s1 item [He Hk].
  assert (Hstore : ∀ fid e x, x ∈ Dict.keys (known_embeddings s1) ∨ x = fid ↔
            x ∈ Dict.keys (Dict.store fid e (known_embeddings s1))).
  { intros fid e x. rewrite keys_store_any. destruct (decide _) as [Hin|Hin].
    - split; [by intros [?| ->] | by left].
    - rewrite elem_of_app, list_elem_of_singleton. done. }
  destruct (resolve_entries find_match f dets s1 item)
    as [[-> ->]|(fid & e & Hfid & Hent)]; [by split|].
  destruct Hfid as [[Hm ->]|[-> ->]].
  - split; [|done]. destruct Hent as [-> | ->]; [done|].
    intros x [->%elem_of_singleton|Hx]%elem_of_union; [by eapply Hfm | by auto].
  - split.
    + destruct Hent as [-> | ->].
      * intros x Hx. apply Hstore. left. by auto.
      * intros x [->%elem_of_singleton|Hx]%elem_of_union;
          apply Hstore; [by right | left; by auto].
    + intros x Hx. apply Hstore. left. by auto.
Qed.

Lemma entered_identities_are_known_witness :
  (∀ x, x ∈ tracked_entries
          (state_of (run (rt := stable_order) example_find_match
                       (init_system 1 0 [("FACE_0001", 3%Z)])
                       [integer_frame [face_detection] 2])) →
        x ∈ Dict.keys (known_embeddings
          (state_of (run (rt := stable_order) example_find_match
                       (init_system 1 0 [("FACE_0001", 3%Z)])
                       [integer_frame [face_detection] 2])))) ∧
  "FACE_0001" ∈ tracked_entries
    (state_of (run (rt := stable_order) example_find_match
                 (init_system 1 0 [("FACE_0001", 3%Z)])
                 [integer_frame [face_detection] 2])).
Proof.
  split; [|vm_compute; set_solver].
  apply (entered_identities_are_known (rt := stable_order) example_find_match
           (init_system 1 0 [("FACE_0001", 3%Z)])
           [integer_frame [face_detection] 2]).
  - intros e known fid. apply recognizer_find_match_known.
  - intros x Hx. by apply not_elem_of_empty in Hx.
Defined.

(** ** The identity of a track over a run *)

Section permanent.
Context {Embedding : Type} {rt : Runtime}.
Variable find_match : Embedding → list (string * Embedding) → option string.
Implicit Types (s : @System Embedding) (f : @Frame Embedding).

(** Within a frame, [process_frame] keeps the identity of every track that
    has one, and hands out no id below [next_object_id]. *)
Lemma process_frame_identity s f :
  system_inv s →
  ∃ s', process_frame find_match s f = Ok s' ∧ system_inv s' ∧
    next_object_id (tracker s) ≤ next_object_id (tracker s') ∧
    ∀ k o', Dict.lookup k (objects (tracker s')) = Some o' →
      (∃ o, Dict.lookup k (objects (tracker s)) = Some o ∧
            (face_id o = None ∨ face_id o' = face_id o)) ∨
      next_object_id (tracker s) ≤ k.
Proof.
  intros Hs. pose proof Hs as (Hinv & Hc & He).
  destruct (process_frame_inv find_match s f Hs) as (s' & Hf & Hs').
  exists s'. split; [done|]. split; [done|].
  unfold process_frame in Hf.
  set (s0 := set_frame_count s (frame_count s + 1)) in Hf.
  set (dets := if decide _ then _ else _) in Hf.
  change (tracker s0) with (tracker s) in Hf.
  destruct (update_spec (tracker s) dets Hinv)
    as (t' & kept & n & Hup & Hinv' & _ & Hn & _).
  rewrite Hup in Hf.
  assert (Hs1 : system_inv (set_tracker s0 t')).
  { split_and!;
      [exact Hinv' | exact (update_consistent (tracker s) dets Hinv Hc t' Hup) |].
    intros k o' fid Hk Hf'. simpl in Hk |- *.
    destruct (update_identities_kept (tracker s) dets Hinv t' Hup k o' Hk)
      as [(o & Ho & Hsame)|[_ Hnone]]; [|congruence].
    eapply He; [exact Ho | congruence]. }
  destruct (for_each_ok
    (λ s1, system_inv s1 ∧
           Dict.keys (objects (tracker s1)) = Dict.keys (objects t') ∧
           next_object_id (tracker s1) = next_object_id t' ∧
           ∀ k o, Dict.lookup k (objects t') = Some o → is_Some (face_id o) →
             Dict.lookup k (objects (tracker s1)) = Some o)
    (resolve find_match f dets) (objects t')) with (s := set_tracker s0 t')
    as (s2 & Hloop & _ & Hkeys & Hnext & Hkept).
  { intros s1 item Hitem (Hs1' & Hk1 & Hn1 & Hkept1).
    destruct (resolve_inv find_match f dets s1 item Hs1') as (s1' & Hr & Hs1'' & Hk1').
    { rewrite Hk1. by apply (list_elem_of_fmap_2 fst). }
    exists s1'. split; [done|].
    destruct (resolve_objects find_match f dets s1 item s1' Hr) as [Hobj Hn1'].
    split_and!; [done | congruence | congruence |].
    intros k o Hk Hsome. specialize (Hkept1 k o Hk Hsome).
    destruct Hobj as [-> | (Hnone & fid & ->)]; [done|].
    rewrite lookup_alter_ne; [done|]. intros Heq. subst k.
    destruct item as [obj_id obj_data]. cbn [fst snd] in *.
    rewrite (elem_of_lookup obj_id obj_data (objects t')) in Hk;
      [|apply Hinv' | done].
    injection Hk as <-. rewrite Hnone in Hsome. by destruct Hsome. }
  { split_and!; done. }
  rewrite Hloop in Hf. cbn [bind] in Hf.
  destruct (exit_loop_tracker_entries f
    (elements (tracked_entries s2 ∖ current_face_ids (objects (tracker s2))
                 ∖ tracked_exits s2)) s2) as [Ht _].
  assert (Ht' : tracker s' = tracker s2) by congruence.
  rewrite Ht'. split; [rewrite Hnext; lia|].
  intros k o' Hk.
  assert (Hin : k ∈ Dict.keys (objects t')).
  { rewrite <- Hkeys. apply lookup_is_Some. by eexists. }
  apply lookup_is_Some in Hin as [o1 Ho1].
  destruct (update_identities_kept (tracker s) dets Hinv t' Hup k o1 Ho1)
    as [(o & Ho & Hsame)|[Hnew _]]; [|by right].
  left. exists o. split; [done|].
  destruct (face_id o) as [fid|] eqn:Hfid; [right | by left].
  rewrite (Hkept k o1 Ho1) in Hk by (rewrite Hsame; by eexists).
  congruence.
Qed.

Lemma run_identity frames : ∀ s k fid,
  system_inv s → k < next_object_id (tracker s) →
  (∀ o, Dict.lookup k (objects (tracker s)) = Some o → face_id o = Some fid) →
  ∃ s', run find_match s frames = Ok s' ∧
    ∀ o', Dict.lookup k (objects (tracker s')) = Some o' → face_id o' = Some fid.
Proof.
  induction frames as [|f frames IH]; intros s k fid Hs Hk Hfid; [by exists s|].
  destruct (process_frame_identity s f Hs) as (s1 & Hf & Hs1 & Hn & Hkeep).
  destruct (IH s1 k fid Hs1) as (s' & Hrun & Hfid'); [lia | |].
  - intros o1 Ho1. destruct (Hkeep k o1 Ho1) as [(o & Ho & Hsame)|Hnew]; [|lia].
    specialize (Hfid o Ho). destruct Hsame as [?|?]; congruence.
  - exists s'. cbn [run]. rewrite Hf. done.
Qed.
End permanent.

(** X16.  A track never changes its identity.  From a state that
    satisfies the invariant of the orchestrator, in which track [k] carries
    the identity [fid], every run returns, and if track [k] is still tracked
    at the end, it carries [fid]; within one frame, every track that is
    tracked after [process_frame] either was tracked before, with the same
    identity if it had one, or has an id that was not handed out before. *)
Theorem track_identity_never_changes {Embedding : Type} {rt : Runtime}
    (find_match : Embedding → list (string * Embedding) → option string)
    (s : @System Embedding) :
  system_inv s →
  (∀ frames k o fid,
     Dict.lookup k (objects (tracker s)) = Some o → face_id o = Some fid →
     ∃ s', run find_match s frames = Ok s' ∧
       ∀ o', Dict.lookup k (objects (tracker s')) = Some o' →
         face_id o' = Some fid) ∧
  (∀ f, ∃ s', process_frame find_match s f = Ok s' ∧
     ∀ k o', Dict.lookup k (objects (tracker s')) = Some o' →
       (∃ o, Dict.lookup k (objects (tracker s)) = Some o ∧
             (face_id o = None ∨ face_id o' = face_id o)) ∨
       next_object_id (tracker s) ≤ k).
Proof.
  intros Hs. split.
  - intros frames k o fid Ho Hfid.
    apply run_identity; [done | |].
    + destruct Hs as ([_ _ Hfresh] & _). rewrite Forall_forall in Hfresh.
      apply Hfresh, lookup_is_Some. by eexists.
    + intros o1 Ho1. congruence.
  - intros f. destruct (process_frame_identity find_match s f Hs)
      as (s' & Hf & _ & _ & Hkeep).
    by exists s'.
Qed.

Lemma track_identity_never_changes_witness :
  ∃ s', run (rt := stable_order) no_match
          (state_of (run (rt := stable_order) no_match example_system
                       [example_frame [face_detection] true]))
          [example_frame [face_detection] true; example_frame [] true] = Ok s' ∧
    ∀ o', Dict.lookup 0 (objects (tracker s')) = Some o' →
      face_id o' = Some "FACE_0001".
Proof.
  assert (Hs : system_inv (state_of (run (rt := stable_order) no_match example_system
                                       [example_frame [face_detection] true]))).
  { destruct (run_inv (rt := stable_order)
      no_match [example_frame [face_detection] true]
                example_system (init_system_inv 1 0 [])) as (s1 & Hrun & Hs1).
    rewrite Hrun. exact Hs1. }
  destruct (track_identity_never_changes (rt := stable_order) no_match _ Hs) as [H _].
  eapply (H [example_frame [face_detection] true; example_frame [] true]
            0 _ "FACE_0001").
  - vm_compute. reflexivity.
  - reflexivity.
Defined.

(** ** The order of the exit loop *)

Section exit_order.
Context {Embedding : Type}.
Implicit Types (s : @System Embedding) (f : @Frame Embedding).

Lemma exit_one_tracker f s fid : tracker (exit_one f s fid) = tracker s.
Proof. unfold exit_one. by destruct (find _ _). Qed.

(** The body of the exit loop does nothing for an identity, other than the
    empty string, that no track carries. *)
Lemma exit_one_inert f s fid :
  fid ∉ current_face_ids (objects (tracker s)) → fid ≠ EmptyString →
  exit_one f s fid = s.
Proof.
  intros Hnot Hne. unfold exit_one.
  destruct (find _ _) as [o|] eqn:Hfind; [|done].
  apply find_some in Hfind as [Hin Hface].
  apply bool_decide_eq_true in Hface. apply list_elem_of_In in Hin.
  destruct Hnot. by eapply carried_is_current.
Qed.

(** The exit loop acts for the empty identity only. *)
Lemma exit_loop_empty_identity f fids : ∀ s,
  NoDup fids →
  (∀ x, x ∈ fids → x ∉ current_face_ids (objects (tracker s))) →
  fold_left (exit_one f) fids s =
    if decide (EmptyString ∈ fids) then exit_one f s EmptyString else s.
Proof.
  induction fids as [|fid fids IH]; intros s Hnd Hcur; [done|].
  apply NoDup_cons in Hnd as [Hfid Hnd]. cbn [fold_left].
  rewrite IH; [|done|].
  2:{ intros x Hx. rewrite exit_one_tracker. apply Hcur. by right. }
  destruct (decide (fid = EmptyString)) as [->|Hne].
  - rewrite decide_False by done. rewrite decide_True by left. done.
  - rewrite (exit_one_inert f s fid); [|apply Hcur; left | done].
    apply decide_ext. rewrite elem_of_cons. naive_solver.
Qed.
End exit_order.

(** X17.  The outcome of the exit loop of [process_frame] does not depend
    on the order in which the set [exited_faces] is iterated: for every
    enumeration of its elements, each once, the loop ends in the same state
    as for the enumeration [elements] that [process_frame] uses. *)
Theorem exit_loop_order_irrelevant {Embedding : Type}
    (f : @Frame Embedding) (s : @System Embedding) (fids : list string) :
  fids ≡ₚ elements (tracked_entries s ∖ current_face_ids (objects (tracker s))
                      ∖ tracked_exits s) →
  fold_left (exit_one f) fids s =
    fold_left (exit_one f)
      (elements (tracked_entries s ∖ current_face_ids (objects (tracker s))
                   ∖ tracked_exits s)) s.
Proof.
  intros Hperm.
  set (exited := tracked_entries s ∖ current_face_ids (objects (tracker s))
                   ∖ tracked_exits s) in *.
  assert (Hcur : ∀ x, x ∈ elements exited →
            x ∉ current_face_ids (objects (tracker s))).
  { intros x Hx%elem_of_elements. unfold exited in Hx. set_solver. }
  rewrite !exit_loop_empty_identity.
  - apply decide_ext. by rewrite Hperm.
  - apply NoDup_elements.
  - exact Hcur.
  - rewrite Hperm. apply NoDup_elements.
  - intros x Hx. apply Hcur. by rewrite <- Hperm.
Qed.

Lemma exit_loop_order_irrelevant_witness :
  fold_left (exit_one (example_frame [] true))
    (reverse (elements (tracked_entries two_entered
                          ∖ current_face_ids (objects (tracker two_entered))
                          ∖ tracked_exits two_entered))) two_entered =
  fold_left (exit_one (example_frame [] true))
    (elements (tracked_entries two_entered
                 ∖ current_face_ids (objects (tracker two_entered))
                 ∖ tracked_exits two_entered)) two_entered.
Proof.
  apply (exit_loop_order_irrelevant (example_frame [] true) two_entered).
  apply reverse_Permutation.
Defined.
